(** * ccfd: numerical flux kernels, face-flux integration and source quadrature

    A shallow embedding of [src/fluxCalculation.c] and [src/source.c].

    Arithmetic.  The C code computes on [double].  The embedding idealises
    [double] as the real numbers [R] of the Standard Library: [+ - * /] are
    exact, [sqrt], [fmax], [fmin] and [fabs] become [sqrt], [Rmax], [Rmin]
    and [Rabs], and a comparison is decided by [Rlt_dec] / [Rle_dec].
    Rounding, signed zeros, infinities and NaN are therefore outside the
    model; in particular [x / 0] is the real number [x * / 0] (which is [0])
    and not an IEEE infinity.  Every statement below is a statement about
    this exact-arithmetic reading of the code, except in the module
    [Binary64] at the end, which evaluates one kernel on IEEE binary64
    numbers.

    Memory.  Mesh sides and elements live in stores indexed by addresses;
    a C pointer is an address, and two pointers alias when the addresses
    are equal.  The OpenMP loops are run sequentially in index order. *)

From Stdlib Require Import Floats.
From Stdlib Require Import Reals Lra Psatz ZArith List Bool Permutation.
Import ListNotations.
Open Scope R_scope.

(** ** Scalars *)

(** C comparisons on [double], as booleans. *)
Definition Rltb (x y : R) : bool := if Rlt_dec x y then true else false.
Definition Rleb (x y : R) : bool := if Rle_dec x y then true else false.

Notation "x <? y" := (Rltb x y) : R_scope.
Notation "x >? y" := (Rltb y x) : R_scope.
Notation "x <=? y" := (Rleb x y) : R_scope.
Notation "x >=? y" := (Rleb y x) : R_scope.

Definition fmax : R -> R -> R := Rmax.
Definition fmin : R -> R -> R := Rmin.
Definition fabs : R -> R := Rabs.

(** ** Arrays of [NVAR = 4] and [NDIM = 2] doubles *)

Record arr4 : Type := mk4 { at0 : R; at1 : R; at2 : R; at3 : R }.
Record arr2 : Type := mk2 { d0 : R; d1 : R }.

(** Index macros of the C headers: [RHO = 0], [MX = VX = 1], [MY = VY = 2],
    [E = P = 3]; [X = 0], [Y = 1]. *)
Definition RHO : nat := 0.
Definition MX : nat := 1.
Definition MY : nat := 2.
Definition E : nat := 3.
Definition VX : nat := 1.
Definition VY : nat := 2.
Definition P : nat := 3.
Definition X : nat := 0.
Definition Y : nat := 1.

Definition get4 (a : arr4) (i : nat) : R :=
  match i with
  | O => at0 a
  | S O => at1 a
  | S (S O) => at2 a
  | _ => at3 a
  end.

Definition get2 (a : arr2) (i : nat) : R :=
  match i with
  | O => d0 a
  | _ => d1 a
  end.

Notation "a .[ i ]" := (get4 a i) (at level 1, left associativity, format "a .[ i ]") : R_scope.
Notation "a .< i >" := (get2 a i) (at level 1, i at level 0, left associativity, format "a .< i >") : R_scope.

(** [double a[4] = {0.0}] *)
Definition zero4 : arr4 := mk4 0 0 0 0.

(** Component-wise negation and scaling. *)
Definition neg4 (a : arr4) : arr4 :=
  mk4 (- a.[0]) (- a.[1]) (- a.[2]) (- a.[3]).

Definition scale4 (a : arr4) (s : R) : arr4 :=
  mk4 (a.[0] * s) (a.[1] * s) (a.[2] * s) (a.[3] * s).

(** ** Comparisons and array access *)

Lemma Rltb_lt (x y : R) : x < y -> (x <? y) = true.
Proof. intros H. unfold Rltb. destruct (Rlt_dec x y); [reflexivity | contradiction]. Qed.

Lemma Rltb_ge (x y : R) : y <= x -> (x <? y) = false.
Proof. intros H. unfold Rltb. destruct (Rlt_dec x y); [lra | reflexivity]. Qed.

Lemma Rleb_le (x y : R) : x <= y -> (x <=? y) = true.
Proof. intros H. unfold Rleb. destruct (Rle_dec x y); [reflexivity | contradiction]. Qed.

Lemma Rleb_gt (x y : R) : y < x -> (x <=? y) = false.
Proof. intros H. unfold Rleb. destruct (Rle_dec x y); [lra | reflexivity]. Qed.

Lemma Rltb_spec (x y : R) : (x < y /\ (x <? y) = true) \/ (y <= x /\ (x <? y) = false).
Proof.
  destruct (Rlt_dec x y) as [Hlt | Hge].
  - left. split; [assumption | now apply Rltb_lt].
  - right. assert (y <= x) by lra. split; [assumption | now apply Rltb_ge].
Qed.

Lemma Rleb_spec (x y : R) : (x <= y /\ (x <=? y) = true) \/ (y < x /\ (x <=? y) = false).
Proof.
  destruct (Rle_dec x y) as [Hle | Hgt].
  - left. split; [assumption | now apply Rleb_le].
  - right. assert (y < x) by lra. split; [assumption | now apply Rleb_gt].
Qed.

(** Settles every comparison of the goal that linear arithmetic decides. *)
Ltac decide_cmp :=
  repeat match goal with
  | |- context [Rltb ?a ?b] =>
      first [ rewrite (Rltb_lt a b) by lra | rewrite (Rltb_ge a b) by lra ]
  | |- context [Rleb ?a ?b] =>
      first [ rewrite (Rleb_le a b) by lra | rewrite (Rleb_gt a b) by lra ]
  end.

Lemma sqrt_lt_two (x : R) : 0 <= x < 4 -> sqrt x < 2.
Proof.
  intros [H0 H4].
  replace 2 with (sqrt (2 * 2)) by (apply sqrt_square; lra).
  apply sqrt_lt_1; lra.
Qed.

(** The decimal literals of the source, as fractions. *)
Lemma dec_half : 0.5 = 1 / 2.
Proof. lra. Qed.

Lemma dec_quarter : 0.25 = 1 / 4.
Proof. lra. Qed.

Lemma dec_eighth : 0.125 = 1 / 8.
Proof. lra. Qed.

Lemma dec_tenth : 0.1 = 1 / 10.
Proof. lra. Qed.

Lemma dec_neg_half : -0.5 = - (1 / 2).
Proof. lra. Qed.

Lemma dec_neg_quarter : -0.25 = - (1 / 4).
Proof. lra. Qed.

Ltac decimals :=
  rewrite ?dec_half, ?dec_quarter, ?dec_eighth, ?dec_tenth,
          ?dec_neg_half, ?dec_neg_quarter.

Lemma arr4_eta (a : arr4) : mk4 a.[0] a.[1] a.[2] a.[3] = a.
Proof. destruct a; reflexivity. Qed.

Lemma arr4_ext (a b : arr4) :
  a.[0] = b.[0] -> a.[1] = b.[1] -> a.[2] = b.[2] -> a.[3] = b.[3] -> a = b.
Proof. destruct a, b; simpl; intros; subst; reflexivity. Qed.

Lemma neg4_zero4 : neg4 zero4 = zero4.
Proof. unfold neg4, zero4; simpl. f_equal; lra. Qed.

Lemma scale4_zero4 (s : R) : scale4 zero4 s = zero4.
Proof. unfold scale4, zero4; simpl. f_equal; lra. Qed.

(** ** Scheme identifiers and the exact Riemann solver

    The enumeration constants [GOD] ... [VANLEER] come from a header outside
    the two files embedded here; they are taken as a table of integers.
    [exactRiemann] is an external function (exactRiemann.h); it is a
    parameter returning the three values the C function writes through its
    pointer arguments [&rho], [&vx] and [&p]. *)

Record flux_ids : Type := mkIds {
  GOD : Z; ROE : Z; HLL : Z; HLLE : Z; HLLC : Z; LXF : Z;
  STW : Z; CEN : Z; AUSMD : Z; AUSMDV : Z; VANLEER : Z
}.

Definition riemann_solver : Type :=
  R -> R -> R -> R -> R -> R -> R -> R -> R -> R * R * R.

(** ** Mesh records

    The fields of [side_t] and [elem_t] that the two source files use.  The
    [connection] and [elem] pointers are addresses into the two stores. *)

Definition addr : Type := nat.

Module Side.
Record t : Type := mk {
  pVar : arr4;
  n : arr2;
  len : R;
  flux : arr4;
  connection : addr;
  elem : addr;
  baryBaryVec : arr2;
  baryBaryDist : R
}.

Definition set_flux (s : t) (f : arr4) : t :=
  mk (pVar s) (n s) (len s) f (connection s) (elem s)
     (baryBaryVec s) (baryBaryDist s).
End Side.

Module Elem.
Record t : Type := mk {
  pVar : arr4;
  u_x : arr4;
  u_y : arr4;
  source : arr4;
  nGP : nat;
  xGP : list arr2;
  wGP : list R
}.

Definition set_source (e : t) (s : arr4) : t :=
  mk (pVar e) (u_x e) (u_y e) s (nGP e) (xGP e) (wGP e).
End Elem.

Definition side_store : Type := addr -> Side.t.
Definition elem_store : Type := addr -> Elem.t.

(** Assignment through a pointer: the record at address [a] is replaced. *)
Definition store_upd {A : Type} (h : addr -> A) (a : addr) (v : A) : addr -> A :=
  fun b => if Nat.eqb b a then v else h b.

(** ** Concrete data for the examples *)

(** A table of distinct identifiers. *)
Definition ids_std : flux_ids := mkIds 1 2 3 4 5 6 7 8 9 10 11.

(** A stand-in for the exact Riemann solver, used only to instantiate the
    parameter in examples: it returns the left state. *)
Definition solver_left : riemann_solver :=
  fun rhoL rhoR vxL vxR pL pR cL cR s => (rhoL, vxL, pL).

(** A mesh of one face: the side record at address 0 and its connection at
    address 1, between the elements at addresses 0 and 1.  The fluid is at
    rest in the first cell and moves with velocity 1 in the second; the
    velocity gradient is (1, 0) in both. *)
Definition mesh1_sides : side_store :=
  fun a =>
    match a with
    | O => Side.mk (mk4 1 0 0 1) (mk2 1 0) 1 (mk4 7 7 7 7) 1%nat 0%nat (mk2 1 0) 1
    | _ => Side.mk (mk4 1 1 0 1) (mk2 (-1) 0) 1 (mk4 7 7 7 7) 0%nat 1%nat (mk2 (-1) 0) 1
    end.

Definition mesh1_elems : elem_store :=
  fun a =>
    match a with
    | O => Elem.mk (mk4 1 0 0 1) (mk4 0 1 0 0) zero4 (mk4 7 7 7 7) 1
                   [mk2 0 0] [1]
    | _ => Elem.mk (mk4 1 1 0 1) (mk4 0 1 0 0) zero4 (mk4 7 7 7 7) 1
                   [mk2 1 0] [1]
    end.

(** A store in which the connection pointers pair the records at addresses
    2k and 2k + 1. *)
Definition paired_sides : side_store :=
  fun a =>
    Side.mk (mk4 1 (INR a) 0 1) (mk2 1 0) 1 (mk4 7 7 7 7)
            (if Nat.even a then S a else Nat.pred a) 0%nat (mk2 1 0) 1.

(** A unit square cell in uniform flow: the sides at addresses 0 .. 3 have
    the outward normals (1, 0), (0, 1), (-1, 0), (0, -1) and length 1, and
    every record of the store holds the state (1, 2, 1, 1). *)
Definition square_cell_sides : side_store :=
  fun a =>
    Side.mk (mk4 1 2 1 1)
            (match a with
             | 0%nat => mk2 1 0
             | 1%nat => mk2 0 1
             | 2%nat => mk2 (-1) 0
             | _ => mk2 0 (-1)
             end)
            1 (mk4 7 7 7 7) (a + 4)%nat 0%nat (mk2 1 0) 1.

Section Kernels.

(** Ratio of specific heats (global [gam]). *)
Variable gam : R.

(** Modelled from the spec: the global [gam1] is set by initialisation code
    outside the two files embedded here; the spec describes it as the
    derived constant gamma - 1. *)
Definition gam1 : R := gam - 1.

(** Modelled from the spec: the global [gam1q], likewise; the spec describes
    it as the derived constant 1 / (gamma - 1). *)
Definition gam1q : R := 1 / gam1.

Variable exactRiemann : riemann_solver.

(** *** Godunov *)
Definition flux_god (rhoL rhoR vxL vxR vyL vyR pL pR : R) : arr4 :=
  let cL := sqrt (gam * pL / rhoL) in
  let cR := sqrt (gam * pR / rhoR) in
  let '(rho, vx, p) := exactRiemann rhoL rhoR vxL vxR pL pR cL cR 0 in
  let vy := if vx >? 0 then vyL else vyR in
  mk4 (rho * vx)
      (rho * vx * vx + p)
      (rho * vx * vy)
      (vx * (gam / gam1 * p + 0.5 * rho * (vx * vx + vy * vy))).

(** *** Roe *)

(** One pass of the entropy-fix loop body for eigenvalue [a]. *)
Definition roe_fix (a al ar : R) : R :=
  let da := fmax (fmax 0 (a - al)) (ar - a) in
  if fabs a <? da then 0.5 * (a * a / da + da) else fabs a.

Definition flux_roe (rhoL rhoR vxL vxR vyL vyR pL pR : R) : arr4 :=
  let mxL := rhoL * vxL in
  let mxR := rhoR * vxR in
  let myL := rhoL * vyL in
  let myR := rhoR * vyR in
  let eR := gam1q * pR + 0.5 * rhoR * (vxR * vxR + vyR * vyR) in
  let eL := gam1q * pL + 0.5 * rhoL * (vxL * vxL + vyL * vyL) in
  let HR := (eR + pR) / rhoR in
  let HL := (eL + pL) / rhoL in
  let rhoSqR := sqrt rhoR in
  let rhoSqL := sqrt rhoL in
  let rhoSqQsum := 1 / (rhoSqL + rhoSqR) in
  let vxBar := (rhoSqR * vxR + rhoSqL * vxL) * rhoSqQsum in
  let vyBar := (rhoSqR * vyR + rhoSqL * vyL) * rhoSqQsum in
  let Hbar := (rhoSqR * HR + rhoSqL * HL) * rhoSqQsum in
  let cBar := sqrt (gam1 * (Hbar - 0.5 * (vxBar * vxBar + vyBar * vyBar))) in
  let a := mk4 (vxBar - cBar) vxBar vxBar (vxBar + cBar) in
  let r1 := mk4 1 a.[0] vyBar (Hbar - vxBar * cBar) in
  let r2 := mk4 1 vxBar vyBar (0.5 * (vxBar * vxBar + vyBar * vyBar)) in
  let r3 := mk4 0 0 1 vyBar in
  let r4 := mk4 1 a.[3] vyBar (Hbar + vxBar * cBar) in
  let delRho := rhoR - rhoL in
  let delMx := mxR - mxL in
  let delMy := myR - myL in
  let delE := eR - eL in
  let delEq := delE - (delMy - vyBar * delRho) * vyBar in
  let cBarQ := 1 / cBar in
  (* the wave strengths; the C locals are named gam1 .. gam4, the local
     gam1 shadowing the global from its declaration on *)
  let w2 := - gam1 * cBarQ * cBarQ
            * (delRho * (vxBar * vxBar - Hbar) + delEq - delMx * vxBar) in
  let w1 := - 0.5 * cBarQ * (delMx - delRho * (vxBar + cBar)) - 0.5 * w2 in
  let w4 := delRho - w1 - w2 in
  let w3 := delMy - vyBar * delRho in
  let fR := mk4 mxR (mxR * vxR + pR) (mxR * vyR) (vxR * (eR + pR)) in
  let fL := mk4 mxL (mxL * vxL + pL) (mxL * vyL) (vxL * (eL + pL)) in
  let cL := sqrt (gam * pL / rhoL) in
  let cR := sqrt (gam * pR / rhoR) in
  let al := mk4 (vxL - cL) vxL vxL (vxL + cL) in
  let ar := mk4 (vxR - cR) vxR vxR (vxR + cR) in
  let a' := mk4 (roe_fix a.[0] al.[0] ar.[0]) (roe_fix a.[1] al.[1] ar.[1])
                (roe_fix a.[2] al.[2] ar.[2]) (roe_fix a.[3] al.[3] ar.[3]) in
  let out (i : nat) :=
    0.5 * (fR.[i] + fL.[i]
           - w1 * fabs a'.[0] * r1.[i]
           - w2 * fabs a'.[1] * r2.[i]
           - w3 * fabs a'.[2] * r3.[i]
           - w4 * fabs a'.[3] * r4.[i]) in
  mk4 (out 0%nat) (out 1%nat) (out 2%nat) (out 3%nat).

(** *** HLL *)

(** The last [if] cascade shared (textually) by [flux_hll] and
    [flux_hlle]. *)
Definition hll_select (alm arp arpAlmQ : R) (uL uR fL fR : arr4) : arr4 :=
  if alm >? 0 then mk4 fL.[0] fL.[1] fL.[2] fL.[3]
  else if arp <? 0 then mk4 fR.[0] fR.[1] fR.[2] fR.[3]
  else
    let out (i : nat) :=
      (arp * fL.[i] - alm * fR.[i]) * arpAlmQ
      + (arp * alm) * arpAlmQ * (uR.[i] - uL.[i]) in
    mk4 (out 0%nat) (out 1%nat) (out 2%nat) (out 3%nat).

Definition flux_hll (rhoL rhoR vxL vxR vyL vyR pL pR : R) : arr4 :=
  let rhoLq := 1 / rhoL in
  let rhoRq := 1 / rhoR in
  let rhoSqL := sqrt rhoL in
  let rhoSqR := sqrt rhoR in
  let rhoSqQsum := 1 / (rhoSqL + rhoSqR) in
  let eR := gam1q * pR + 0.5 * rhoR * (vxR * vxR + vyR * vyR) in
  let eL := gam1q * pL + 0.5 * rhoL * (vxL * vxL + vyL * vyL) in
  let uL := mk4 rhoL (rhoL * vxL) (rhoL * vyL) eL in
  let uR := mk4 rhoR (rhoR * vxR) (rhoR * vyR) eR in
  let fL := mk4 uL.[MX] (uL.[MX] * vxL + pL) (uL.[MX] * vyL) (vxL * (eL + pL)) in
  let fR := mk4 uR.[MX] (uR.[MX] * vxR + pR) (uR.[MX] * vyR) (vxR * (eR + pR)) in
  let cL := sqrt (gam * pL * rhoLq) in
  let cR := sqrt (gam * pR * rhoRq) in
  let HL := (eL + pL) * rhoLq in
  let HR := (eR + pR) * rhoRq in
  let uM := (rhoSqR * vxR + rhoSqL * vxL) * rhoSqQsum in
  let vM := (rhoSqR * vyR + rhoSqL * vyL) * rhoSqQsum in
  let HM := (rhoSqR * HR + rhoSqL * HL) * rhoSqQsum in
  let cM := sqrt (gam1 * (HM - 0.5 * (uM * uM + vM * vM))) in
  let arp := fmax (vxR + cR) (uM + cM) in
  let alm := fmin (vxL - cL) (uM - cM) in
  let arpAlmQ := 1 / (arp - alm) in
  hll_select alm arp arpAlmQ uL uR fL fR.

(** *** HLLE *)
Definition flux_hlle (rhoL rhoR vxL vxR vyL vyR pL pR : R) : arr4 :=
  let rhoLq := 1 / rhoL in
  let rhoRq := 1 / rhoR in
  let rhoSqL := sqrt rhoL in
  let rhoSqR := sqrt rhoR in
  let rhoSqQsum := 1 / (rhoSqL + rhoSqR) in
  let eR := gam1q * pR + 0.5 * rhoR * (vxR * vxR + vyR * vyR) in
  let eL := gam1q * pL + 0.5 * rhoL * (vxL * vxL + vyL * vyL) in
  let uL := mk4 rhoL (rhoL * vxL) (rhoL * vyL) eL in
  let uR := mk4 rhoR (rhoR * vxR) (rhoR * vyR) eR in
  let fL := mk4 uL.[MX] (uL.[MX] * vxL + pL) (uL.[MX] * vyL) (vxL * (eL + pL)) in
  let fR := mk4 uR.[MX] (uR.[MX] * vxR + pR) (uR.[MX] * vyR) (vxR * (eR + pR)) in
  let cL := sqrt (gam * pL * rhoLq) in
  let cR := sqrt (gam * pR * rhoRq) in
  let uM := (rhoSqR * vxR + rhoSqL * vxL) * rhoSqQsum in
  let eta2 := 0.5 * rhoSqR * rhoSqL / (rhoSqR + rhoSqL) / (rhoSqR + rhoSqL) in
  let d := sqrt ((rhoSqR * cR * cR + rhoSqL * cL * cL) * rhoSqQsum
                 + eta2 * (vxR - vxL) * (vxR - vxL)) in
  let arp := fmax (vxR + cR) (uM + d) in
  let alm := fmin (vxL - cL) (uM - d) in
  let arpAlmQ := 1 / (arp - alm) in
  hll_select alm arp arpAlmQ uL uR fL fR.

(** *** HLLC *)
Definition flux_hllc (rhoL rhoR vxL vxR vyL vyR pL pR : R) : arr4 :=
  let rhoLq := 1 / rhoL in
  let rhoRq := 1 / rhoR in
  let rhoSqL := sqrt rhoL in
  let rhoSqR := sqrt rhoR in
  let rhoSqQsum := 1 / (rhoSqL + rhoSqR) in
  let eR := gam1q * pR + 0.5 * rhoR * (vxR * vxR + vyR * vyR) in
  let eL := gam1q * pL + 0.5 * rhoL * (vxL * vxL + vyL * vyL) in
  let uL := mk4 rhoL (rhoL * vxL) (rhoL * vyL) eL in
  let uR := mk4 rhoR (rhoR * vxR) (rhoR * vyR) eR in
  let fL := mk4 uL.[MX] (uL.[MX] * vxL + pL) (uL.[MX] * vyL) (vxL * (eL + pL)) in
  let fR := mk4 uR.[MX] (uR.[MX] * vxR + pR) (uR.[MX] * vyR) (vxR * (eR + pR)) in
  let cL := sqrt (gam * pL * rhoLq) in
  let cR := sqrt (gam * pR * rhoRq) in
  let HL := (eL + pL) * rhoLq in
  let HR := (eR + pR) * rhoRq in
  let uM := (rhoSqR * vxR + rhoSqL * vxL) * rhoSqQsum in
  let vM := (rhoSqR * vyR + rhoSqL * vyL) * rhoSqQsum in
  let HM := (rhoSqR * HR + rhoSqL * HL) * rhoSqQsum in
  let cM := sqrt (gam1 * (HM - 0.5 * (uM * uM + vM * vM))) in
  let arp := fmax (vxR + cR) (uM + cM) in
  let alm := fmin (vxL - cL) (uM - cM) in
  if alm >? 0 then mk4 fL.[0] fL.[1] fL.[2] fL.[3]
  else if arp <? 0 then mk4 fR.[0] fR.[1] fR.[2] fR.[3]
  else
    let as_ := (pR - pL + uL.[MX] * (alm - vxL) - uR.[MX] * (arp - vxR))
               / (rhoL * (alm - vxL) - rhoR * (arp - vxR)) in
    if (alm <=? 0) && (as_ >=? 0) then
      let fac := rhoL * (alm - vxL) / (alm - as_) in
      let us := mk4 fac (as_ * fac) (vyL * fac)
                    (fac * (eL / rhoL + (as_ - vxL)
                            * (as_ + pL / (rhoL * (alm - vxL))))) in
      mk4 (fL.[0] + alm * (us.[0] - uL.[0]))
          (fL.[1] + alm * (us.[1] - uL.[1]))
          (fL.[2] + alm * (us.[2] - uL.[2]))
          (fL.[3] + alm * (us.[3] - uL.[3]))
    else
      let fac := rhoR * (arp - vxR) / (arp - as_) in
      let us := mk4 fac (as_ * fac) (vyR * fac)
                    (fac * (eR / rhoR + (as_ - vxR)
                            * (as_ + pR / (rhoR * (arp - vxR))))) in
      mk4 (fR.[0] + arp * (us.[0] - uR.[0]))
          (fR.[1] + arp * (us.[1] - uR.[1]))
          (fR.[2] + arp * (us.[2] - uR.[2]))
          (fR.[3] + arp * (us.[3] - uR.[3])).

(** *** Lax-Friedrichs *)
Definition flux_lxf (rhoL rhoR vxL vxR vyL vyR pL pR : R) : arr4 :=
  let cL := sqrt (gam * pL / rhoL) in
  let cR := sqrt (gam * pR / rhoR) in
  let a := fmax (fabs vxR + cR) (fabs vxL + cL) in
  let eL := gam1q * pL + 0.5 * rhoL * (vxL * vxL + vyL * vyL) in
  let eR := gam1q * pR + 0.5 * rhoR * (vxR * vxR + vyR * vyR) in
  let delU := mk4 (rhoR - rhoL)
                  (rhoR * vxR - rhoL * vxL)
                  (rhoR * vyR - rhoL * vyL)
                  (eR - eL) in
  let fL := mk4 (rhoL * vxL)
                (rhoL * vxL * vxL + pL)
                (rhoL * vxL * vyL)
                (vxL * (eL + pL)) in
  let fR := mk4 (rhoR * vxR)
                (rhoR * vxR * vxR + pR)
                (rhoR * vxR * vyR)
                (vxR * (eR + pR)) in
  mk4 (0.5 * (fR.[0] + fL.[0]) - 0.5 * a * delU.[0])
      (0.5 * (fR.[1] + fL.[1]) - 0.5 * a * delU.[1])
      (0.5 * (fR.[2] + fL.[2]) - 0.5 * a * delU.[2])
      (0.5 * (fR.[3] + fL.[3]) - 0.5 * a * delU.[3]).

(** *** Steger-Warming *)
Definition flux_stw (rhoL rhoR vxL vxR vyL vyR pL pR : R) : arr4 :=
  let cL := sqrt (gam * pL / rhoL) in
  let cR := sqrt (gam * pR / rhoR) in
  let gam2q := 0.5 / gam in
  let aL := mk4 (vxL - cL) vxL vxL (vxL + cL) in
  let aR := mk4 (vxR - cR) vxR vxR (vxR + cR) in
  let ap := mk4 (fmax aL.[0] 0) (fmax aL.[1] 0) (fmax aL.[2] 0) (fmax aL.[3] 0) in
  let am := mk4 (fmin aR.[0] 0) (fmin aR.[1] 0) (fmin aR.[2] 0) (fmin aR.[3] 0) in
  let fp0 := rhoL * gam2q * (2 * gam1 * ap.[1] + ap.[0] + ap.[3]) in
  let fp1 := fp0 * vxL + (ap.[3] - ap.[0]) * rhoL * cL * gam2q in
  let fp2 := fp0 * vyL in
  let fp3 := fp0 * 0.5 * (vxL * vxL + vyL * vyL)
             + (ap.[3] - ap.[0]) * rhoL * cL * vxL * gam2q
             + (ap.[3] + ap.[0]) * rhoL * cL * cL * gam2q * gam1q in
  let fm0 := rhoR * gam2q * (2 * gam1 * am.[1] + am.[0] + am.[3]) in
  let fm1 := fm0 * vxR + (am.[3] - am.[0]) * rhoR * cR * gam2q in
  let fm2 := fm0 * vyR in
  let fm3 := fm0 * 0.5 * (vxR * vxR + vyR * vyR)
             + (am.[3] - am.[0]) * rhoR * cR * vxR * gam2q
             + (am.[3] + am.[0]) * rhoR * cR * cR * gam2q * gam1q in
  mk4 (fp0 + fm0) (fp1 + fm1) (fp2 + fm2) (fp3 + fm3).

(** *** Central *)
Definition flux_cen (rhoL rhoR vxL vxR vyL vyR pL pR : R) : arr4 :=
  let eL := gam1q * pL + 0.5 * rhoL * (vxL * vxL + vyL * vyL) in
  let eR := gam1q * pR + 0.5 * rhoR * (vxR * vxR + vyR * vyR) in
  let fL0 := rhoL * vxL in
  let fL1 := fL0 * vxL + pL in
  let fL2 := fL0 * vyL in
  let fL3 := vxL * (eL + pL) in
  let fR0 := rhoR * vxR in
  let fR1 := fR0 * vxR + pR in
  let fR2 := fR0 * vyR in
  let fR3 := vxR * (eR + pR) in
  mk4 (0.5 * (fL0 + fR0)) (0.5 * (fL1 + fR1))
      (0.5 * (fL2 + fR2)) (0.5 * (fL3 + fR3)).


(** *** AUSMD *)
Definition flux_ausmd (rhoL rhoR vxL vxR vyL vyR pL pR : R) : arr4 :=
  let eL := gam1q * pL + 0.5 * rhoL * (vxL * vxL + vyL * vyL) in
  let eR := gam1q * pR + 0.5 * rhoR * (vxR * vxR + vyR * vyR) in
  let HL := (eL + pL) / rhoL in
  let HR := (eR + pR) / rhoR in
  let cm := fmax (sqrt (gam * pL / rhoL)) (sqrt (gam * pR / rhoR)) in
  let alphaL := 2 * pL / rhoL / (pL / rhoL + pR / rhoR) in
  let alphaR := 2 * pR / rhoR / (pL / rhoL + pR / rhoR) in
  let '(uPlus, pPlus) :=
    if fabs vxL <? cm then
      (0.25 * alphaL * (vxL + cm) * (vxL + cm) / cm
         + 0.5 * (1 - alphaL) * (vxL + fabs vxL),
       0.25 * pL * (vxL + cm) * (vxL + cm) / (cm * cm) * (2 - vxL / cm))
    else
      (0.5 * (vxL + fabs vxL),
       0.5 * pL * (vxL + fabs vxL) / vxL) in
  let '(uMinus, pMinus) :=
    if fabs vxR <? cm then
      (- 0.25 * alphaR * (vxR - cm) * (vxR - cm) / cm
         + 0.5 * (1 - alphaR) * (vxR - fabs vxR),
       0.25 * pR * (vxR - cm) * (vxR - cm) / (cm * cm) * (2 + vxR / cm))
    else
      (0.5 * (vxR - fabs vxR),
       0.5 * pR * (vxR - fabs vxR) / vxR) in
  let rhoU := uPlus * rhoL + uMinus * rhoR in
  mk4 rhoU
      (0.5 * (rhoU * (vxR + vxL) - fabs rhoU * (vxR - vxL)) + (pPlus + pMinus))
      (0.5 * (rhoU * (vyR + vyL) - fabs rhoU * (vyR - vyL)))
      (0.5 * (rhoU * (HR + HL) - fabs rhoU * (HR - HL))).

(** *** AUSMDV *)
Definition flux_ausmdv (rhoL rhoR vxL vxR vyL vyR pL pR : R) : arr4 :=
  let eL := gam1q * pL + 0.5 * rhoL * (vxL * vxL + vyL * vyL) in
  let eR := gam1q * pR + 0.5 * rhoR * (vxR * vxR + vyR * vyR) in
  let HL := (eL + pL) / rhoL in
  let HR := (eR + pR) / rhoR in
  let cL := sqrt (gam * pL / rhoL) in
  let cR := sqrt (gam * pR / rhoR) in
  let cm := fmax cL cR in
  let alphaL := 2 * pL / rhoL / (pL / rhoL + pR / rhoR) in
  let alphaR := 2 * pR / rhoR / (pL / rhoL + pR / rhoR) in
  let '(uPlus, pPlus) :=
    if fabs vxL <? cm then
      (if vxL >? 0 then vxL + alphaL * (vxL - cm) * (vxL - cm)
       else alphaL * (vxL + cm) * (vxL + cm),
       0.25 * pL * (vxL + cm) * (vxL + cm) / (cm * cm) * (2 - vxL / cm))
    else
      if vxL >? 0 then (vxL, pL) else (0, 0) in
  let '(uMinus, pMinus) :=
    if fabs vxR <? cm then
      (if vxR >? 0 then - alphaR * (vxL - cm) * (vxL - cm)
       else vxR - alphaR * (vxR + cm) * (vxR + cm),
       0.25 * pR * (vxR - cm) * (vxR - cm) / (cm * cm) * (2 + vxR / cm))
    else
      if vxR >? 0 then (0, 0) else (vxR, pR) in
  let rhoU := uPlus * rhoL + uMinus * rhoR in
  let s := fmin 1 (10 * fabs (pR - pL) / fmin pR pL) in
  let rhoUsq0 := 0.5 * (1 + s) * (rhoL * vxL * uPlus + rhoR * vxR * uMinus) in
  let rhoUsq := rhoUsq0
                + 0.25 * (1 - s) * (rhoU * (vxR + vxL) - fabs rhoU * (vxR - vxL)) in
  let f0 := mk4 rhoU
                (rhoUsq + (pPlus + pMinus))
                (0.5 * (rhoU * (vyR + vyL) - fabs rhoU * (vyR - vyL)))
                (0.5 * (rhoU * (HR + HL) - fabs rhoU * (HR - HL))) in
  let tmpa := (vxL - cL <? 0) && (vxR - cR >? 0) in
  let tmpb := (vxL + cL <? 0) && (vxR + cR >? 0) in
  let tmpL := mk4 1 vxL vyL HL in
  let tmpR := mk4 1 vxR vyR HR in
  let f1 :=
    if tmpa && negb tmpb then
      let sub (i : nat) :=
        f0.[i] - 0.125 * ((vxR - cR) - (vxL - cL)) * (rhoR * tmpR.[i] - rhoL * tmpL.[i]) in
      mk4 (sub 0%nat) (sub 1%nat) (sub 2%nat) (sub 3%nat)
    else f0 in
  if negb tmpa && tmpb then
    let sub (i : nat) :=
      f1.[i] - 0.125 * ((vxR + cR) - (vxL + cL)) * (rhoR * tmpR.[i] - rhoL * tmpL.[i]) in
    mk4 (sub 0%nat) (sub 1%nat) (sub 2%nat) (sub 3%nat)
  else f1.

(** *** Van Leer *)
Definition flux_vanleer (rhoL rhoR vxL vxR vyL vyR pL pR : R) : arr4 :=
  let cL := sqrt (gam * pL / rhoL) in
  let cR := sqrt (gam * pR / rhoR) in
  let eL := gam1q * pL + 0.5 * rhoL * (vxL * vxL + vyL * vyL) in
  let eR := gam1q * pR + 0.5 * rhoR * (vxR * vxR + vyR * vyR) in
  let HL := (eL + pL) / rhoL in
  let HR := (eR + pR) / rhoR in
  let ML := vxL / cL in
  let fp :=
    if ML >? 1 then
      let fp0 := rhoL * vxL in
      mk4 fp0 (fp0 * vxL + pL) (fp0 * vyL) (fp0 * HL)
    else if (ML <? 1) && (ML >? - 1) then
      let cx := gam1 * vxL + 2 * cL in
      let fp0 := 0.25 * rhoL * cL * (ML + 1) * (ML + 1) in
      let fp1 := fp0 * cx / gam in
      let fp2 := fp0 * vyL in
      mk4 fp0 fp1 fp2 (0.5 * (fp1 * cx * gam / (gam * gam - 1) + fp2 * vyL))
    else mk4 0 0 0 0 in
  let MR := vxR / cR in
  let fm :=
    if MR <? - 1 then
      let fm0 := rhoR * vxR in
      mk4 fm0 (fm0 * vxR + pR) (fm0 * vyR) (fm0 * HR)
    else if (MR <? 1) && (MR >? - 1) then
      let cx := gam1 * vxR - 2 * cR in
      let fm0 := - 0.25 * rhoR * cR * (1 - MR) * (1 - MR) in
      let fm1 := fm0 * cx / gam in
      let fm2 := fm0 * vyR in
      mk4 fm0 fm1 fm2 (0.5 * (fm1 * cx * gam / (gam * gam - 1) + fm2 * vyR))
    else mk4 0 0 0 0 in
  mk4 (fp.[0] + fm.[0]) (fp.[1] + fm.[1]) (fp.[2] + fm.[2]) (fp.[3] + fm.[3]).

(** *** Dispatch

    [switch (iFlux)] over the eleven case labels, without a [default]: when
    no label matches, control leaves the [switch] and the function returns
    with [fluxLoc] as the caller passed it.  Every kernel assigns all four
    entries of [fluxLoc], so a kernel is a function returning the array. *)
Variable ids : flux_ids.
Variable iFlux : Z.

Definition convectiveFlux (rhoL rhoR vxL vxR vyL vyR pL pR : R)
    (fluxLoc : arr4) : arr4 :=
  if (iFlux =? GOD ids)%Z then flux_god rhoL rhoR vxL vxR vyL vyR pL pR
  else if (iFlux =? ROE ids)%Z then flux_roe rhoL rhoR vxL vxR vyL vyR pL pR
  else if (iFlux =? HLL ids)%Z then flux_hll rhoL rhoR vxL vxR vyL vyR pL pR
  else if (iFlux =? HLLE ids)%Z then flux_hlle rhoL rhoR vxL vxR vyL vyR pL pR
  else if (iFlux =? HLLC ids)%Z then flux_hllc rhoL rhoR vxL vxR vyL vyR pL pR
  else if (iFlux =? LXF ids)%Z then flux_lxf rhoL rhoR vxL vxR vyL vyR pL pR
  else if (iFlux =? STW ids)%Z then flux_stw rhoL rhoR vxL vxR vyL vyR pL pR
  else if (iFlux =? CEN ids)%Z then flux_cen rhoL rhoR vxL vxR vyL vyR pL pR
  else if (iFlux =? AUSMD ids)%Z then flux_ausmd rhoL rhoR vxL vxR vyL vyR pL pR
  else if (iFlux =? AUSMDV ids)%Z then flux_ausmdv rhoL rhoR vxL vxR vyL vyR pL pR
  else if (iFlux =? VANLEER ids)%Z then flux_vanleer rhoL rhoR vxL vxR vyL vyR pL pR
  else fluxLoc.

(** ** Diffusive flux (compiled under [#ifdef navierstokes])

    [f] and [g] are in-out arrays: entries [MX], [MY] and [E] are assigned,
    entry [RHO] is not touched (the two assignments are commented out in
    the source). *)
Variable mu : R.
Variable Pr : R.

Definition diffusionFlux (state gradX gradY f g : arr4) : arr4 * arr4 :=
  let fMX := (4 / 3 * gradX.[MX] - 2 / 3 * gradY.[MY]) * mu in
  let fMY := (gradY.[MX] + gradX.[MY]) * mu in
  let fE := (4 / 3 * state.[MX] * gradX.[MX] - 2 / 3 * state.[MX] * gradY.[MY]
             + (gradX.[MY] + gradY.[MX]) * state.[MY]
             + gam / (gam1 * Pr * state.[RHO] * state.[RHO])
               * (state.[RHO] * gradX.[P] - state.[P] * gradX.[RHO])) * mu in
  let gMX := (gradY.[MX] + gradX.[MY]) * mu in
  let gMY := (4 / 3 * gradY.[MY] - 2 / 3 * gradX.[MX]) * mu in
  let gE := (4 / 3 * state.[MY] * gradY.[MY] - 2 / 3 * state.[MY] * gradX.[MX]
             + (gradY.[MX] + gradX.[MY]) * state.[MX]
             + gam / (gam1 * Pr * state.[RHO] * state.[RHO])
               * (state.[RHO] * gradY.[P] - state.[P] * gradY.[RHO])) * mu in
  (mk4 f.[RHO] fMX fMY fE, mk4 g.[RHO] gMX gMY gE).

(** ** Face-flux integration

    [navierstokes] tells whether the preprocessor symbol of that name is
    defined. *)
Variable navierstokes : bool.

(** Rotation of a primitive state into the frame of the normal [n]
    (lines "rotate it into normal direction"). *)
Definition rotate (n : arr2) (pVar : arr4) : arr4 :=
  mk4 pVar.[RHO]
      (n.<X> * pVar.[VX] + n.<Y> * pVar.[VY])
      (- n.<Y> * pVar.[VX] + n.<X> * pVar.[VY])
      pVar.[P].

(** Rotation of a flux back into the global frame (lines "rotate flux into
    global coordinate system"). *)
Definition rotate_back (n : arr2) (fluxConv : arr4) : arr4 :=
  mk4 fluxConv.[RHO]
      (n.<X> * fluxConv.[MX] - n.<Y> * fluxConv.[MY])
      (n.<Y> * fluxConv.[MX] + n.<X> * fluxConv.[MY])
      fluxConv.[E].

(** The convective flux of one side, in the frame of its normal. *)
Definition side_fluxConv (n : arr2) (pVarSide pVarConn : arr4) : arr4 :=
  let pVarL := rotate n pVarSide in
  let pVarR := rotate n pVarConn in
  convectiveFlux pVarL.[RHO] pVarR.[RHO]
                 pVarL.[VX] pVarR.[VX]
                 pVarL.[VY] pVarR.[VY]
                 pVarL.[P] pVarR.[P]
                 zero4.

(** The two diffusive flux vectors of one side (the [#ifdef navierstokes]
    block that extracts the mean state and the corrected gradients, and
    the call of [diffusionFlux] on two zero-initialised arrays). *)
Definition side_fluxDiff (es : elem_store) (h : side_store) (aSide : Side.t)
    : arr4 * arr4 :=
  let conn := h (Side.connection aSide) in
  let el := es (Side.elem aSide) in
  let elc := es (Side.elem conn) in
  let mean (x y : arr4) : arr4 :=
    mk4 (0.5 * (x.[RHO] + y.[RHO])) (0.5 * (x.[VX] + y.[VX]))
        (0.5 * (x.[VY] + y.[VY])) (0.5 * (x.[P] + y.[P])) in
  let stateMean := mean (Side.pVar conn) (Side.pVar aSide) in
  let gradUxMean := mean (Elem.u_x el) (Elem.u_x elc) in
  let gradUyMean := mean (Elem.u_y el) (Elem.u_y elc) in
  let baryBary :=
    mk2 ((Side.baryBaryVec aSide).<X> / Side.baryBaryDist aSide)
        ((Side.baryBaryVec aSide).<Y> / Side.baryBaryDist aSide) in
  let corr (i : nat) : R :=
    gradUxMean.[i] * baryBary.<X> + gradUyMean.[i] * baryBary.<Y>
    - ((Elem.pVar elc).[i] - (Elem.pVar el).[i]) / Side.baryBaryDist aSide in
  let correction := mk4 (corr RHO) (corr VX) (corr VY) (corr P) in
  let gradUx :=
    mk4 (gradUxMean.[RHO] - correction.[RHO] * baryBary.<X>)
        (gradUxMean.[VX] - correction.[VX] * baryBary.<X>)
        (gradUxMean.[VY] - correction.[VY] * baryBary.<X>)
        (gradUxMean.[P] - correction.[P] * baryBary.<X>) in
  let gradUy :=
    mk4 (gradUyMean.[RHO] - correction.[RHO] * baryBary.<Y>)
        (gradUyMean.[VX] - correction.[VX] * baryBary.<Y>)
        (gradUyMean.[VY] - correction.[VY] * baryBary.<Y>)
        (gradUyMean.[P] - correction.[P] * baryBary.<Y>) in
  diffusionFlux stateMean gradUx gradUy zero4 zero4.

(** "sum up diffusion part of the fluxes": the projection of the two
    diffusive flux vectors on the normal is subtracted. *)
Definition sub_diffusion (flux : arr4) (n : arr2) (fluxDiffX fluxDiffY : arr4)
    : arr4 :=
  mk4 (flux.[RHO] - (fluxDiffX.[RHO] * n.<X> + fluxDiffY.[RHO] * n.<Y>))
      (flux.[MX] - (fluxDiffX.[MX] * n.<X> + fluxDiffY.[MX] * n.<Y>))
      (flux.[MY] - (fluxDiffX.[MY] * n.<X> + fluxDiffY.[MY] * n.<Y>))
      (flux.[E] - (fluxDiffX.[E] * n.<X> + fluxDiffY.[E] * n.<Y>)).

(** The value [aSide->flux] holds after the midpoint-rule scaling, just
    before the connection is written. *)
Definition side_flux (es : elem_store) (h : side_store) (a : addr) : arr4 :=
  let aSide := h a in
  let n := Side.n aSide in
  let fluxConv :=
    side_fluxConv n (Side.pVar aSide) (Side.pVar (h (Side.connection aSide))) in
  let flux := rotate_back n fluxConv in
  let flux :=
    if navierstokes then
      let '(fluxDiffX, fluxDiffY) := side_fluxDiff es h aSide in
      sub_diffusion flux n fluxDiffX fluxDiffY
    else flux in
  scale4 flux (Side.len aSide).

(** One iteration of the loop over the sides: [aSide->flux] is assigned,
    then [aSide->connection->flux] is assigned the negation of what
    [aSide->flux] holds at that moment. *)
Definition fluxCalculation_body (es : elem_store) (h : side_store) (a : addr)
    : side_store :=
  let h1 := store_upd h a (Side.set_flux (h a) (side_flux es h a)) in
  let c := Side.connection (h1 a) in
  store_upd h1 c (Side.set_flux (h1 c) (neg4 (Side.flux (h1 a)))).

(** [side] is the global array of [nSides] pointers; the loop visits it in
    index order. *)
Definition fluxCalculation (es : elem_store) (side : list addr)
    (h : side_store) : side_store :=
  fold_left (fluxCalculation_body es) side h.

(** ** Source term *)
Variable sourceFunc : Z.

(** [switch (iSource)] with the single label 1 and no [default]: for any
    other value the output array [source] is left as passed.  The C
    constant [pi] is the real number [PI]. *)
Definition evalSource (iSource : Z) (x : arr2) (time : R) (source : arr4)
    : arr4 :=
  if (iSource =? 1)%Z then
    let freq := 1 in
    let amp := 0.1 in
    let om := PI * freq in
    let a := 2 * PI in
    let tmp1 := cos (om * (x.<X> + x.<Y>) - a * time) in
    let tmp2 := sin (2 * (om * (x.<X> + x.<Y>) - a * time)) in
    let tmp3 := sin (om * (x.<X> + x.<Y>) - a * time) in
    let sRHO := (- a + 2 * om) * tmp1 in
    let sVX := (- a + om * (gam * 3 - 1)) * tmp1 + amp * om * gam1 * tmp2 in
    let sVY := sVX in
    let sE :=
      if navierstokes then
        ((2 + gam * 6) * om - 4 * a) * tmp1
        + amp * (2 * om * gam - a) * tmp2
        + 2 * mu * gam * om * om / Pr * tmp3
      else
        ((2 + gam * 6) * om - 4 * a) * tmp1
        + amp * (2 * om * gam - a) * tmp2 in
    mk4 (sRHO * amp) (sVX * amp) (sVY * amp) (sE * amp)
  else source.

(** The quadrature loop of one element, from index [iGP] for [count] more
    points: [acc] is [aElem->source], [source] the local array that
    [evalSource] writes into.  The arrays [xGP] and [wGP] hold [nGP]
    entries in a well-formed mesh; an index past the end of the list (an
    out-of-bounds read in C) yields the default. *)
Fixpoint calcSource_gp (e : Elem.t) (time : R) (iGP count : nat)
    (acc source : arr4) : arr4 :=
  match count with
  | O => acc
  | S count' =>
      let source' := evalSource sourceFunc (nth iGP (Elem.xGP e) (mk2 0 0)) time source in
      let w := nth iGP (Elem.wGP e) 0 in
      let acc' := mk4 (acc.[RHO] + source'.[RHO] * w)
                      (acc.[VX] + source'.[VX] * w)
                      (acc.[VY] + source'.[VY] * w)
                      (acc.[E] + source'.[E] * w) in
      calcSource_gp e time (S iGP) count' acc' source'
  end.

Definition calcSource_elem (time : R) (e : Elem.t) : Elem.t :=
  let e0 := Elem.set_source e (mk4 0 0 0 0) in
  Elem.set_source e0 (calcSource_gp e0 time 0 (Elem.nGP e0) (Elem.source e0) zero4).

(** [elem] is the global array of [nElems] pointers. *)
Definition calcSource (time : R) (elem : list addr) (es : elem_store)
    : elem_store :=
  fold_left (fun es' a => store_upd es' a (calcSource_elem time (es' a))) elem es.

(** ** Reference formulas of the specification, and parts of kernels *)

(** The physical flux F(U) = (rho v, rho v^2 + p, rho v v_t, v (E + p)) of
    one primitive state, with E = p / (gamma - 1) + rho (v^2 + v_t^2) / 2. *)
Definition total_energy (rho v vt p : R) : R :=
  p / (gam - 1) + rho * (v * v + vt * vt) / 2.

Definition physical_flux (rho v vt p : R) : arr4 :=
  let En := total_energy rho v vt p in
  mk4 (rho * v) (rho * v * v + p) (rho * v * vt) (v * (En + p)).

(** The conserved variables (rho, rho v, rho v_t, E) of a primitive state. *)
Definition conserved (rho v vt p : R) : arr4 :=
  mk4 rho (rho * v) (rho * vt) (total_energy rho v vt p).

(** Sound speed and total specific enthalpy of a state. *)
Definition sound_speed (rho p : R) : R := sqrt (gam * p / rho).

Definition enthalpy (rho v vt p : R) : R := (total_energy rho v vt p + p) / rho.

(** Roe average of a quantity [q]: weights sqrt rho. *)
Definition roe_mean (rhoL rhoR qL qR : R) : R :=
  (sqrt rhoL * qL + sqrt rhoR * qR) / (sqrt rhoL + sqrt rhoR).

Definition roe_sound_speed (rhoL rhoR vxL vxR vyL vyR pL pR : R) : R :=
  let uM := roe_mean rhoL rhoR vxL vxR in
  let vM := roe_mean rhoL rhoR vyL vyR in
  let HM := roe_mean rhoL rhoR (enthalpy rhoL vxL vyL pL) (enthalpy rhoR vxR vyR pR) in
  sqrt ((gam - 1) * (HM - (uM * uM + vM * vM) / 2)).

(** HLL signal speeds: the slowest left-going speed is the minimum of the
    left physical eigenvalue v - c and the Roe-averaged one, the fastest
    right-going speed the maximum of the right physical eigenvalue v + c
    and the Roe-averaged one. *)
Definition hll_left_speed (rhoL rhoR vxL vxR vyL vyR pL pR : R) : R :=
  Rmin (vxL - sound_speed rhoL pL)
       (roe_mean rhoL rhoR vxL vxR - roe_sound_speed rhoL rhoR vxL vxR vyL vyR pL pR).

Definition hll_right_speed (rhoL rhoR vxL vxR vyL vyR pL pR : R) : R :=
  Rmax (vxR + sound_speed rhoR pR)
       (roe_mean rhoL rhoR vxL vxR + roe_sound_speed rhoL rhoR vxL vxR vyL vyR pL pR).

(** The two-wave HLL average
    (SR FL - SL FR + SL SR (UR - UL)) / (SR - SL). *)
Definition hll_average (SL SR : R) (UL UR FL FR : arr4) : arr4 :=
  let comp (i : nat) :=
    (SR * FL.[i] - SL * FR.[i] + SL * SR * (UR.[i] - UL.[i])) / (SR - SL) in
  mk4 (comp 0%nat) (comp 1%nat) (comp 2%nat) (comp 3%nat).

(** The Riemann problem seen from the other side of the face: the two
    states are exchanged and both velocity components change sign. *)
Definition kernel : Type := R -> R -> R -> R -> R -> R -> R -> R -> arr4.

Definition mirrored (k : kernel) : kernel :=
  fun rhoL rhoR vxL vxR vyL vyR pL pR =>
    k rhoR rhoL (- vxR) (- vxL) (- vyR) (- vyL) pR pL.

(** The flux seen from the other side: mass and energy flux change sign,
    the two momentum fluxes do not. *)
Definition reflect4 (f : arr4) : arr4 :=
  mk4 (- f.[0]) f.[1] f.[2] (- f.[3]).

Definition reflection_symmetric (k : kernel) : Prop :=
  forall rhoL rhoR vxL vxR vyL vyR pL pR : R,
    0 < rhoL -> 0 < rhoR -> 0 < pL -> 0 < pR ->
    mirrored k rhoL rhoR vxL vxR vyL vyR pL pR
    = reflect4 (k rhoL rhoR vxL vxR vyL vyR pL pR).

(** The signal speeds of [flux_hlle] (Einfeldt), as the kernel computes
    them. *)
Definition hlle_d (rhoL rhoR vxL vxR pL pR : R) : R :=
  let cL := sound_speed rhoL pL in
  let cR := sound_speed rhoR pR in
  let eta2 := 0.5 * sqrt rhoR * sqrt rhoL / (sqrt rhoR + sqrt rhoL)
              / (sqrt rhoR + sqrt rhoL) in
  sqrt ((sqrt rhoR * cR * cR + sqrt rhoL * cL * cL) * (1 / (sqrt rhoL + sqrt rhoR))
        + eta2 * (vxR - vxL) * (vxR - vxL)).

Definition hlle_left_speed (rhoL rhoR vxL vxR pL pR : R) : R :=
  Rmin (vxL - sound_speed rhoL pL)
       (roe_mean rhoL rhoR vxL vxR - hlle_d rhoL rhoR vxL vxR pL pR).

Definition hlle_right_speed (rhoL rhoR vxL vxR pL pR : R) : R :=
  Rmax (vxR + sound_speed rhoR pR)
       (roe_mean rhoL rhoR vxL vxR + hlle_d rhoL rhoR vxL vxR pL pR).

(** The part of [flux_roe] past the Roe averages, as a function of them and
    of the four entropy-fixed eigenvalues. *)
Definition roe_core (vxBar vyBar Hbar cBar delRho delMx delMy delE : R)
    (fL fR : arr4) (e0 e1 e2 e3 : R) : arr4 :=
  let a := mk4 (vxBar - cBar) vxBar vxBar (vxBar + cBar) in
  let r1 := mk4 1 a.[0] vyBar (Hbar - vxBar * cBar) in
  let r2 := mk4 1 vxBar vyBar (0.5 * (vxBar * vxBar + vyBar * vyBar)) in
  let r3 := mk4 0 0 1 vyBar in
  let r4 := mk4 1 a.[3] vyBar (Hbar + vxBar * cBar) in
  let delEq := delE - (delMy - vyBar * delRho) * vyBar in
  let cBarQ := 1 / cBar in
  let w2 := - gam1 * cBarQ * cBarQ
            * (delRho * (vxBar * vxBar - Hbar) + delEq - delMx * vxBar) in
  let w1 := - 0.5 * cBarQ * (delMx - delRho * (vxBar + cBar)) - 0.5 * w2 in
  let w4 := delRho - w1 - w2 in
  let w3 := delMy - vyBar * delRho in
  let a' := mk4 e0 e1 e2 e3 in
  let out (i : nat) :=
    0.5 * (fR.[i] + fL.[i]
           - w1 * fabs a'.[0] * r1.[i]
           - w2 * fabs a'.[1] * r2.[i]
           - w3 * fabs a'.[2] * r3.[i]
           - w4 * fabs a'.[3] * r4.[i]) in
  mk4 (out 0%nat) (out 1%nat) (out 2%nat) (out 3%nat).

(** The part of [flux_hllc] past the signal speeds: contact speed, star
    state flux, selection. *)
Definition hllc_contact (SL SR rhoL rhoR vxL vxR pL pR : R) : R :=
  (pR - pL + rhoL * vxL * (SL - vxL) - rhoR * vxR * (SR - vxR))
  / (rhoL * (SL - vxL) - rhoR * (SR - vxR)).

Definition hllc_star (S as_ rho vx vy p En : R) (f u : arr4) : arr4 :=
  let fac := rho * (S - vx) / (S - as_) in
  let us := mk4 fac (as_ * fac) (vy * fac)
                (fac * (En / rho + (as_ - vx) * (as_ + p / (rho * (S - vx))))) in
  mk4 (f.[0] + S * (us.[0] - u.[0]))
      (f.[1] + S * (us.[1] - u.[1]))
      (f.[2] + S * (us.[2] - u.[2]))
      (f.[3] + S * (us.[3] - u.[3])).

Definition hllc_select (SL SR rhoL rhoR vxL vxR vyL vyR pL pR : R) : arr4 :=
  let FL := physical_flux rhoL vxL vyL pL in
  let FR := physical_flux rhoR vxR vyR pR in
  if SL >? 0 then mk4 FL.[0] FL.[1] FL.[2] FL.[3]
  else if SR <? 0 then mk4 FR.[0] FR.[1] FR.[2] FR.[3]
  else
    let as_ := hllc_contact SL SR rhoL rhoR vxL vxR pL pR in
    if (SL <=? 0) && (as_ >=? 0) then
      hllc_star SL as_ rhoL vxL vyL pL (total_energy rhoL vxL vyL pL)
        FL (conserved rhoL vxL vyL pL)
    else
      hllc_star SR as_ rhoR vxR vyR pR (total_energy rhoR vxR vyR pR)
        FR (conserved rhoR vxR vyR pR).

(** Reflection symmetry of an exact Riemann solver: the star state of the
    reflected problem is the reflected star state. *)
Definition solver_reflection_symmetric (solve : riemann_solver) : Prop :=
  forall rhoL rhoR vxL vxR pL pR cL cR rho vx p : R,
    solve rhoL rhoR vxL vxR pL pR cL cR 0 = (rho, vx, p) ->
    solve rhoR rhoL (- vxR) (- vxL) pR pL cR cL 0 = (rho, - vx, p).

(** What [flux_god] needs of [exactRiemann] at one pair of states: the
    state it returns at the interface for the reflected problem has the
    opposite velocity, the same pressure and, unless that velocity is
    zero, the same density. *)
Definition mirror_states_agree (rhoL rhoR vxL vxR pL pR : R) : Prop :=
  let cL := sound_speed rhoL pL in
  let cR := sound_speed rhoR pR in
  let '(rho, vx, p) := exactRiemann rhoL rhoR vxL vxR pL pR cL cR 0 in
  let '(rho', vx', p') := exactRiemann rhoR rhoL (- vxR) (- vxL) pR pL cR cL 0 in
  vx' = - vx /\ p' = p /\ (vx <> 0 -> rho' = rho).

(** A kernel is consistent when, on equal left and right states, it returns
    the physical flux of that state. *)
Definition consistent (k : kernel) : Prop :=
  forall rho v vt p : R,
    0 < rho -> 0 < p ->
    k rho rho v v vt vt p p = physical_flux rho v vt p.

(** The case labels of the [switch] in [convectiveFlux]. *)
Definition case_labels : list Z :=
  [GOD ids; ROE ids; HLL ids; HLLE ids; HLLC ids; LXF ids; STW ids; CEN ids;
   AUSMD ids; AUSMDV ids; VANLEER ids].

(** ** Parts of the viscous block of the face loop *)

(** [stateMean], [gradUxMean] and [gradUyMean] are componentwise means. *)
Definition mean4 (x y : arr4) : arr4 :=
  mk4 (0.5 * (x.[RHO] + y.[RHO])) (0.5 * (x.[VX] + y.[VX]))
      (0.5 * (x.[VY] + y.[VY])) (0.5 * (x.[P] + y.[P])).

(** The local array [baryBary]. *)
Definition side_baryBary (aSide : Side.t) : arr2 :=
  mk2 ((Side.baryBaryVec aSide).<X> / Side.baryBaryDist aSide)
      ((Side.baryBaryVec aSide).<Y> / Side.baryBaryDist aSide).

(** The local arrays [gradUxMean] and [gradUyMean]. *)
Definition side_gradMean (es : elem_store) (h : side_store) (aSide : Side.t)
    : arr4 * arr4 :=
  let el := es (Side.elem aSide) in
  let elc := es (Side.elem (h (Side.connection aSide))) in
  (mean4 (Elem.u_x el) (Elem.u_x elc), mean4 (Elem.u_y el) (Elem.u_y elc)).

(** The local arrays [gradUx] and [gradUy] that are passed to
    [diffusionFlux]. *)
Definition side_gradients (es : elem_store) (h : side_store) (aSide : Side.t)
    : arr4 * arr4 :=
  let el := es (Side.elem aSide) in
  let elc := es (Side.elem (h (Side.connection aSide))) in
  let '(gradUxMean, gradUyMean) := side_gradMean es h aSide in
  let baryBary := side_baryBary aSide in
  let corr (i : nat) : R :=
    gradUxMean.[i] * baryBary.<X> + gradUyMean.[i] * baryBary.<Y>
    - ((Elem.pVar elc).[i] - (Elem.pVar el).[i]) / Side.baryBaryDist aSide in
  let correction := mk4 (corr RHO) (corr VX) (corr VY) (corr P) in
  (mk4 (gradUxMean.[RHO] - correction.[RHO] * baryBary.<X>)
       (gradUxMean.[VX] - correction.[VX] * baryBary.<X>)
       (gradUxMean.[VY] - correction.[VY] * baryBary.<X>)
       (gradUxMean.[P] - correction.[P] * baryBary.<X>),
   mk4 (gradUyMean.[RHO] - correction.[RHO] * baryBary.<Y>)
       (gradUyMean.[VX] - correction.[VX] * baryBary.<Y>)
       (gradUyMean.[VY] - correction.[VY] * baryBary.<Y>)
       (gradUyMean.[P] - correction.[P] * baryBary.<Y>)).

(** The value of [aSide->flux] in a build without [navierstokes]. *)
Definition side_flux_euler (h : side_store) (a : addr) : arr4 :=
  let aSide := h a in
  scale4 (rotate_back (Side.n aSide)
            (side_fluxConv (Side.n aSide) (Side.pVar aSide)
               (Side.pVar (h (Side.connection aSide)))))
         (Side.len aSide).

(** Two records that describe one face from its two sides: each is the
    connection of the other, the normals and the barycentre vectors are
    opposite, length and barycentre distance are shared. *)
Definition twin_sides (h : side_store) (a c : addr) : Prop :=
  Side.connection (h a) = c /\
  Side.connection (h c) = a /\
  Side.n (h c) = mk2 (- (Side.n (h a)).<X>) (- (Side.n (h a)).<Y>) /\
  Side.len (h c) = Side.len (h a) /\
  Side.baryBaryVec (h c)
  = mk2 (- (Side.baryBaryVec (h a)).<X>) (- (Side.baryBaryVec (h a)).<Y>) /\
  Side.baryBaryDist (h c) = Side.baryBaryDist (h a).

(** A primitive state of positive density and pressure. *)
Definition admissible (pVar : arr4) : Prop := 0 < pVar.[RHO] /\ 0 < pVar.[P].

(** ** The quadrature sum of the source term *)

Definition add4 (a b : arr4) : arr4 :=
  mk4 (a.[0] + b.[0]) (a.[1] + b.[1]) (a.[2] + b.[2]) (a.[3] + b.[3]).

(** The source term at a point: what [evalSource] leaves in the local
    array of [calcSource], which is initialised to zeros. *)
Definition source_at (x : arr2) (time : R) : arr4 :=
  evalSource sourceFunc x time zero4.

(** The weighted sum of the source term over a list of points and
    weights. *)
Definition quadrature (time : R) (pts : list (arr2 * R)) : arr4 :=
  fold_right
    (fun xw acc => add4 (scale4 (source_at (fst xw) time) (snd xw)) acc)
    zero4 pts.

(** ** The waves of the Roe kernel *)

(** The four wave strengths (the C locals [gam1] .. [gam4] of [flux_roe]),
    as a function of the Roe averages and of the jump of the conserved
    variables. *)
Definition roe_strength (vxBar vyBar Hbar cBar delRho delMx delMy delE : R)
    : arr4 :=
  let delEq := delE - (delMy - vyBar * delRho) * vyBar in
  let cBarQ := 1 / cBar in
  let w2 := - gam1 * cBarQ * cBarQ
            * (delRho * (vxBar * vxBar - Hbar) + delEq - delMx * vxBar) in
  let w1 := - 0.5 * cBarQ * (delMx - delRho * (vxBar + cBar)) - 0.5 * w2 in
  let w4 := delRho - w1 - w2 in
  let w3 := delMy - vyBar * delRho in
  mk4 w1 w2 w3 w4.

(** The eigenvalues [a] and the eigenvectors [r1] .. [r4]. *)
Definition roe_speed (vxBar cBar : R) : arr4 :=
  mk4 (vxBar - cBar) vxBar vxBar (vxBar + cBar).

Definition roe_vector (k : nat) (vxBar vyBar Hbar cBar : R) : arr4 :=
  match k with
  | O => mk4 1 (vxBar - cBar) vyBar (Hbar - vxBar * cBar)
  | S O => mk4 1 vxBar vyBar (0.5 * (vxBar * vxBar + vyBar * vyBar))
  | S (S O) => mk4 0 0 1 vyBar
  | _ => mk4 1 (vxBar + cBar) vyBar (Hbar + vxBar * cBar)
  end.

(** The sum over the four waves of strength times factor times
    eigenvector. *)
Definition roe_wave_sum (w s : arr4) (vxBar vyBar Hbar cBar : R) : arr4 :=
  let comp (i : nat) :=
    w.[0] * s.[0] * (roe_vector 0 vxBar vyBar Hbar cBar).[i]
    + w.[1] * s.[1] * (roe_vector 1 vxBar vyBar Hbar cBar).[i]
    + w.[2] * s.[2] * (roe_vector 2 vxBar vyBar Hbar cBar).[i]
    + w.[3] * s.[3] * (roe_vector 3 vxBar vyBar Hbar cBar).[i] in
  mk4 (comp 0%nat) (comp 1%nat) (comp 2%nat) (comp 3%nat).

(** The flux Jacobian of the Euler equations at velocity (u, v) and total
    enthalpy H, applied to a vector of conserved variables. *)
Definition euler_jacobian (u v H : R) (dU : arr4) : arr4 :=
  let q2 := u * u + v * v in
  mk4 dU.[1]
      ((gam1 * q2 / 2 - u * u) * dU.[0] + (2 - gam1) * u * dU.[1]
       - gam1 * v * dU.[2] + gam1 * dU.[3])
      (- u * v * dU.[0] + v * dU.[1] + u * dU.[2])
      (u * (gam1 * q2 / 2 - H) * dU.[0] + (H - gam1 * u * u) * dU.[1]
       - gam1 * u * v * dU.[2] + (gam1 + 1) * u * dU.[3]).

(** Two stores that differ in flux accumulators only. *)
Definition same_mesh (h h0 : side_store) : Prop :=
  forall x : addr, Side.set_flux (h x) zero4 = Side.set_flux (h0 x) zero4.

(** A kernel advects the tangential velocity passively when, for equal
    tangential velocities on the two sides, its tangential momentum flux
    is that velocity times its mass flux. *)
Definition tangential_advection (k : kernel) : Prop :=
  forall rhoL rhoR vxL vxR vt pL pR : R,
    0 < rhoL -> 0 < rhoR ->
    (k rhoL rhoR vxL vxR vt vt pL pR).[MY]
    = vt * (k rhoL rhoR vxL vxR vt vt pL pR).[RHO].

(** The flux seen after the tangential axis is reversed: only the
    tangential momentum flux changes sign. *)
Definition flip_tangential (f : arr4) : arr4 :=
  mk4 f.[0] f.[1] (- f.[2]) f.[3].

(** A kernel has no preferred tangential direction when reversing the
    tangential velocity on both sides reverses the tangential momentum
    flux and changes nothing else. *)
Definition tangential_symmetric (k : kernel) : Prop :=
  forall rhoL rhoR vxL vxR vyL vyR pL pR : R,
    k rhoL rhoR vxL vxR (- vyL) (- vyR) pL pR
    = flip_tangential (k rhoL rhoR vxL vxR vyL vyR pL pR).

(** The star state [us] of [flux_hllc] behind the wave of speed [S]. *)
Definition hllc_star_state (S as_ rho vx vy p En : R) : arr4 :=
  let fac := rho * (S - vx) / (S - as_) in
  mk4 fac (as_ * fac) (vy * fac)
      (fac * (En / rho + (as_ - vx) * (as_ + p / (rho * (S - vx))))).

(** ** Uniform flow through the faces of a cell *)

(** An exact Riemann solver that resolves two equal states to that
    state. *)
Definition solver_consistent (solve : riemann_solver) : Prop :=
  forall rho v p : R,
    0 < rho -> 0 < p ->
    solve rho rho v v p p (sound_speed rho p) (sound_speed rho p) 0
    = (rho, v, p).

(** The physical flux of the primitive state [q] through a face of normal
    [n], in the global frame. *)
Definition normal_flux (n : arr2) (q : arr4) : arr4 :=
  let vn := n.<X> * q.[VX] + n.<Y> * q.[VY] in
  let En := total_energy q.[RHO] q.[VX] q.[VY] q.[P] in
  mk4 (q.[RHO] * vn)
      (q.[RHO] * vn * q.[VX] + q.[P] * n.<X>)
      (q.[RHO] * vn * q.[VY] + q.[P] * n.<Y>)
      (vn * (En + q.[P])).

Definition sum4 (l : list arr4) : arr4 := fold_right add4 zero4 l.

Definition Rsum (l : list R) : R := fold_right Rplus 0 l.

(** The flux seen by an observer who moves along the face with speed
    [- w]: the tangential momentum flux gains w times the mass flux, the
    energy flux gains w times the tangential momentum flux and w^2 / 2
    times the mass flux. *)
Definition boost4 (w : R) (f : arr4) : arr4 :=
  mk4 f.[0] f.[1] (f.[2] + w * f.[0]) (f.[3] + w * f.[2] + w * w / 2 * f.[0]).

(** A kernel is Galilean invariant along the face when adding one velocity
    [w] to the tangential velocities of both states transforms its flux as
    the physical flux is transformed. *)
Definition tangential_galilean (k : kernel) : Prop :=
  forall rhoL rhoR vxL vxR vyL vyR pL pR w : R,
    0 < rhoL -> 0 < rhoR ->
    k rhoL rhoR vxL vxR (vyL + w) (vyR + w) pL pR
    = boost4 w (k rhoL rhoR vxL vxR vyL vyR pL pR).

(** * Properties *)

(** ** Dispatch on an identifier that matches no case label *)

Lemma convectiveFlux_no_match :
  ~ In iFlux case_labels ->
  forall rhoL rhoR vxL vxR vyL vyR pL pR fluxLoc,
    convectiveFlux rhoL rhoR vxL vxR vyL vyR pL pR fluxLoc = fluxLoc.
Proof.
  intros Hno rhoL rhoR vxL vxR vyL vyR pL pR fluxLoc.
  unfold convectiveFlux.
  repeat match goal with
  | |- context [Z.eqb iFlux ?c] =>
      destruct (Z.eqb_spec iFlux c) as [Heq | _];
      [ exfalso; apply Hno; rewrite Heq; unfold case_labels; simpl; tauto | ]
  end.
  reflexivity.
Qed.

(** ** Stores *)

Lemma store_upd_same {A : Type} (h : addr -> A) (a : addr) (v : A) :
  store_upd h a v a = v.
Proof. unfold store_upd. now rewrite Nat.eqb_refl. Qed.

Lemma store_upd_other {A : Type} (h : addr -> A) (a b : addr) (v : A) :
  b <> a -> store_upd h a v b = h b.
Proof.
  intros Hne. unfold store_upd.
  destruct (Nat.eqb_spec b a); [contradiction | reflexivity].
Qed.

(** ** One iteration of the face loop *)

(** The loop assigns flux accumulators only: every other field of every
    record, the [connection] pointer in particular, is as before. *)
Lemma body_connection (es : elem_store) (h : side_store) (a x : addr) :
  Side.connection (fluxCalculation_body es h a x) = Side.connection (h x).
Proof.
  unfold fluxCalculation_body. cbv zeta.
  rewrite store_upd_same. simpl Side.connection at 2.
  unfold store_upd at 1.
  destruct (Nat.eqb_spec x (Side.connection (h a))) as [-> | Hc].
  - simpl. unfold store_upd.
    destruct (Nat.eqb_spec (Side.connection (h a)) a) as [-> | _]; reflexivity.
  - unfold store_upd.
    destruct (Nat.eqb_spec x a) as [-> | _]; reflexivity.
Qed.

Lemma body_frame (es : elem_store) (h : side_store) (a x : addr) :
  x <> a -> x <> Side.connection (h a) ->
  fluxCalculation_body es h a x = h x.
Proof.
  intros Ha Hc. unfold fluxCalculation_body. cbv zeta.
  rewrite store_upd_same. simpl Side.connection.
  rewrite store_upd_other by assumption.
  now rewrite store_upd_other by assumption.
Qed.

Lemma body_own_flux (es : elem_store) (h : side_store) (a : addr) :
  Side.connection (h a) <> a ->
  Side.flux (fluxCalculation_body es h a a) = side_flux es h a.
Proof.
  intros Hne. unfold fluxCalculation_body. cbv zeta.
  rewrite store_upd_same. simpl Side.connection.
  rewrite store_upd_other by (intro Heq; apply Hne; now symmetry).
  rewrite store_upd_same. reflexivity.
Qed.

Lemma body_connection_flux (es : elem_store) (h : side_store) (a : addr) :
  Side.flux (fluxCalculation_body es h a (Side.connection (h a)))
  = neg4 (side_flux es h a).
Proof.
  unfold fluxCalculation_body. cbv zeta.
  rewrite !store_upd_same. reflexivity.
Qed.

(** ** The whole loop *)

Lemma fluxCalculation_cons (es : elem_store) (a : addr) (side : list addr)
    (h : side_store) :
  fluxCalculation es (a :: side) h
  = fluxCalculation es side (fluxCalculation_body es h a).
Proof. reflexivity. Qed.

Lemma fluxCalculation_connection (es : elem_store) (side : list addr) :
  forall (h : side_store) (x : addr),
    Side.connection (fluxCalculation es side h x) = Side.connection (h x).
Proof.
  induction side as [| a side IH]; intros h x.
  - reflexivity.
  - rewrite fluxCalculation_cons, IH. apply body_connection.
Qed.

(** A record that is neither visited nor the connection of a visited side
    is not written. *)
Lemma fluxCalculation_frame (es : elem_store) (side : list addr) :
  forall (h : side_store) (x : addr),
    ~ In x side ->
    ~ In x (map (fun a => Side.connection (h a)) side) ->
    fluxCalculation es side h x = h x.
Proof.
  induction side as [| a side IH]; intros h x Hx Hc.
  - reflexivity.
  - rewrite fluxCalculation_cons.
    simpl in Hx, Hc.
    rewrite IH.
    + apply body_frame; intro Heq; [apply Hx | apply Hc]; left; now rewrite Heq.
    + tauto.
    + rewrite (map_ext _ (fun a0 => Side.connection (h a0)))
        by (intros; apply body_connection).
      tauto.
Qed.

(** * C1: conservation *)

(** C1.  In a mesh where no two iterations write the same accumulator (the
    visited sides and their connections are pairwise distinct records),
    after [fluxCalculation] the flux accumulator of the connection of every
    visited side holds the negation, component by component, of the flux
    accumulator of the side itself. *)
Theorem fluxCalculation_conservation (es : elem_store) (side : list addr) :
  forall (h : side_store),
    NoDup (side ++ map (fun a => Side.connection (h a)) side) ->
    forall a : addr, In a side ->
      let h' := fluxCalculation es side h in
      Side.flux (h' (Side.connection (h' a))) = neg4 (Side.flux (h' a)).
Proof.
  induction side as [| b side IH]; intros h Hnd a Hin; [destruct Hin |].
  cbv zeta. rewrite fluxCalculation_connection.
  rewrite fluxCalculation_cons.
  simpl in Hnd. apply NoDup_cons_iff in Hnd. destruct Hnd as [Hb Hnd].
  assert (Hmap : map (fun a0 => Side.connection (fluxCalculation_body es h b a0)) side
                 = map (fun a0 => Side.connection (h a0)) side)
    by (apply map_ext; intros; apply body_connection).
  destruct Hin as [<- | Hin].
  - (* the side visited first: the later iterations touch neither record *)
    assert (Hcb : Side.connection (h b) <> b).
    { intro Heq. apply Hb. apply in_or_app. right. left. exact Heq. }
    apply NoDup_remove in Hnd. destruct Hnd as [Hnd Hc].
    rewrite !fluxCalculation_frame.
    + rewrite body_connection_flux, body_own_flux by assumption. reflexivity.
    + intro Hx. apply Hb. apply in_or_app. now left.
    + rewrite Hmap. intro Hx. apply Hb. apply in_or_app. right. now right.
    + intro Hx. apply Hc. apply in_or_app. now left.
    + rewrite Hmap. intro Hx. apply Hc. apply in_or_app. now right.
  - rewrite <- (body_connection es h b a).
    pose proof (IH (fluxCalculation_body es h b)) as IH'.
    cbv zeta in IH'. rewrite <- (fluxCalculation_connection es side _ a).
    apply IH'; [| assumption].
    rewrite Hmap.
    apply NoDup_remove_1 in Hnd. exact Hnd.
Qed.

(** ** What one iteration leaves in every accumulator *)

Lemma body_flux_cases (es : elem_store) (h : side_store) (a x : addr) :
  Side.flux (fluxCalculation_body es h a x)
  = if Nat.eqb x (Side.connection (h a)) then neg4 (side_flux es h a)
    else if Nat.eqb x a then side_flux es h a
    else Side.flux (h x).
Proof.
  destruct (Nat.eqb_spec x (Side.connection (h a))) as [-> | Hc].
  - apply body_connection_flux.
  - destruct (Nat.eqb_spec x a) as [-> | Ha].
    + apply body_own_flux. intro Heq. apply Hc. now symmetry.
    + now rewrite body_frame.
Qed.

(** ** Conservation when the connection pointers pair the records *)

Lemma neg4_involutive (a : arr4) : neg4 (neg4 a) = a.
Proof.
  destruct a. unfold neg4. cbn [get4 at0 at1 at2 at3]. f_equal; ring.
Qed.

Lemma fluxCalculation_snoc (es : elem_store) (side : list addr) (b : addr)
    (h : side_store) :
  fluxCalculation es (side ++ [b]) h
  = fluxCalculation_body es (fluxCalculation es side h) b.
Proof. unfold fluxCalculation. now rewrite fold_left_app. Qed.

(** The mesh invariant of the data model: [connection] is an involution
    that pairs every side record with a different one.  Then the loop may
    visit one or both records of a face, in any order and any number of
    times: afterwards the accumulator of the connection of every visited
    side is the negation of the accumulator of the side. *)
Theorem fluxCalculation_conservation_paired (es : elem_store) (side : list addr)
    (h : side_store) :
  (forall x : addr, Side.connection (h (Side.connection (h x))) = x) ->
  (forall x : addr, Side.connection (h x) <> x) ->
  forall a : addr, In a side ->
    let h' := fluxCalculation es side h in
    Side.flux (h' (Side.connection (h' a))) = neg4 (Side.flux (h' a)).
Proof.
  intros Hinv Hfix.
  induction side as [| b side IH] using rev_ind; intros a Hin; [destruct Hin |].
  cbv zeta. rewrite fluxCalculation_connection, fluxCalculation_snoc.
  set (h1 := fluxCalculation es side h) in *.
  assert (Hc1 : forall x, Side.connection (h1 x) = Side.connection (h x))
    by (intros x; apply fluxCalculation_connection).
  rewrite !body_flux_cases, !Hc1.
  set (c := fun x => Side.connection (h x)) in *.
  change (Side.connection (h b)) with (c b).
  change (Side.connection (h a)) with (c a).
  destruct (Nat.eqb_spec (c a) (c b)) as [Hcc | Hcc].
  - (* same connection: the same side *)
    assert (a = b) by (rewrite <- (Hinv a), <- (Hinv b); fold (c a) (c b); now rewrite Hcc).
    subst a.
    destruct (Nat.eqb_spec b (c b)) as [Hbc | _];
      [exfalso; apply (Hfix b); now symmetry |].
    now rewrite Nat.eqb_refl.
  - destruct (Nat.eqb_spec (c a) b) as [Hcb | Hcb].
    + (* the side visited last is the connection of [a] *)
      assert (Hab : a = c b) by (rewrite <- Hcb; unfold c; now rewrite Hinv).
      rewrite <- Hab, Nat.eqb_refl. now rewrite neg4_involutive.
    + destruct (Nat.eqb_spec a (c b)) as [Hacb | Hacb].
      * exfalso. apply Hcb. rewrite Hacb. unfold c. apply Hinv.
      * destruct (Nat.eqb_spec a b) as [Hab | Hab].
        { exfalso. apply Hcc. now rewrite Hab. }
        { apply in_app_or in Hin. destruct Hin as [Hin | [Heq | []]];
            [| exfalso; now apply Hab].
          specialize (IH a Hin). cbv zeta in IH.
          rewrite Hc1 in IH. exact IH. }
Qed.

(** ** The loop on an identifier that matches no case label *)

Lemma side_fluxConv_no_match :
  ~ In iFlux case_labels ->
  forall (n : arr2) (pVarSide pVarConn : arr4),
    side_fluxConv n pVarSide pVarConn = zero4.
Proof.
  intros Hno n pVarSide pVarConn. unfold side_fluxConv. cbv zeta.
  now apply convectiveFlux_no_match.
Qed.

Lemma rotate_back_zero4 (n : arr2) : rotate_back n zero4 = zero4.
Proof. unfold rotate_back, zero4; simpl. f_equal; lra. Qed.

Lemma side_flux_no_match_euler :
  ~ In iFlux case_labels -> navierstokes = false ->
  forall es h a, side_flux es h a = zero4.
Proof.
  intros Hno Hns es h a. unfold side_flux. cbv zeta.
  rewrite Hns, side_fluxConv_no_match by assumption.
  now rewrite rotate_back_zero4, scale4_zero4.
Qed.


Lemma fluxCalculation_keeps_zero (es : elem_store) (side : list addr) :
  ~ In iFlux case_labels -> navierstokes = false ->
  forall (h : side_store) (x : addr),
    Side.flux (h x) = zero4 ->
    Side.flux (fluxCalculation es side h x) = zero4.
Proof.
  intros Hno Hns.
  induction side as [| b side IH]; intros h x Hx; [exact Hx |].
  rewrite fluxCalculation_cons. apply IH.
  rewrite body_flux_cases, side_flux_no_match_euler, neg4_zero4 by assumption.
  destruct (Nat.eqb x (Side.connection (h b))); [reflexivity |].
  destruct (Nat.eqb x b); [reflexivity | exact Hx].
Qed.

Lemma fluxCalculation_no_match_euler (es : elem_store) (side : list addr) :
  ~ In iFlux case_labels -> navierstokes = false ->
  forall (h : side_store) (a : addr),
    In a side ->
    Side.flux (fluxCalculation es side h a) = zero4 /\
    Side.flux (fluxCalculation es side h (Side.connection (h a))) = zero4.
Proof.
  intros Hno Hns.
  induction side as [| b side IH]; intros h a Hin; [destruct Hin |].
  rewrite !fluxCalculation_cons.
  destruct Hin as [<- | Hin].
  - split; apply fluxCalculation_keeps_zero; try assumption;
      rewrite body_flux_cases, side_flux_no_match_euler, neg4_zero4 by assumption.
    + destruct (Nat.eqb b (Side.connection (h b))); [reflexivity |].
      now rewrite Nat.eqb_refl.
    + now rewrite Nat.eqb_refl.
  - rewrite <- (body_connection es h b a). now apply IH.
Qed.

(** * C3: unknown scheme identifiers *)

(** C3 (amended).  For every scheme identifier that matches none of the case
    labels, [convectiveFlux] reports nothing: it returns normally, runs no
    kernel, and hands back the output array exactly as it was passed,
    whatever the two states are; inside the face loop the convective flux of
    every side is then the zero-initialised buffer. *)
Theorem convectiveFlux_unknown_id_silent :
  ~ In iFlux case_labels ->
  (forall rhoL rhoR vxL vxR vyL vyR pL pR fluxLoc,
     convectiveFlux rhoL rhoR vxL vxR vyL vyR pL pR fluxLoc = fluxLoc) /\
  (forall (h : side_store) (a : addr),
     side_fluxConv (Side.n (h a)) (Side.pVar (h a))
       (Side.pVar (h (Side.connection (h a)))) = zero4).
Proof.
  intros Hno. split.
  - now apply convectiveFlux_no_match.
  - intros h a. now apply side_fluxConv_no_match.
Qed.

(** * C10: the flux of a side under an unknown identifier *)


(** * C8: the diffusive flux has no density component *)

(** C8.  [diffusionFlux] never assigns entry [RHO] of its two output arrays;
    called as in [fluxCalculation], on zero-initialised arrays, both density
    components are zero for every state and gradients; and the density
    component of the flux of a side is the convective density flux scaled
    by the face length, in the viscous build as in the Euler build. *)
Theorem diffusionFlux_no_mass_flux :
  (forall state gradX gradY f g : arr4,
     (fst (diffusionFlux state gradX gradY f g)).[RHO] = f.[RHO] /\
     (snd (diffusionFlux state gradX gradY f g)).[RHO] = g.[RHO]) /\
  (forall state gradX gradY : arr4,
     (fst (diffusionFlux state gradX gradY zero4 zero4)).[RHO] = 0 /\
     (snd (diffusionFlux state gradX gradY zero4 zero4)).[RHO] = 0) /\
  (forall (es : elem_store) (h : side_store) (a : addr),
     (side_flux es h a).[RHO]
     = (side_fluxConv (Side.n (h a)) (Side.pVar (h a))
          (Side.pVar (h (Side.connection (h a))))).[RHO] * Side.len (h a)).
Proof.
  split; [| split].
  - intros. split; reflexivity.
  - intros. split; reflexivity.
  - intros es h a. unfold side_flux. cbv zeta.
    destruct navierstokes.
    + unfold side_fluxDiff. cbv zeta. unfold diffusionFlux. cbv zeta.
      unfold sub_diffusion, scale4, rotate_back, zero4, RHO. simpl. ring.
    + unfold scale4, rotate_back, RHO. simpl. reflexivity.
Qed.

(** * C9: the source evaluator keeps no state across calls *)

Lemma calcSource_elem_set_source (time : R) (e : Elem.t) (s0 : arr4) :
  calcSource_elem time (Elem.set_source e s0) = calcSource_elem time e.
Proof. destruct e. reflexivity. Qed.

Lemma calcSource_elem_idem (time : R) (e : Elem.t) :
  calcSource_elem time (calcSource_elem time e) = calcSource_elem time e.
Proof.
  unfold calcSource_elem at 2. cbv zeta.
  now rewrite !calcSource_elem_set_source.
Qed.

Lemma calcSource_cons (time : R) (b : addr) (elem : list addr) (es : elem_store) :
  calcSource time (b :: elem) es
  = calcSource time elem (store_upd es b (calcSource_elem time (es b))).
Proof. reflexivity. Qed.

(** What the loop leaves at an address: the quadrature result when the
    element is visited, the record as it was otherwise. *)
Lemma calcSource_at (time : R) (elem : list addr) :
  forall (es : elem_store) (a : addr),
    calcSource time elem es a
    = if in_dec Nat.eq_dec a elem then calcSource_elem time (es a) else es a.
Proof.
  induction elem as [| b elem IH]; intros es a.
  - reflexivity.
  - rewrite calcSource_cons, IH.
    destruct (Nat.eq_dec a b) as [-> | Hne].
    + rewrite store_upd_same.
      destruct (in_dec Nat.eq_dec b elem) as [Hin | Hnin];
        destruct (in_dec Nat.eq_dec b (b :: elem)) as [_ | Hn'].
      * apply calcSource_elem_idem.
      * exfalso. apply Hn'. now left.
      * reflexivity.
      * exfalso. apply Hn'. now left.
    + rewrite store_upd_other by assumption.
      destruct (in_dec Nat.eq_dec a elem) as [Hin | Hnin];
        destruct (in_dec Nat.eq_dec a (b :: elem)) as [Hin' | Hnin'].
      * reflexivity.
      * exfalso. apply Hnin'. now right.
      * exfalso. destruct Hin' as [Heq | Hin']; [now apply Hne | now apply Hnin].
      * reflexivity.
Qed.

(** C9.  [calcSource] is idempotent: run a second time at the same time on
    the store the first run produced, it leaves every record as the first
    run left it.  It keeps no state: the record it computes for an element
    does not depend on what the element's source accumulator held before
    the call, because the accumulator is zeroed first. *)
Theorem calcSource_idempotent :
  (forall (time : R) (elem : list addr) (es : elem_store) (a : addr),
     calcSource time elem (calcSource time elem es) a
     = calcSource time elem es a) /\
  (forall (time : R) (e : Elem.t) (s0 : arr4),
     calcSource_elem time (Elem.set_source e s0) = calcSource_elem time e) /\
  (forall (time : R) (elem : list addr) (es : elem_store) (s0 : addr -> arr4)
          (a : addr),
     Elem.source (calcSource time elem (fun b => Elem.set_source (es b) (s0 b)) a)
     = if in_dec Nat.eq_dec a elem
       then Elem.source (calcSource time elem es a)
       else s0 a).
Proof.
  split; [| split].
  - intros time elem es a. rewrite !calcSource_at.
    destruct (in_dec Nat.eq_dec a elem); [apply calcSource_elem_idem | reflexivity].
  - apply calcSource_elem_set_source.
  - intros time elem es s0 a. rewrite !calcSource_at.
    destruct (in_dec Nat.eq_dec a elem).
    + now rewrite calcSource_elem_set_source.
    + destruct (es a); reflexivity.
Qed.

(** * C7: the Godunov kernel *)

(** C7.  With gamma different from 1, and (rho, vx, p) the star state the
    exact Riemann solver returns for the two states, their sound speeds and
    the sampling speed 0, [flux_god] returns the physical flux of the
    primitive state (rho, vx, vy, p), where vy is the left tangential
    velocity if vx > 0 and the right one otherwise. *)
Theorem flux_god_resolved_state :
  gam <> 1 ->
  forall rhoL rhoR vxL vxR vyL vyR pL pR rho vx p : R,
    exactRiemann rhoL rhoR vxL vxR pL pR
      (sqrt (gam * pL / rhoL)) (sqrt (gam * pR / rhoR)) 0 = (rho, vx, p) ->
    exists vy : R,
      ((0 < vx /\ vy = vyL) \/ (vx <= 0 /\ vy = vyR)) /\
      flux_god rhoL rhoR vxL vxR vyL vyR pL pR = physical_flux rho vx vy p.
Proof.
  intros Hgam rhoL rhoR vxL vxR vyL vyR pL pR rho vx p Hsol.
  unfold flux_god. cbv zeta. rewrite Hsol.
  assert (Hg : gam - 1 <> 0) by lra.
  destruct (Rltb_spec 0 vx) as [[Hv ->] | [Hv ->]].
  - exists vyL. split; [left; split; [assumption | reflexivity] |].
    unfold physical_flux, total_energy, gam1. cbv zeta.
    apply arr4_ext; simpl; try reflexivity. decimals. field. exact Hg.
  - exists vyR. split; [right; split; [assumption | reflexivity] |].
    unfold physical_flux, total_energy, gam1. cbv zeta.
    apply arr4_ext; simpl; try reflexivity. decimals. field. exact Hg.
Qed.

(** * C6: the HLL kernel *)

Lemma code_energy (rho v vt p : R) :
  gam1q * p + 0.5 * rho * (v * v + vt * vt) = total_energy rho v vt p.
Proof. unfold gam1q, gam1, total_energy. decimals. unfold Rdiv. ring. Qed.

Lemma code_sound_speed (rho p : R) :
  sqrt (gam * p * (1 / rho)) = sound_speed rho p.
Proof. unfold sound_speed. f_equal. unfold Rdiv. ring. Qed.

Lemma code_physical_flux (rho v vt p : R) :
  mk4 (rho * v) (rho * v * v + p) (rho * v * vt)
      (v * (gam1q * p + 0.5 * rho * (v * v + vt * vt) + p))
  = physical_flux rho v vt p.
Proof. unfold physical_flux. cbv zeta. now rewrite code_energy. Qed.

(** The kernel, with its intermediate values named as in the
    specification. *)
Lemma flux_hll_select (rhoL rhoR vxL vxR vyL vyR pL pR : R) :
  flux_hll rhoL rhoR vxL vxR vyL vyR pL pR
  = let SL := hll_left_speed rhoL rhoR vxL vxR vyL vyR pL pR in
    let SR := hll_right_speed rhoL rhoR vxL vxR vyL vyR pL pR in
    hll_select SL SR (1 / (SR - SL))
      (conserved rhoL vxL vyL pL) (conserved rhoR vxR vyR pR)
      (physical_flux rhoL vxL vyL pL) (physical_flux rhoR vxR vyR pR).
Proof.
  unfold flux_hll. cbv zeta.
  cbn [get4 at0 at1 at2 at3 MX].
  rewrite !code_physical_flux, !code_energy, !code_sound_speed.
  assert (Hu : (sqrt rhoR * vxR + sqrt rhoL * vxL) * (1 / (sqrt rhoL + sqrt rhoR))
               = roe_mean rhoL rhoR vxL vxR)
    by (unfold roe_mean, Rdiv; ring).
  assert (Hc : sqrt (gam1 *
                 ((sqrt rhoR * ((total_energy rhoR vxR vyR pR + pR) * (1 / rhoR))
                   + sqrt rhoL * ((total_energy rhoL vxL vyL pL + pL) * (1 / rhoL)))
                  * (1 / (sqrt rhoL + sqrt rhoR))
                  - 0.5 * ((sqrt rhoR * vxR + sqrt rhoL * vxL) * (1 / (sqrt rhoL + sqrt rhoR))
                           * ((sqrt rhoR * vxR + sqrt rhoL * vxL) * (1 / (sqrt rhoL + sqrt rhoR)))
                           + (sqrt rhoR * vyR + sqrt rhoL * vyL) * (1 / (sqrt rhoL + sqrt rhoR))
                             * ((sqrt rhoR * vyR + sqrt rhoL * vyL) * (1 / (sqrt rhoL + sqrt rhoR))))))
               = roe_sound_speed rhoL rhoR vxL vxR vyL vyR pL pR).
  { unfold roe_sound_speed, roe_mean, enthalpy, gam1. cbv zeta. f_equal.
    decimals. unfold Rdiv. ring. }
  rewrite Hc, Hu. reflexivity.
Qed.

(** The two signal speeds are ordered, whatever the input. *)
Lemma hll_speeds_ordered (rhoL rhoR vxL vxR vyL vyR pL pR : R) :
  hll_left_speed rhoL rhoR vxL vxR vyL vyR pL pR
  <= hll_right_speed rhoL rhoR vxL vxR vyL vyR pL pR.
Proof.
  unfold hll_left_speed, hll_right_speed.
  set (uM := roe_mean rhoL rhoR vxL vxR).
  set (cM := roe_sound_speed rhoL rhoR vxL vxR vyL vyR pL pR).
  assert (0 <= cM) by (unfold cM, roe_sound_speed; cbv zeta; apply sqrt_pos).
  pose proof (Rmin_r (vxL - sound_speed rhoL pL) (uM - cM)).
  pose proof (Rmax_r (vxR + sound_speed rhoR pR) (uM + cM)).
  lra.
Qed.

(** C6.  With SL the minimum of the left physical eigenvalue and the
    Roe-averaged one, and SR the maximum of the right physical eigenvalue
    and the Roe-averaged one: [flux_hll] returns the left physical flux
    when SL > 0, the right physical flux when SR < 0, and the two-wave HLL
    average of the two fluxes weighted by SL and SR when SL <= 0 <= SR. *)
Theorem flux_hll_cases (rhoL rhoR vxL vxR vyL vyR pL pR : R) :
  let SL := hll_left_speed rhoL rhoR vxL vxR vyL vyR pL pR in
  let SR := hll_right_speed rhoL rhoR vxL vxR vyL vyR pL pR in
  let FL := physical_flux rhoL vxL vyL pL in
  let FR := physical_flux rhoR vxR vyR pR in
  (0 < SL -> flux_hll rhoL rhoR vxL vxR vyL vyR pL pR = FL) /\
  (SR < 0 -> flux_hll rhoL rhoR vxL vxR vyL vyR pL pR = FR) /\
  (SL <= 0 -> 0 <= SR ->
   flux_hll rhoL rhoR vxL vxR vyL vyR pL pR
   = hll_average SL SR (conserved rhoL vxL vyL pL) (conserved rhoR vxR vyR pR)
       FL FR).
Proof.
  intros SL SR FL FR.
  pose proof (hll_speeds_ordered rhoL rhoR vxL vxR vyL vyR pL pR) as Hord.
  fold SL SR in Hord.
  rewrite flux_hll_select. cbv zeta. fold SL SR FL FR.
  unfold hll_select.
  split; [| split].
  - intros H. rewrite (Rltb_lt 0 SL) by assumption. apply arr4_eta.
  - intros H. rewrite (Rltb_ge 0 SL) by lra.
    rewrite (Rltb_lt SR 0) by assumption. apply arr4_eta.
  - intros HL HR. rewrite (Rltb_ge 0 SL) by lra.
    rewrite (Rltb_ge SR 0) by lra.
    unfold hll_average. cbv zeta.
    apply arr4_ext; cbn [get4 at0 at1 at2 at3]; unfold Rdiv; ring.
Qed.

(** * C5: rotation into the face frame and back *)

Lemma rotate_identity (pVar : arr4) : rotate (mk2 1 0) pVar = pVar.
Proof.
  destruct pVar. unfold rotate, RHO, VX, VY, P, X, Y. simpl.
  f_equal; ring.
Qed.

Lemma rotate_back_identity (f : arr4) : rotate_back (mk2 1 0) f = f.
Proof.
  destruct f. unfold rotate_back, RHO, MX, MY, E, X, Y. simpl.
  f_equal; ring.
Qed.

(** C5.  For a unit normal n: the rotation leaves density and pressure as
    they are; rotating back undoes the rotation of the two velocity
    components; the flux the kernel returns for the two states rotated by
    the integrator into the frame of n is the flux it returns under the
    identity normal (1, 0) for the states rotated beforehand; and so is the
    flux in the global frame, after both are rotated back by n. *)
Theorem rotation_round_trip (n : arr2) :
  n.<X> * n.<X> + n.<Y> * n.<Y> = 1 ->
  forall pVarSide pVarConn : arr4,
    (rotate n pVarSide).[RHO] = pVarSide.[RHO] /\
    (rotate n pVarSide).[P] = pVarSide.[P] /\
    (rotate_back n (rotate n pVarSide)).[MX] = pVarSide.[VX] /\
    (rotate_back n (rotate n pVarSide)).[MY] = pVarSide.[VY] /\
    side_fluxConv n pVarSide pVarConn
    = side_fluxConv (mk2 1 0) (rotate n pVarSide) (rotate n pVarConn) /\
    rotate_back n (side_fluxConv n pVarSide pVarConn)
    = rotate_back n
        (rotate_back (mk2 1 0)
           (side_fluxConv (mk2 1 0) (rotate n pVarSide) (rotate n pVarConn))).
Proof.
  intros Hn pVarSide pVarConn.
  assert (Hk : side_fluxConv n pVarSide pVarConn
               = side_fluxConv (mk2 1 0) (rotate n pVarSide) (rotate n pVarConn)).
  { unfold side_fluxConv. cbv zeta. now rewrite !rotate_identity. }
  repeat split; [| | exact Hk |].
  - unfold rotate, rotate_back, RHO, MX, MY, VX, VY, P, X, Y.
    cbn [get4 get2 at0 at1 at2 at3 d0 d1].
    transitivity ((n.<0> * n.<0> + n.<1> * n.<1>) * pVarSide.[1]);
      [cbn [get4 get2]; ring | unfold X, Y in Hn; rewrite Hn; cbn [get4]; ring].
  - unfold rotate, rotate_back, RHO, MX, MY, VX, VY, P, X, Y.
    cbn [get4 get2 at0 at1 at2 at3 d0 d1].
    transitivity ((n.<0> * n.<0> + n.<1> * n.<1>) * pVarSide.[2]);
      [cbn [get4 get2]; ring | unfold X, Y in Hn; rewrite Hn; cbn [get4]; ring].
  - rewrite rotate_back_identity. now rewrite <- Hk.
Qed.

(** * C4: reflection of the Riemann problem *)

Lemma Rmax_opp_0 (x : R) : Rmax (- x) 0 = - Rmin x 0.
Proof. rewrite Ropp_Rmin, Ropp_0. reflexivity. Qed.

Lemma Rmin_opp_0 (x : R) : Rmin (- x) 0 = - Rmax x 0.
Proof. rewrite Ropp_Rmax, Ropp_0. reflexivity. Qed.

Lemma flux_cen_reflection : reflection_symmetric flux_cen.
Proof.
  intros rhoL rhoR vxL vxR vyL vyR pL pR _ _ _ _.
  unfold mirrored, reflect4, flux_cen. cbv zeta.
  apply arr4_ext; cbn [get4 at0 at1 at2 at3]; ring.
Qed.

Lemma flux_lxf_reflection : reflection_symmetric flux_lxf.
Proof.
  intros rhoL rhoR vxL vxR vyL vyR pL pR _ _ _ _.
  unfold mirrored, reflect4, flux_lxf, fmax, fabs. cbv zeta.
  rewrite !Rabs_Ropp.
  rewrite (Rmax_comm (Rabs vxL + sqrt (gam * pL / rhoL))).
  apply arr4_ext; cbn [get4 at0 at1 at2 at3]; ring.
Qed.

Lemma flux_stw_reflection : reflection_symmetric flux_stw.
Proof.
  intros rhoL rhoR vxL vxR vyL vyR pL pR _ _ _ _.
  unfold mirrored, reflect4, flux_stw, fmax, fmin. cbv zeta.
  cbn [get4 at0 at1 at2 at3].
  set (cL := sqrt (gam * pL / rhoL)). set (cR := sqrt (gam * pR / rhoR)).
  replace (- vxR - cR) with (- (vxR + cR)) by ring.
  replace (- vxR + cR) with (- (vxR - cR)) by ring.
  replace (- vxL - cL) with (- (vxL + cL)) by ring.
  replace (- vxL + cL) with (- (vxL - cL)) by ring.
  rewrite !Rmax_opp_0, !Rmin_opp_0.
  apply arr4_ext; cbn [get4 at0 at1 at2 at3]; ring.
Qed.

Lemma flux_vanleer_reflection : reflection_symmetric flux_vanleer.
Proof.
  intros rhoL rhoR vxL vxR vyL vyR pL pR _ _ _ _.
  unfold mirrored, reflect4, flux_vanleer. cbv zeta.
  set (cL := sqrt (gam * pL / rhoL)). set (cR := sqrt (gam * pR / rhoR)).
  replace (- vxR / cR) with (- (vxR / cR)) by (unfold Rdiv; ring).
  replace (- vxL / cL) with (- (vxL / cL)) by (unfold Rdiv; ring).
  set (ML := vxL / cL). set (MR := vxR / cR).
  destruct (Rltb_spec 1 ML) as [[H1 E1] | [H1 E1]];
  destruct (Rltb_spec ML 1) as [[H2 E2] | [H2 E2]];
  destruct (Rltb_spec (-1) ML) as [[H3 E3] | [H3 E3]];
  destruct (Rltb_spec MR (-1)) as [[H4 E4] | [H4 E4]];
  destruct (Rltb_spec MR 1) as [[H5 E5] | [H5 E5]];
  destruct (Rltb_spec (-1) MR) as [[H6 E6] | [H6 E6]];
  try (exfalso; lra);
  rewrite ?E1, ?E2, ?E3, ?E4, ?E5, ?E6; decide_cmp;
  cbn [andb get4 at0 at1 at2 at3];
  apply arr4_ext; cbn [get4 at0 at1 at2 at3]; unfold ML, MR; decimals;
  unfold Rdiv; ring.
Qed.

(** Rewrites the absolute value of an expression into that of its
    opposite, when both stand in the goal. *)
Ltac pair_abs :=
  match goal with
  | |- context [Rabs ?a] =>
      match goal with
      | |- context [Rabs ?b] =>
          assert_fails (constr_eq a b);
          replace a with (- b) by (decimals; unfold Rdiv; ring);
          rewrite (Rabs_Ropp b)
      end
  end.

Lemma flux_ausmd_reflection : reflection_symmetric flux_ausmd.
Proof.
  intros rhoL rhoR vxL vxR vyL vyR pL pR _ _ _ _.
  unfold mirrored, reflect4, flux_ausmd, fmax, fabs. cbv zeta.
  rewrite !Rabs_Ropp.
  rewrite (Rmax_comm (sqrt (gam * pR / rhoR))).
  rewrite (Rplus_comm (pR / rhoR) (pL / rhoL)).
  set (cm := Rmax (sqrt (gam * pL / rhoL)) (sqrt (gam * pR / rhoR))).
  set (alphaL := 2 * pL / rhoL / (pL / rhoL + pR / rhoR)).
  set (alphaR := 2 * pR / rhoR / (pL / rhoL + pR / rhoR)).
  replace (/ - vxR) with (- / vxR) by (symmetry; apply Rinv_opp).
  replace (/ - vxL) with (- / vxL) by (symmetry; apply Rinv_opp).
  destruct (Rltb (Rabs vxL) cm); destruct (Rltb (Rabs vxR) cm);
    cbn [get4 at0 at1 at2 at3];
    pair_abs;
    apply arr4_ext; cbn [get4 at0 at1 at2 at3]; decimals; unfold Rdiv;
    rewrite ?Rinv_opp; ring.
Qed.

(** Reflection of the reference quantities. *)
Lemma total_energy_opp (rho v vt p : R) :
  total_energy rho (- v) (- vt) p = total_energy rho v vt p.
Proof. unfold total_energy, Rdiv. ring. Qed.

Lemma enthalpy_opp (rho v vt p : R) :
  enthalpy rho (- v) (- vt) p = enthalpy rho v vt p.
Proof. unfold enthalpy. now rewrite total_energy_opp. Qed.

Lemma physical_flux_opp (rho v vt p : R) :
  physical_flux rho (- v) (- vt) p = reflect4 (physical_flux rho v vt p).
Proof.
  unfold physical_flux, reflect4. cbv zeta. rewrite total_energy_opp.
  apply arr4_ext; cbn [get4 at0 at1 at2 at3]; ring.
Qed.

Lemma roe_mean_swap (rhoL rhoR qL qR : R) :
  roe_mean rhoR rhoL qR qL = roe_mean rhoL rhoR qL qR.
Proof.
  unfold roe_mean. rewrite (Rplus_comm (sqrt rhoR) (sqrt rhoL)).
  unfold Rdiv. ring.
Qed.

Lemma roe_mean_opp (rhoL rhoR qL qR : R) :
  roe_mean rhoL rhoR (- qL) (- qR) = - roe_mean rhoL rhoR qL qR.
Proof. unfold roe_mean, Rdiv. ring. Qed.

Lemma roe_sound_speed_mirrored (rhoL rhoR vxL vxR vyL vyR pL pR : R) :
  roe_sound_speed rhoR rhoL (- vxR) (- vxL) (- vyR) (- vyL) pR pL
  = roe_sound_speed rhoL rhoR vxL vxR vyL vyR pL pR.
Proof.
  unfold roe_sound_speed. cbv zeta.
  rewrite !enthalpy_opp, !(roe_mean_swap rhoL rhoR), !roe_mean_opp.
  f_equal. unfold Rdiv. ring.
Qed.

Lemma hll_left_speed_mirrored (rhoL rhoR vxL vxR vyL vyR pL pR : R) :
  hll_left_speed rhoR rhoL (- vxR) (- vxL) (- vyR) (- vyL) pR pL
  = - hll_right_speed rhoL rhoR vxL vxR vyL vyR pL pR.
Proof.
  unfold hll_left_speed, hll_right_speed.
  rewrite roe_sound_speed_mirrored, (roe_mean_swap rhoL rhoR), roe_mean_opp.
  rewrite Ropp_Rmax. f_equal; ring.
Qed.

Lemma hll_right_speed_mirrored (rhoL rhoR vxL vxR vyL vyR pL pR : R) :
  hll_right_speed rhoR rhoL (- vxR) (- vxL) (- vyR) (- vyL) pR pL
  = - hll_left_speed rhoL rhoR vxL vxR vyL vyR pL pR.
Proof.
  unfold hll_left_speed, hll_right_speed.
  rewrite roe_sound_speed_mirrored, (roe_mean_swap rhoL rhoR), roe_mean_opp.
  rewrite Ropp_Rmin. f_equal; ring.
Qed.

(** The selection between the two fluxes and their average commutes with
    the reflection when the two speeds are ordered. *)
Lemma hll_select_reflection (SL SR : R) (rhoL rhoR vxL vxR vyL vyR pL pR : R) :
  SL <= SR ->
  hll_select (- SR) (- SL) (1 / (- SL - - SR))
    (conserved rhoR (- vxR) (- vyR) pR) (conserved rhoL (- vxL) (- vyL) pL)
    (physical_flux rhoR (- vxR) (- vyR) pR) (physical_flux rhoL (- vxL) (- vyL) pL)
  = reflect4
      (hll_select SL SR (1 / (SR - SL))
         (conserved rhoL vxL vyL pL) (conserved rhoR vxR vyR pR)
         (physical_flux rhoL vxL vyL pL) (physical_flux rhoR vxR vyR pR)).
Proof.
  intros Hord.
  rewrite !physical_flux_opp.
  replace (- SL - - SR) with (SR - SL) by ring.
  unfold hll_select, conserved. rewrite !total_energy_opp.
  destruct (Rltb_spec 0 SL) as [[H1 E1] | [H1 E1]];
  destruct (Rltb_spec SR 0) as [[H2 E2] | [H2 E2]];
  try (exfalso; lra);
  rewrite ?E1, ?E2; decide_cmp;
  unfold reflect4; apply arr4_ext; cbn [get4 at0 at1 at2 at3]; ring.
Qed.

Lemma flux_hll_reflection : reflection_symmetric flux_hll.
Proof.
  intros rhoL rhoR vxL vxR vyL vyR pL pR _ _ _ _.
  unfold mirrored. rewrite !flux_hll_select. cbv zeta.
  rewrite hll_left_speed_mirrored, hll_right_speed_mirrored.
  apply hll_select_reflection, hll_speeds_ordered.
Qed.

Lemma flux_hlle_select (rhoL rhoR vxL vxR vyL vyR pL pR : R) :
  flux_hlle rhoL rhoR vxL vxR vyL vyR pL pR
  = let SL := hlle_left_speed rhoL rhoR vxL vxR pL pR in
    let SR := hlle_right_speed rhoL rhoR vxL vxR pL pR in
    hll_select SL SR (1 / (SR - SL))
      (conserved rhoL vxL vyL pL) (conserved rhoR vxR vyR pR)
      (physical_flux rhoL vxL vyL pL) (physical_flux rhoR vxR vyR pR).
Proof.
  unfold flux_hlle. cbv zeta.
  cbn [get4 at0 at1 at2 at3 MX].
  rewrite !code_physical_flux, !code_energy, !code_sound_speed.
  assert (Hu : (sqrt rhoR * vxR + sqrt rhoL * vxL) * (1 / (sqrt rhoL + sqrt rhoR))
               = roe_mean rhoL rhoR vxL vxR)
    by (unfold roe_mean, Rdiv; ring).
  rewrite Hu. reflexivity.
Qed.

Lemma hlle_speeds_ordered (rhoL rhoR vxL vxR pL pR : R) :
  hlle_left_speed rhoL rhoR vxL vxR pL pR
  <= hlle_right_speed rhoL rhoR vxL vxR pL pR.
Proof.
  unfold hlle_left_speed, hlle_right_speed.
  set (uM := roe_mean rhoL rhoR vxL vxR).
  set (d := hlle_d rhoL rhoR vxL vxR pL pR).
  assert (0 <= d) by (unfold d, hlle_d; cbv zeta; apply sqrt_pos).
  pose proof (Rmin_r (vxL - sound_speed rhoL pL) (uM - d)).
  pose proof (Rmax_r (vxR + sound_speed rhoR pR) (uM + d)).
  lra.
Qed.

Lemma hlle_d_mirrored (rhoL rhoR vxL vxR pL pR : R) :
  hlle_d rhoR rhoL (- vxR) (- vxL) pR pL = hlle_d rhoL rhoR vxL vxR pL pR.
Proof.
  unfold hlle_d. cbv zeta.
  rewrite (Rplus_comm (sqrt rhoL) (sqrt rhoR)).
  f_equal. unfold Rdiv. ring.
Qed.

Lemma flux_hlle_reflection : reflection_symmetric flux_hlle.
Proof.
  intros rhoL rhoR vxL vxR vyL vyR pL pR _ _ _ _.
  unfold mirrored. rewrite !flux_hlle_select. cbv zeta.
  replace (hlle_left_speed rhoR rhoL (- vxR) (- vxL) pR pL)
    with (- hlle_right_speed rhoL rhoR vxL vxR pL pR).
  2: { unfold hlle_left_speed, hlle_right_speed.
       rewrite hlle_d_mirrored, (roe_mean_swap rhoL rhoR), roe_mean_opp.
       rewrite Ropp_Rmax. f_equal; ring. }
  replace (hlle_right_speed rhoR rhoL (- vxR) (- vxL) pR pL)
    with (- hlle_left_speed rhoL rhoR vxL vxR pL pR).
  2: { unfold hlle_left_speed, hlle_right_speed.
       rewrite hlle_d_mirrored, (roe_mean_swap rhoL rhoR), roe_mean_opp.
       rewrite Ropp_Rmin. f_equal; ring. }
  apply hll_select_reflection, hlle_speeds_ordered.
Qed.

Lemma code_roe_mean (rhoL rhoR qL qR : R) :
  (sqrt rhoR * qR + sqrt rhoL * qL) * (1 / (sqrt rhoL + sqrt rhoR))
  = roe_mean rhoL rhoR qL qR.
Proof. unfold roe_mean, Rdiv. ring. Qed.

Lemma code_roe_sound_speed (rhoL rhoR vxL vxR vyL vyR pL pR : R) :
  sqrt (gam1 * (roe_mean rhoL rhoR (enthalpy rhoL vxL vyL pL) (enthalpy rhoR vxR vyR pR)
                - 0.5 * (roe_mean rhoL rhoR vxL vxR * roe_mean rhoL rhoR vxL vxR
                         + roe_mean rhoL rhoR vyL vyR * roe_mean rhoL rhoR vyL vyR)))
  = roe_sound_speed rhoL rhoR vxL vxR vyL vyR pL pR.
Proof.
  unfold roe_sound_speed, gam1. cbv zeta. f_equal. decimals. unfold Rdiv. ring.
Qed.

Lemma flux_roe_core (rhoL rhoR vxL vxR vyL vyR pL pR : R) :
  flux_roe rhoL rhoR vxL vxR vyL vyR pL pR
  = let uM := roe_mean rhoL rhoR vxL vxR in
    let cM := roe_sound_speed rhoL rhoR vxL vxR vyL vyR pL pR in
    let cL := sound_speed rhoL pL in
    let cR := sound_speed rhoR pR in
    roe_core uM (roe_mean rhoL rhoR vyL vyR)
      (roe_mean rhoL rhoR (enthalpy rhoL vxL vyL pL) (enthalpy rhoR vxR vyR pR))
      cM
      (rhoR - rhoL) (rhoR * vxR - rhoL * vxL) (rhoR * vyR - rhoL * vyL)
      (total_energy rhoR vxR vyR pR - total_energy rhoL vxL vyL pL)
      (physical_flux rhoL vxL vyL pL) (physical_flux rhoR vxR vyR pR)
      (roe_fix (uM - cM) (vxL - cL) (vxR - cR))
      (roe_fix uM vxL vxR) (roe_fix uM vxL vxR)
      (roe_fix (uM + cM) (vxL + cL) (vxR + cR)).
Proof.
  unfold flux_roe. cbv zeta.
  rewrite !code_physical_flux, !code_energy.
  change ((total_energy rhoR vxR vyR pR + pR) / rhoR) with (enthalpy rhoR vxR vyR pR).
  change ((total_energy rhoL vxL vyL pL + pL) / rhoL) with (enthalpy rhoL vxL vyL pL).
  rewrite !code_roe_mean, code_roe_sound_speed.
  reflexivity.
Qed.

Lemma roe_fix_opp (a al ar : R) : roe_fix (- a) (- ar) (- al) = roe_fix a al ar.
Proof.
  unfold roe_fix, fmax, fabs. cbv zeta.
  rewrite Rabs_Ropp.
  replace (Rmax (Rmax 0 (- a - - ar)) (- al - - a))
    with (Rmax (Rmax 0 (a - al)) (ar - a)).
  2: { replace (- a - - ar) with (ar - a) by ring.
       replace (- al - - a) with (a - al) by ring.
       rewrite <- !Rmax_assoc. f_equal. apply Rmax_comm. }
  destruct (Rltb (Rabs a) (Rmax (Rmax 0 (a - al)) (ar - a))); [| reflexivity].
  unfold Rdiv. ring.
Qed.

Lemma roe_core_reflection
    (u v H c dRho dMx dMy dE : R) (FL FR : arr4) (e0 e1 e3 : R) :
  c <> 0 ->
  roe_core (- u) (- v) H c (- dRho) dMx dMy (- dE)
    (reflect4 FR) (reflect4 FL) e3 e1 e1 e0
  = reflect4 (roe_core u v H c dRho dMx dMy dE FL FR e0 e1 e1 e3).
Proof.
  intros Hc. unfold roe_core, reflect4. cbv zeta.
  apply arr4_ext; cbn [get4 at0 at1 at2 at3]; decimals; field; exact Hc.
Qed.

(** The Roe-averaged sound speed of two admissible states is positive. *)
Lemma roe_sound_speed_pos (rhoL rhoR vxL vxR vyL vyR pL pR : R) :
  1 < gam -> 0 < rhoL -> 0 < rhoR -> 0 < pL -> 0 < pR ->
  0 < roe_sound_speed rhoL rhoR vxL vxR vyL vyR pL pR.
Proof.
  intros Hg HrL HrR HpL HpR.
  unfold roe_sound_speed. cbv zeta. apply sqrt_lt_R0.
  apply Rmult_lt_0_compat; [lra |].
  pose proof (sqrt_lt_R0 rhoL HrL) as HsL.
  pose proof (sqrt_lt_R0 rhoR HrR) as HsR.
  unfold roe_mean, enthalpy, total_energy.
  set (sL := sqrt rhoL) in *. set (sR := sqrt rhoR) in *.
  replace ((sL * ((pL / (gam - 1) + rhoL * (vxL * vxL + vyL * vyL) / 2 + pL) / rhoL)
            + sR * ((pR / (gam - 1) + rhoR * (vxR * vxR + vyR * vyR) / 2 + pR) / rhoR))
           / (sL + sR)
           - ((sL * vxL + sR * vxR) / (sL + sR) * ((sL * vxL + sR * vxR) / (sL + sR))
              + (sL * vyL + sR * vyR) / (sL + sR) * ((sL * vyL + sR * vyR) / (sL + sR))) / 2)
    with ((sL * (gam * pL / ((gam - 1) * rhoL)) + sR * (gam * pR / ((gam - 1) * rhoR)))
          / (sL + sR)
          + sL * sR * ((vxR - vxL) * (vxR - vxL) + (vyR - vyL) * (vyR - vyL))
            / (2 * ((sL + sR) * (sL + sR))))
    by (field; repeat split; lra).
  apply Rplus_lt_le_0_compat.
  - apply Rdiv_lt_0_compat; [| lra].
    assert (0 < gam * pL / ((gam - 1) * rhoL)).
    { apply Rdiv_lt_0_compat; [nra | nra]. }
    assert (0 < gam * pR / ((gam - 1) * rhoR)).
    { apply Rdiv_lt_0_compat; [nra | nra]. }
    nra.
  - apply Rmult_le_pos.
    + apply Rmult_le_pos; [nra |].
      apply Rplus_le_le_0_compat;
        [apply (Rle_0_sqr (vxR - vxL)) | apply (Rle_0_sqr (vyR - vyL))].
    + left. apply Rinv_0_lt_compat. nra.
Qed.

Lemma flux_roe_reflection : 1 < gam -> reflection_symmetric flux_roe.
Proof.
  intros Hg rhoL rhoR vxL vxR vyL vyR pL pR HrL HrR HpL HpR.
  unfold mirrored. rewrite !flux_roe_core. cbv zeta.
  rewrite roe_sound_speed_mirrored, !enthalpy_opp, !total_energy_opp,
    !physical_flux_opp, !(roe_mean_swap rhoL rhoR), !roe_mean_opp.
  set (uM := roe_mean rhoL rhoR vxL vxR).
  set (cM := roe_sound_speed rhoL rhoR vxL vxR vyL vyR pL pR).
  set (cL := sound_speed rhoL pL). set (cR := sound_speed rhoR pR).
  replace (- uM - cM) with (- (uM + cM)) by ring.
  replace (- uM + cM) with (- (uM - cM)) by ring.
  replace (- vxR - cR) with (- (vxR + cR)) by ring.
  replace (- vxL - cL) with (- (vxL + cL)) by ring.
  replace (- vxR + cR) with (- (vxR - cR)) by ring.
  replace (- vxL + cL) with (- (vxL - cL)) by ring.
  rewrite !roe_fix_opp.
  replace (rhoL - rhoR) with (- (rhoR - rhoL)) by ring.
  replace (rhoL * - vxL - rhoR * - vxR) with (rhoR * vxR - rhoL * vxL) by ring.
  replace (rhoL * - vyL - rhoR * - vyR) with (rhoR * vyR - rhoL * vyL) by ring.
  replace (total_energy rhoL vxL vyL pL - total_energy rhoR vxR vyR pR)
    with (- (total_energy rhoR vxR vyR pR - total_energy rhoL vxL vyL pL)) by ring.
  apply roe_core_reflection.
  apply Rgt_not_eq. unfold cM. now apply roe_sound_speed_pos.
Qed.

Lemma flux_god_reflection :
  solver_reflection_symmetric exactRiemann -> reflection_symmetric flux_god.
Proof.
  intros Hsym rhoL rhoR vxL vxR vyL vyR pL pR _ _ _ _.
  unfold mirrored, reflect4, flux_god. cbv zeta.
  destruct (exactRiemann rhoL rhoR vxL vxR pL pR (sqrt (gam * pL / rhoL))
              (sqrt (gam * pR / rhoR)) 0) as [[rho vx] p] eqn:Hsol.
  rewrite (Hsym _ _ _ _ _ _ _ _ _ _ _ Hsol).
  destruct (Rltb_spec 0 vx) as [[H1 E1] | [H1 E1]];
  destruct (Rltb_spec 0 (- vx)) as [[H2 E2] | [H2 E2]];
  try (exfalso; lra); rewrite E1, E2;
  apply arr4_ext; cbn [get4 at0 at1 at2 at3]; try ring.
  (* the resolved velocity is zero: no tangential or energy flux *)
  all: assert (vx = 0) by lra; subst vx; ring.
Qed.

(** The Godunov flux of the reflected problem is the reflected flux at
    every pair of states where the two interface states agree. *)
Lemma flux_god_reflection_at (rhoL rhoR vxL vxR vyL vyR pL pR : R) :
  mirror_states_agree rhoL rhoR vxL vxR pL pR ->
  mirrored flux_god rhoL rhoR vxL vxR vyL vyR pL pR
  = reflect4 (flux_god rhoL rhoR vxL vxR vyL vyR pL pR).
Proof.
  unfold mirror_states_agree, mirrored, reflect4, flux_god, sound_speed. cbv zeta.
  destruct (exactRiemann rhoL rhoR vxL vxR pL pR (sqrt (gam * pL / rhoL))
              (sqrt (gam * pR / rhoR)) 0) as [[rho vx] p].
  destruct (exactRiemann rhoR rhoL (- vxR) (- vxL) pR pL (sqrt (gam * pR / rhoR))
              (sqrt (gam * pL / rhoL)) 0) as [[rho' vx'] p'].
  intros [Hv [Hp Hrho]]. subst vx' p'.
  destruct (Req_dec vx 0) as [Hz | Hnz].
  - (* the fluid at the interface is at rest: only the pressure is left *)
    subst vx. rewrite Ropp_0. rewrite (Rltb_ge 0 0) by lra.
    apply arr4_ext; cbn [get4 at0 at1 at2 at3]; ring.
  - rewrite (Hrho Hnz).
    destruct (Rltb_spec 0 vx) as [[H1 E1] | [H1 E1]];
    destruct (Rltb_spec 0 (- vx)) as [[H2 E2] | [H2 E2]];
    try (exfalso; lra); rewrite E1, E2;
    apply arr4_ext; cbn [get4 at0 at1 at2 at3]; ring.
Qed.

Lemma solver_symmetric_states_agree (rhoL rhoR vxL vxR pL pR : R) :
  solver_reflection_symmetric exactRiemann ->
  mirror_states_agree rhoL rhoR vxL vxR pL pR.
Proof.
  intros Hsym. unfold mirror_states_agree. cbv zeta.
  destruct (exactRiemann rhoL rhoR vxL vxR pL pR (sound_speed rhoL pL)
              (sound_speed rhoR pR) 0) as [[rho vx] p] eqn:Hsol.
  rewrite (Hsym _ _ _ _ _ _ _ _ _ _ _ Hsol).
  repeat split; reflexivity.
Qed.

Lemma flux_hllc_select (rhoL rhoR vxL vxR vyL vyR pL pR : R) :
  flux_hllc rhoL rhoR vxL vxR vyL vyR pL pR
  = hllc_select (hll_left_speed rhoL rhoR vxL vxR vyL vyR pL pR)
      (hll_right_speed rhoL rhoR vxL vxR vyL vyR pL pR)
      rhoL rhoR vxL vxR vyL vyR pL pR.
Proof.
  pose proof (flux_hll_select rhoL rhoR vxL vxR vyL vyR pL pR) as Hhll.
  unfold flux_hllc, hllc_select. cbv zeta.
  cbn [get4 at0 at1 at2 at3 MX].
  rewrite !code_physical_flux, !code_energy, !code_sound_speed.
  assert (Hu : (sqrt rhoR * vxR + sqrt rhoL * vxL) * (1 / (sqrt rhoL + sqrt rhoR))
               = roe_mean rhoL rhoR vxL vxR)
    by (unfold roe_mean, Rdiv; ring).
  assert (Hc : sqrt (gam1 *
                 ((sqrt rhoR * ((total_energy rhoR vxR vyR pR + pR) * (1 / rhoR))
                   + sqrt rhoL * ((total_energy rhoL vxL vyL pL + pL) * (1 / rhoL)))
                  * (1 / (sqrt rhoL + sqrt rhoR))
                  - 0.5 * ((sqrt rhoR * vxR + sqrt rhoL * vxL) * (1 / (sqrt rhoL + sqrt rhoR))
                           * ((sqrt rhoR * vxR + sqrt rhoL * vxL) * (1 / (sqrt rhoL + sqrt rhoR)))
                           + (sqrt rhoR * vyR + sqrt rhoL * vyL) * (1 / (sqrt rhoL + sqrt rhoR))
                             * ((sqrt rhoR * vyR + sqrt rhoL * vyL) * (1 / (sqrt rhoL + sqrt rhoR))))))
               = roe_sound_speed rhoL rhoR vxL vxR vyL vyR pL pR).
  { unfold roe_sound_speed, roe_mean, enthalpy, gam1. cbv zeta. f_equal.
    decimals. unfold Rdiv. ring. }
  rewrite Hc, Hu.
  fold (hll_left_speed rhoL rhoR vxL vxR vyL vyR pL pR).
  fold (hll_right_speed rhoL rhoR vxL vxR vyL vyR pL pR).
  reflexivity.
Qed.

Lemma hllc_contact_mirrored (SL SR rhoL rhoR vxL vxR pL pR : R) :
  hllc_contact (- SR) (- SL) rhoR rhoL (- vxR) (- vxL) pR pL
  = - hllc_contact SL SR rhoL rhoR vxL vxR pL pR.
Proof.
  unfold hllc_contact.
  replace (rhoR * (- SR - - vxR) - rhoL * (- SL - - vxL))
    with (rhoL * (SL - vxL) - rhoR * (SR - vxR)) by ring.
  unfold Rdiv. ring.
Qed.

Lemma hllc_star_mirrored (S as_ rho vx vy p : R) :
  hllc_star (- S) (- as_) rho (- vx) (- vy) p (total_energy rho vx vy p)
    (reflect4 (physical_flux rho vx vy p)) (conserved rho (- vx) (- vy) p)
  = reflect4 (hllc_star S as_ rho vx vy p (total_energy rho vx vy p)
                (physical_flux rho vx vy p) (conserved rho vx vy p)).
Proof.
  unfold hllc_star, reflect4, conserved. cbv zeta.
  rewrite total_energy_opp.
  replace (- S - - as_) with (- (S - as_)) by ring.
  replace (rho * (- S - - vx)) with (- (rho * (S - vx))) by ring.
  replace (- as_ - - vx) with (- (as_ - vx)) by ring.
  apply arr4_ext; cbn [get4 at0 at1 at2 at3]; unfold Rdiv;
    rewrite !Rinv_opp; ring.
Qed.

(** Both signal speeds lie strictly outside the particle velocities. *)
Lemma hll_speeds_enclose (rhoL rhoR vxL vxR vyL vyR pL pR : R) :
  1 < gam -> 0 < rhoL -> 0 < rhoR -> 0 < pL -> 0 < pR ->
  hll_left_speed rhoL rhoR vxL vxR vyL vyR pL pR < vxL /\
  vxR < hll_right_speed rhoL rhoR vxL vxR vyL vyR pL pR.
Proof.
  intros Hg HrL HrR HpL HpR.
  assert (HcL : 0 < sound_speed rhoL pL).
  { unfold sound_speed. apply sqrt_lt_R0. apply Rdiv_lt_0_compat; [nra | assumption]. }
  assert (HcR : 0 < sound_speed rhoR pR).
  { unfold sound_speed. apply sqrt_lt_R0. apply Rdiv_lt_0_compat; [nra | assumption]. }
  unfold hll_left_speed, hll_right_speed. split.
  - eapply Rle_lt_trans; [apply Rmin_l | lra].
  - eapply Rlt_le_trans; [| apply Rmax_l]. lra.
Qed.

(** With contact speed zero the star flux carries no mass, tangential
    momentum or energy: only the pressure term of the normal momentum is
    left. *)
Lemma hllc_star_contact_at_rest (S rho vx vy p : R) :
  0 < rho -> S <> 0 -> S <> vx ->
  hllc_star S 0 rho vx vy p (total_energy rho vx vy p)
    (physical_flux rho vx vy p) (conserved rho vx vy p)
  = mk4 0 (p + rho * vx * (vx - S)) 0 0.
Proof.
  intros Hr HS Hv.
  unfold hllc_star, physical_flux, conserved. cbv zeta.
  apply arr4_ext; cbn [get4 at0 at1 at2 at3]; field; repeat split; lra.
Qed.

(** The selection of the HLLC flux commutes with the reflection, unless the
    contact speed and one of the two signal speeds are both zero. *)
Lemma hllc_select_reflection (SL SR rhoL rhoR vxL vxR vyL vyR pL pR : R) :
  0 < rhoL -> 0 < rhoR -> SL < vxL -> vxR < SR -> SL <= SR ->
  hllc_contact SL SR rhoL rhoR vxL vxR pL pR <> 0 \/ (SL <> 0 /\ SR <> 0) ->
  hllc_select (- SR) (- SL) rhoR rhoL (- vxR) (- vxL) (- vyR) (- vyL) pR pL
  = reflect4 (hllc_select SL SR rhoL rhoR vxL vxR vyL vyR pL pR).
Proof.
  intros HrL HrR HvL HvR Hord Hdeg.
  unfold hllc_select. cbv zeta.
  rewrite hllc_contact_mirrored, !physical_flux_opp, !total_energy_opp.
  pose proof (eq_refl (hllc_contact SL SR rhoL rhoR vxL vxR pL pR)) as Has.
  unfold hllc_contact at 2 in Has.
  set (as_ := hllc_contact SL SR rhoL rhoR vxL vxR pL pR) in *.
  destruct (Rltb_spec 0 SL) as [[H1 E1] | [H1 E1]];
  destruct (Rltb_spec SR 0) as [[H2 E2] | [H2 E2]];
  try (exfalso; lra);
  rewrite ?E1, ?E2.
  - decide_cmp. unfold reflect4. apply arr4_ext; cbn [get4 at0 at1 at2 at3]; ring.
  - decide_cmp. unfold reflect4. apply arr4_ext; cbn [get4 at0 at1 at2 at3]; ring.
  - rewrite (Rltb_ge 0 (- SR)) by lra. rewrite (Rltb_ge (- SL) 0) by lra.
    rewrite (Rleb_le SL 0) by lra. rewrite (Rleb_le (- SR) 0) by lra.
    cbn [andb].
    destruct (Req_dec as_ 0) as [Hz | Hnz].
    + (* contact at rest: the two star fluxes coincide *)
      assert (HSL : SL <> 0) by (destruct Hdeg as [C | [C _]]; [contradiction | exact C]).
      assert (HSR : SR <> 0) by (destruct Hdeg as [C | [_ C]]; [contradiction | exact C]).
      assert (HD : rhoL * (SL - vxL) - rhoR * (SR - vxR) < 0) by nra.
      assert (HN : pR - pL + rhoL * vxL * (SL - vxL) - rhoR * vxR * (SR - vxR) = 0).
      { apply (Rmult_eq_reg_r (/ (rhoL * (SL - vxL) - rhoR * (SR - vxR)))).
        - rewrite Rmult_0_l. fold (Rdiv (pR - pL + rhoL * vxL * (SL - vxL) - rhoR * vxR * (SR - vxR))
              (rhoL * (SL - vxL) - rhoR * (SR - vxR))). rewrite <- Has. exact Hz.
        - apply Rinv_neq_0_compat. lra. }
      rewrite Hz, Ropp_0.
      rewrite (Rleb_le 0 0) by lra.
      rewrite hllc_star_contact_at_rest by lra.
      replace 0 with (- 0) at 1 by ring.
      rewrite hllc_star_mirrored, hllc_star_contact_at_rest by lra.
      unfold reflect4. apply arr4_ext; cbn [get4 at0 at1 at2 at3]; lra.
    + destruct (Rleb_spec 0 as_) as [[H3 E3] | [H3 E3]]; rewrite E3.
      * rewrite (Rleb_gt 0 (- as_)) by lra. apply hllc_star_mirrored.
      * rewrite (Rleb_le 0 (- as_)) by lra. apply hllc_star_mirrored.
Qed.

Lemma flux_hllc_reflection (rhoL rhoR vxL vxR vyL vyR pL pR : R) :
  1 < gam -> 0 < rhoL -> 0 < rhoR -> 0 < pL -> 0 < pR ->
  hllc_contact (hll_left_speed rhoL rhoR vxL vxR vyL vyR pL pR)
    (hll_right_speed rhoL rhoR vxL vxR vyL vyR pL pR)
    rhoL rhoR vxL vxR pL pR <> 0
  \/ (hll_left_speed rhoL rhoR vxL vxR vyL vyR pL pR <> 0 /\
      hll_right_speed rhoL rhoR vxL vxR vyL vyR pL pR <> 0) ->
  mirrored flux_hllc rhoL rhoR vxL vxR vyL vyR pL pR
  = reflect4 (flux_hllc rhoL rhoR vxL vxR vyL vyR pL pR).
Proof.
  intros Hg HrL HrR HpL HpR Hdeg. unfold mirrored. rewrite !flux_hllc_select.
  rewrite hll_left_speed_mirrored, hll_right_speed_mirrored.
  destruct (hll_speeds_enclose rhoL rhoR vxL vxR vyL vyR pL pR Hg HrL HrR HpL HpR)
    as [HvL HvR].
  apply hllc_select_reflection; try assumption.
  apply hll_speeds_ordered.
Qed.

(** Where the contact speed and the left signal speed are both zero the
    left star state is a quotient by zero.  With that quotient read as
    zero the kernel returns the mass flux of the left state, which is
    positive, and for the reflected problem zero. *)
Lemma flux_hllc_reflection_degenerate (rhoL rhoR vxL vxR vyL vyR pL pR : R) :
  1 < gam -> 0 < rhoL -> 0 < rhoR -> 0 < pL -> 0 < pR ->
  hll_left_speed rhoL rhoR vxL vxR vyL vyR pL pR = 0 ->
  hllc_contact (hll_left_speed rhoL rhoR vxL vxR vyL vyR pL pR)
    (hll_right_speed rhoL rhoR vxL vxR vyL vyR pL pR)
    rhoL rhoR vxL vxR pL pR = 0 ->
  (flux_hllc rhoL rhoR vxL vxR vyL vyR pL pR).[0] = rhoL * vxL /\
  0 < rhoL * vxL /\
  (mirrored flux_hllc rhoL rhoR vxL vxR vyL vyR pL pR).[0] = 0.
Proof.
  intros Hg HrL HrR HpL HpR HSL Has.
  destruct (hll_speeds_enclose rhoL rhoR vxL vxR vyL vyR pL pR Hg HrL HrR HpL HpR)
    as [HvL HvR].
  pose proof (roe_sound_speed_pos rhoL rhoR vxL vxR vyL vyR pL pR Hg HrL HrR HpL HpR)
    as HcM.
  assert (HSR : 0 < hll_right_speed rhoL rhoR vxL vxR vyL vyR pL pR).
  { pose proof (Rmin_r (vxL - sound_speed rhoL pL)
                  (roe_mean rhoL rhoR vxL vxR
                   - roe_sound_speed rhoL rhoR vxL vxR vyL vyR pL pR)) as Hl.
    fold (hll_left_speed rhoL rhoR vxL vxR vyL vyR pL pR) in Hl.
    pose proof (Rmax_r (vxR + sound_speed rhoR pR)
                  (roe_mean rhoL rhoR vxL vxR
                   + roe_sound_speed rhoL rhoR vxL vxR vyL vyR pL pR)) as Hr.
    fold (hll_right_speed rhoL rhoR vxL vxR vyL vyR pL pR) in Hr.
    lra. }
  unfold mirrored. rewrite !flux_hllc_select.
  rewrite hll_left_speed_mirrored, hll_right_speed_mirrored.
  unfold hllc_select. cbv zeta.
  rewrite hllc_contact_mirrored, Has, HSL.
  set (SR := hll_right_speed rhoL rhoR vxL vxR vyL vyR pL pR) in *.
  rewrite HSL in HvL.
  split; [| split].
  - rewrite (Rltb_ge 0 0) by lra. rewrite (Rltb_ge SR 0) by lra.
    rewrite (Rleb_le 0 0) by lra. cbn [andb].
    unfold hllc_star, physical_flux. cbv zeta. cbn [get4 at0 at1 at2 at3]. ring.
  - now apply Rmult_lt_0_compat.
  - rewrite Ropp_0.
    rewrite (Rltb_ge 0 (- SR)) by lra. rewrite (Rltb_ge 0 0) by lra.
    rewrite (Rleb_le (- SR) 0) by lra. rewrite (Rleb_le 0 0) by lra. cbn [andb].
    rewrite !physical_flux_opp, !total_energy_opp.
    replace 0 with (- 0) at 1 by ring.
    rewrite hllc_star_mirrored, hllc_star_contact_at_rest by lra.
    unfold reflect4. cbn [get4 at0 at1 at2 at3]. ring.
Qed.

(** The same on the other side: contact speed and right signal speed both
    zero.  The kernel returns no mass flux, and for the reflected problem
    the mass flux of the reflected right state, which is positive. *)
Lemma flux_hllc_reflection_degenerate_right (rhoL rhoR vxL vxR vyL vyR pL pR : R) :
  1 < gam -> 0 < rhoL -> 0 < rhoR -> 0 < pL -> 0 < pR ->
  hll_right_speed rhoL rhoR vxL vxR vyL vyR pL pR = 0 ->
  hllc_contact (hll_left_speed rhoL rhoR vxL vxR vyL vyR pL pR)
    (hll_right_speed rhoL rhoR vxL vxR vyL vyR pL pR)
    rhoL rhoR vxL vxR pL pR = 0 ->
  (flux_hllc rhoL rhoR vxL vxR vyL vyR pL pR).[0] = 0 /\
  0 < rhoR * - vxR /\
  (mirrored flux_hllc rhoL rhoR vxL vxR vyL vyR pL pR).[0] = rhoR * - vxR.
Proof.
  intros Hg HrL HrR HpL HpR HSR Has.
  destruct (flux_hllc_reflection_degenerate rhoR rhoL (- vxR) (- vxL) (- vyR) (- vyL)
              pR pL Hg HrR HrL HpR HpL) as [H1 [H2 H3]].
  - rewrite hll_left_speed_mirrored, HSR. ring.
  - rewrite hll_left_speed_mirrored, hll_right_speed_mirrored,
      hllc_contact_mirrored, Has. ring.
  - unfold mirrored in *. rewrite !Ropp_involutive in H3.
    repeat split; assumption.
Qed.

(** The exception made for the HLLC kernel is exact: at an admissible
    input its flux for the reflected problem is the reflected flux if and
    only if the contact speed and a signal speed are not both zero. *)
Lemma flux_hllc_reflection_iff (rhoL rhoR vxL vxR vyL vyR pL pR : R) :
  1 < gam -> 0 < rhoL -> 0 < rhoR -> 0 < pL -> 0 < pR ->
  mirrored flux_hllc rhoL rhoR vxL vxR vyL vyR pL pR
  = reflect4 (flux_hllc rhoL rhoR vxL vxR vyL vyR pL pR)
  <-> (hllc_contact (hll_left_speed rhoL rhoR vxL vxR vyL vyR pL pR)
         (hll_right_speed rhoL rhoR vxL vxR vyL vyR pL pR)
         rhoL rhoR vxL vxR pL pR <> 0
       \/ (hll_left_speed rhoL rhoR vxL vxR vyL vyR pL pR <> 0 /\
           hll_right_speed rhoL rhoR vxL vxR vyL vyR pL pR <> 0)).
Proof.
  intros Hg HrL HrR HpL HpR. split.
  - intros Hsym.
    destruct (Req_dec (hllc_contact (hll_left_speed rhoL rhoR vxL vxR vyL vyR pL pR)
                (hll_right_speed rhoL rhoR vxL vxR vyL vyR pL pR)
                rhoL rhoR vxL vxR pL pR) 0) as [Has | Has]; [| now left].
    right. split; intros HS.
    + destruct (flux_hllc_reflection_degenerate rhoL rhoR vxL vxR vyL vyR pL pR
                  Hg HrL HrR HpL HpR HS Has) as [H1 [H2 H3]].
      rewrite Hsym in H3. unfold reflect4 in H3. cbn [get4 at0] in H3. 
      cbn [get4] in H1. lra.
    + destruct (flux_hllc_reflection_degenerate_right rhoL rhoR vxL vxR vyL vyR pL pR
                  Hg HrL HrR HpL HpR HS Has) as [H1 [H2 H3]].
      rewrite Hsym in H3. unfold reflect4 in H3. cbn [get4 at0] in H3.
      cbn [get4] in H1. lra.
  - now apply flux_hllc_reflection.
Qed.

(** C4 (amended).  For gamma > 1 and admissible states (positive densities
    and pressures), exchanging the left and right states and negating both
    velocity components negates the mass and energy components of the flux
    and leaves the normal and tangential momentum components as they are.
    This holds for the Roe, HLL, HLLE, Lax-Friedrichs, Steger-Warming,
    central, AUSMD and van Leer kernels at every admissible input; for the
    HLLC kernel at every admissible input except those where the contact
    speed estimate and one of the two signal speeds are both zero, where
    the star state is a quotient by zero; and for the Godunov kernel at
    every admissible input where the interface states that the exact
    Riemann solver returns for the problem and for the reflected problem
    have opposite velocities, equal pressures and, unless that velocity is
    zero, equal densities. *)
Theorem kernels_reflection :
  1 < gam ->
  reflection_symmetric flux_roe /\
  reflection_symmetric flux_hll /\
  reflection_symmetric flux_hlle /\
  reflection_symmetric flux_lxf /\
  reflection_symmetric flux_stw /\
  reflection_symmetric flux_cen /\
  reflection_symmetric flux_ausmd /\
  reflection_symmetric flux_vanleer /\
  (forall rhoL rhoR vxL vxR vyL vyR pL pR : R,
     0 < rhoL -> 0 < rhoR -> 0 < pL -> 0 < pR ->
     hllc_contact (hll_left_speed rhoL rhoR vxL vxR vyL vyR pL pR)
       (hll_right_speed rhoL rhoR vxL vxR vyL vyR pL pR)
       rhoL rhoR vxL vxR pL pR <> 0
     \/ (hll_left_speed rhoL rhoR vxL vxR vyL vyR pL pR <> 0 /\
         hll_right_speed rhoL rhoR vxL vxR vyL vyR pL pR <> 0) ->
     mirrored flux_hllc rhoL rhoR vxL vxR vyL vyR pL pR
     = reflect4 (flux_hllc rhoL rhoR vxL vxR vyL vyR pL pR)) /\
  (forall rhoL rhoR vxL vxR vyL vyR pL pR : R,
     0 < rhoL -> 0 < rhoR -> 0 < pL -> 0 < pR ->
     mirror_states_agree rhoL rhoR vxL vxR pL pR ->
     mirrored flux_god rhoL rhoR vxL vxR vyL vyR pL pR
     = reflect4 (flux_god rhoL rhoR vxL vxR vyL vyR pL pR)).
Proof.
  intros Hg.
  split; [now apply flux_roe_reflection |].
  split; [apply flux_hll_reflection |].
  split; [apply flux_hlle_reflection |].
  split; [apply flux_lxf_reflection |].
  split; [apply flux_stw_reflection |].
  split; [apply flux_cen_reflection |].
  split; [apply flux_ausmd_reflection |].
  split; [apply flux_vanleer_reflection |].
  split.
  - intros rhoL rhoR vxL vxR vyL vyR pL pR HrL HrR HpL HpR Hdeg.
    now apply flux_hllc_reflection.
  - intros rhoL rhoR vxL vxR vyL vyR pL pR _ _ _ _ Hagree.
    now apply flux_god_reflection_at.
Qed.

(** * Consistency: equal left and right states *)

Lemma sound_speed_pos (rho p : R) :
  1 < gam -> 0 < rho -> 0 < p -> 0 < sound_speed rho p.
Proof.
  intros Hg Hr Hp. unfold sound_speed. apply sqrt_lt_R0.
  apply Rdiv_lt_0_compat; [nra | assumption].
Qed.

Lemma sound_speed_sqr (rho p : R) :
  1 < gam -> 0 < rho -> 0 < p ->
  sound_speed rho p * sound_speed rho p = gam * p / rho.
Proof.
  intros Hg Hr Hp. unfold sound_speed. apply sqrt_sqrt.
  left. apply Rdiv_lt_0_compat; [nra | assumption].
Qed.

Lemma code_sound_speed' (rho p : R) :
  sqrt (gam * p / rho) = sound_speed rho p.
Proof. reflexivity. Qed.

Lemma flux_cen_consistent : 1 < gam -> consistent flux_cen.
Proof.
  intros Hg rho v vt p Hr Hp.
  unfold flux_cen, physical_flux, total_energy, gam1q, gam1. cbv zeta.
  apply arr4_ext; cbn [get4 at0 at1 at2 at3]; decimals; field; lra.
Qed.

Lemma flux_lxf_consistent : 1 < gam -> consistent flux_lxf.
Proof.
  intros Hg rho v vt p Hr Hp.
  unfold flux_lxf, physical_flux, total_energy, gam1q, gam1. cbv zeta.
  set (a := fmax (fabs v + sqrt (gam * p / rho)) (fabs v + sqrt (gam * p / rho))).
  apply arr4_ext; cbn [get4 at0 at1 at2 at3]; decimals; field; lra.
Qed.

Lemma flux_roe_consistent : 1 < gam -> consistent flux_roe.
Proof.
  intros Hg rho v vt p Hr Hp.
  rewrite flux_roe_core. cbv zeta.
  pose proof (roe_sound_speed_pos rho rho v v vt vt p p Hg Hr Hr Hp Hp) as Hc.
  set (cM := roe_sound_speed rho rho v v vt vt p p) in *.
  unfold roe_core. cbv zeta.
  apply arr4_ext; cbn [get4 at0 at1 at2 at3]; decimals; field; lra.
Qed.

(** The selection of [flux_hll] and [flux_hlle] on equal states. *)
Lemma hll_select_consistent (SL SR : R) (U F : arr4) :
  SL < SR -> hll_select SL SR (1 / (SR - SL)) U U F F = F.
Proof.
  intros Hlt. unfold hll_select.
  destruct (Rltb 0 SL); [apply arr4_eta |].
  destruct (Rltb SR 0); [apply arr4_eta |].
  apply arr4_ext; cbn [get4 at0 at1 at2 at3]; field; lra.
Qed.

Lemma hll_speeds_strict (rho v vt p : R) :
  1 < gam -> 0 < rho -> 0 < p ->
  hll_left_speed rho rho v v vt vt p p < v /\
  v < hll_right_speed rho rho v v vt vt p p.
Proof.
  intros Hg Hr Hp. unfold hll_left_speed, hll_right_speed.
  pose proof (sound_speed_pos rho p Hg Hr Hp) as Hc.
  split.
  - eapply Rle_lt_trans; [apply Rmin_l | lra].
  - eapply Rlt_le_trans; [| apply Rmax_l]. lra.
Qed.

Lemma hlle_speeds_strict (rho v p : R) :
  1 < gam -> 0 < rho -> 0 < p ->
  hlle_left_speed rho rho v v p p < v /\
  v < hlle_right_speed rho rho v v p p.
Proof.
  intros Hg Hr Hp. unfold hlle_left_speed, hlle_right_speed.
  pose proof (sound_speed_pos rho p Hg Hr Hp) as Hc.
  split.
  - eapply Rle_lt_trans; [apply Rmin_l | lra].
  - eapply Rlt_le_trans; [| apply Rmax_l]. lra.
Qed.

Lemma flux_hll_consistent : 1 < gam -> consistent flux_hll.
Proof.
  intros Hg rho v vt p Hr Hp.
  rewrite flux_hll_select. cbv zeta.
  destruct (hll_speeds_strict rho v vt p Hg Hr Hp) as [H1 H2].
  apply hll_select_consistent. lra.
Qed.

Lemma flux_hlle_consistent : 1 < gam -> consistent flux_hlle.
Proof.
  intros Hg rho v vt p Hr Hp.
  rewrite flux_hlle_select. cbv zeta.
  destruct (hlle_speeds_strict rho v p Hg Hr Hp) as [H1 H2].
  apply hll_select_consistent. lra.
Qed.

Lemma hllc_select_consistent (SL SR rho v vt p : R) :
  1 < gam -> 0 < rho -> SL < v -> v < SR ->
  hllc_select SL SR rho rho v v vt vt p p = physical_flux rho v vt p.
Proof.
  intros Hg Hr H1 H2. unfold hllc_select. cbv zeta.
  destruct (Rltb 0 SL); [apply arr4_eta |].
  destruct (Rltb SR 0); [apply arr4_eta |].
  assert (Has : hllc_contact SL SR rho rho v v p p = v)
    by (unfold hllc_contact; field; nra).
  rewrite Has.
  assert (Hstar : forall S : R, S <> v ->
            hllc_star S v rho v vt p (total_energy rho v vt p)
              (physical_flux rho v vt p) (conserved rho v vt p)
            = physical_flux rho v vt p).
  { intros S HS. unfold hllc_star, conserved, physical_flux. cbv zeta.
    apply arr4_ext; cbn [get4 at0 at1 at2 at3]; field; repeat split; lra. }
  destruct ((SL <=? 0) && (v >=? 0))%bool; apply Hstar; lra.
Qed.

Lemma flux_hllc_consistent : 1 < gam -> consistent flux_hllc.
Proof.
  intros Hg rho v vt p Hr Hp.
  rewrite flux_hllc_select.
  destruct (hll_speeds_strict rho v vt p Hg Hr Hp) as [H1 H2].
  now apply hllc_select_consistent.
Qed.

Lemma Rmin_0_as_Rmax (x : R) : Rmin x 0 = x - Rmax x 0.
Proof.
  unfold Rmin, Rmax. destruct (Rle_dec x 0); lra.
Qed.

Lemma flux_stw_consistent : 1 < gam -> consistent flux_stw.
Proof.
  intros Hg rho v vt p Hr Hp.
  pose proof (sound_speed_pos rho p Hg Hr Hp) as Hc.
  pose proof (sound_speed_sqr rho p Hg Hr Hp) as Hc2.
  unfold flux_stw, fmax, fmin, physical_flux, total_energy, gam1q, gam1.
  cbv zeta. cbn [get4 at0 at1 at2 at3].
  rewrite !code_sound_speed'.
  set (c := sound_speed rho p) in *. clearbody c.
  assert (Hpc : p = c * c * rho / gam) by (rewrite Hc2; field; lra).
  rewrite !Rmin_0_as_Rmax.
  set (m0 := Rmax (v - c) 0). set (m1 := Rmax v 0). set (m3 := Rmax (v + c) 0).
  rewrite Hpc.
  apply arr4_ext; cbn [get4 at0 at1 at2 at3]; decimals; field; lra.
Qed.

Lemma flux_ausmd_consistent : 1 < gam -> consistent flux_ausmd.
Proof.
  intros Hg rho v vt p Hr Hp.
  pose proof (sound_speed_pos rho p Hg Hr Hp) as Hc.
  unfold flux_ausmd, fmax, fabs, physical_flux, total_energy, gam1q, gam1.
  cbv zeta. rewrite !code_sound_speed'.
  set (c := sound_speed rho p) in *. clearbody c.
  rewrite (Rmax_left c c) by lra.
  replace (2 * p / rho / (p / rho + p / rho)) with 1 by (field; lra).
  destruct (Rltb_spec (Rabs v) c) as [[Hv ->] | [Hv ->]].
  - set (av := Rabs v). cbn [get4 at0 at1 at2 at3].
    match goal with
    | |- context [Rabs ?e] => set (ar := Rabs e)
    end.
    apply arr4_ext; cbn [get4 at0 at1 at2 at3]; decimals; field; lra.
  - assert (Hv0 : v <> 0).
    { intros ->. rewrite Rabs_R0 in Hv. lra. }
    set (av := Rabs v). cbn [get4 at0 at1 at2 at3].
    match goal with
    | |- context [Rabs ?e] => set (ar := Rabs e)
    end.
    apply arr4_ext; cbn [get4 at0 at1 at2 at3]; decimals; field; lra.
Qed.

Lemma flux_ausmdv_consistent : 1 < gam -> consistent flux_ausmdv.
Proof.
  intros Hg rho v vt p Hr Hp.
  pose proof (sound_speed_pos rho p Hg Hr Hp) as Hc.
  unfold flux_ausmdv, fmax, fmin, fabs, physical_flux, total_energy, gam1q, gam1.
  cbv zeta. rewrite !code_sound_speed'.
  set (c := sound_speed rho p) in *. clearbody c.
  rewrite (Rmax_left c c) by lra.
  replace (2 * p / rho / (p / rho + p / rho)) with 1 by (field; lra).
  replace (p - p) with 0 by ring. rewrite Rabs_R0.
  replace (10 * 0 / Rmin p p) with 0 by (unfold Rdiv; ring).
  rewrite (Rmin_right 1 0) by lra.
  assert (Ha : ((v - c <? 0) && (v - c >? 0))%bool = false).
  { destruct (Rltb_spec (v - c) 0) as [[H ->] | [H ->]]; [| reflexivity].
    now rewrite (Rltb_ge 0 (v - c)) by lra. }
  assert (Hb : ((v + c <? 0) && (v + c >? 0))%bool = false).
  { destruct (Rltb_spec (v + c) 0) as [[H ->] | [H ->]]; [| reflexivity].
    now rewrite (Rltb_ge 0 (v + c)) by lra. }
  rewrite Ha, Hb. cbn [andb negb].
  destruct (Rltb_spec (Rabs v) c) as [[Hv ->] | [Hv ->]];
    destruct (Rltb_spec 0 v) as [[Hs ->] | [Hs ->]];
    cbn [get4 at0 at1 at2 at3];
    match goal with
    | |- context [Rabs ?e] => set (ar := Rabs e)
    end;
    apply arr4_ext; cbn [get4 at0 at1 at2 at3]; decimals; field; lra.
Qed.

(** Van Leer: consistent except where the Mach number is exactly 1 or
    exactly -1, which none of the two tests [ML > 1] and
    [ML < 1 && ML > -1] accepts. *)
Lemma flux_vanleer_consistent (rho v vt p : R) :
  1 < gam -> 0 < rho -> 0 < p ->
  v / sound_speed rho p <> 1 -> v / sound_speed rho p <> - 1 ->
  flux_vanleer rho rho v v vt vt p p = physical_flux rho v vt p.
Proof.
  intros Hg Hr Hp.
  pose proof (sound_speed_pos rho p Hg Hr Hp) as Hc.
  pose proof (sound_speed_sqr rho p Hg Hr Hp) as Hc2.
  unfold flux_vanleer, physical_flux, total_energy, gam1q, gam1.
  cbv zeta. rewrite !code_sound_speed'.
  set (c := sound_speed rho p) in *. clearbody c.
  intros Hp1 Hm1.
  assert (Hpc : p = c * c * rho / gam) by (rewrite Hc2; field; lra).
  assert (Hgg : gam * gam - 1 <> 0) by nra.
  destruct (Rltb_spec 1 (v / c)) as [[H1 E1] | [H1 E1]];
  destruct (Rltb_spec (v / c) 1) as [[H2 E2] | [H2 E2]];
  destruct (Rltb_spec (- 1) (v / c)) as [[H3 E3] | [H3 E3]];
  destruct (Rltb_spec (v / c) (- 1)) as [[H4 E4] | [H4 E4]];
  try (exfalso; lra);
  rewrite ?E1, ?E2, ?E3, ?E4; cbn [andb get4 at0 at1 at2 at3];
  rewrite Hpc;
  apply arr4_ext; cbn [get4 at0 at1 at2 at3]; decimals; field;
  repeat split; lra.
Qed.

(** Godunov: consistent when the solver resolves two equal states to that
    state. *)
Lemma flux_god_consistent :
  1 < gam ->
  (forall rho v p : R,
     0 < rho -> 0 < p ->
     exactRiemann rho rho v v p p (sound_speed rho p) (sound_speed rho p) 0
     = (rho, v, p)) ->
  consistent flux_god.
Proof.
  intros Hg Hsol rho v vt p Hr Hp.
  unfold flux_god. cbv zeta. rewrite !code_sound_speed', (Hsol rho v p Hr Hp).
  unfold physical_flux, total_energy, gam1. cbv zeta.
  destruct (Rltb 0 v);
    apply arr4_ext; cbn [get4 at0 at1 at2 at3]; decimals; field; lra.
Qed.

(** Consistency of the kernels.  For gamma > 1 and a state of positive
    density and pressure on both sides, every kernel but van Leer's returns
    the physical flux of that state; van Leer's does so unless the Mach
    number is exactly 1 or -1; Godunov's does so when the solver resolves
    equal states to themselves. *)
Theorem kernels_consistent :
  1 < gam ->
  consistent flux_roe /\
  consistent flux_hll /\
  consistent flux_hlle /\
  consistent flux_hllc /\
  consistent flux_lxf /\
  consistent flux_stw /\
  consistent flux_cen /\
  consistent flux_ausmd /\
  consistent flux_ausmdv /\
  (forall rho v vt p : R,
     0 < rho -> 0 < p ->
     v / sound_speed rho p <> 1 -> v / sound_speed rho p <> - 1 ->
     flux_vanleer rho rho v v vt vt p p = physical_flux rho v vt p) /\
  ((forall rho v p : R,
      0 < rho -> 0 < p ->
      exactRiemann rho rho v v p p (sound_speed rho p) (sound_speed rho p) 0
      = (rho, v, p)) ->
   consistent flux_god).
Proof.
  intros Hg.
  split; [now apply flux_roe_consistent |].
  split; [now apply flux_hll_consistent |].
  split; [now apply flux_hlle_consistent |].
  split; [now apply flux_hllc_consistent |].
  split; [now apply flux_lxf_consistent |].
  split; [now apply flux_stw_consistent |].
  split; [now apply flux_cen_consistent |].
  split; [now apply flux_ausmd_consistent |].
  split; [now apply flux_ausmdv_consistent |].
  split.
  - intros rho v vt p Hr Hp H1 H2. now apply flux_vanleer_consistent.
  - intros Hsol. now apply flux_god_consistent.
Qed.

(** The uniform supersonic flow (rho, vx, vy, p) = (1, 2, 0, 1) with
    gamma = 1.4: whichever case label [iFlux] matches, [convectiveFlux]
    returns (2, 5, 0, 2 (gamma / (gamma - 1) + 2)), provided the exact
    Riemann solver resolves equal states to themselves. *)
Theorem convectiveFlux_uniform_flow :
  gam = 1.4 ->
  (forall rho v p : R,
     0 < rho -> 0 < p ->
     exactRiemann rho rho v v p p (sound_speed rho p) (sound_speed rho p) 0
     = (rho, v, p)) ->
  In iFlux case_labels ->
  forall fluxLoc : arr4,
    convectiveFlux 1 1 2 2 0 0 1 1 fluxLoc
    = mk4 2 5 0 (2 * (gam / (gam - 1) + 2)).
Proof.
  intros Hgam Hsol Hin fluxLoc.
  assert (Hg : 1 < gam) by lra.
  assert (H1 : 0 < 1) by lra.
  assert (Hphys : physical_flux 1 2 0 1 = mk4 2 5 0 (2 * (gam / (gam - 1) + 2))).
  { unfold physical_flux, total_energy. cbv zeta.
    apply arr4_ext; cbn [get4 at0 at1 at2 at3]; field; lra. }
  assert (Hvl : flux_vanleer 1 1 2 2 0 0 1 1 = physical_flux 1 2 0 1).
  { assert (Hs : sound_speed 1 1 < 2).
    { unfold sound_speed. apply sqrt_lt_two. rewrite Hgam. lra. }
    pose proof (sound_speed_pos 1 1 Hg H1 H1) as Hc.
    assert (Hm : 1 < 2 / sound_speed 1 1).
    { apply (Rmult_lt_reg_r (sound_speed 1 1)); [assumption |].
      replace (2 / sound_speed 1 1 * sound_speed 1 1) with 2 by (field; lra).
      lra. }
    apply flux_vanleer_consistent; try assumption; lra. }
  rewrite <- Hphys.
  unfold convectiveFlux.
  destruct (Z.eqb_spec iFlux (GOD ids)) as [_ | N_GOD]; [now apply flux_god_consistent |].
  destruct (Z.eqb_spec iFlux (ROE ids)) as [_ | N_ROE]; [now apply flux_roe_consistent |].
  destruct (Z.eqb_spec iFlux (HLL ids)) as [_ | N_HLL]; [now apply flux_hll_consistent |].
  destruct (Z.eqb_spec iFlux (HLLE ids)) as [_ | N_HLLE]; [now apply flux_hlle_consistent |].
  destruct (Z.eqb_spec iFlux (HLLC ids)) as [_ | N_HLLC]; [now apply flux_hllc_consistent |].
  destruct (Z.eqb_spec iFlux (LXF ids)) as [_ | N_LXF]; [now apply flux_lxf_consistent |].
  destruct (Z.eqb_spec iFlux (STW ids)) as [_ | N_STW]; [now apply flux_stw_consistent |].
  destruct (Z.eqb_spec iFlux (CEN ids)) as [_ | N_CEN]; [now apply flux_cen_consistent |].
  destruct (Z.eqb_spec iFlux (AUSMD ids)) as [_ | N_AUSMD]; [now apply flux_ausmd_consistent |].
  destruct (Z.eqb_spec iFlux (AUSMDV ids)) as [_ | N_AUSMDV]; [now apply flux_ausmdv_consistent |].
  destruct (Z.eqb_spec iFlux (VANLEER ids)) as [_ | Hne]; [exact Hvl |].
  exfalso. unfold case_labels in Hin. simpl in Hin.
  intuition congruence.
Qed.

(** * Further properties of the face loop *)

(** ** What the loop writes *)

Lemma body_other_fields (es : elem_store) (h : side_store) (a x : addr)
    (f : arr4) :
  Side.set_flux (fluxCalculation_body es h a x) f = Side.set_flux (h x) f.
Proof.
  unfold fluxCalculation_body. cbv zeta.
  rewrite store_upd_same. simpl Side.connection.
  unfold store_upd.
  destruct (Nat.eqb_spec x (Side.connection (h a))) as [-> | _].
  - destruct (Nat.eqb_spec (Side.connection (h a)) a) as [-> | _]; reflexivity.
  - destruct (Nat.eqb_spec x a) as [-> | _]; reflexivity.
Qed.

Lemma fluxCalculation_other_fields (es : elem_store) (side : list addr) :
  forall (h : side_store) (x : addr) (f : arr4),
    Side.set_flux (fluxCalculation es side h x) f = Side.set_flux (h x) f.
Proof.
  induction side as [| a side IH]; intros h x f; [reflexivity |].
  rewrite fluxCalculation_cons, IH. apply body_other_fields.
Qed.

Lemma set_flux_flux (s : Side.t) : Side.set_flux s (Side.flux s) = s.
Proof. destruct s. reflexivity. Qed.

(** The loop assigns flux accumulators and nothing else: in every record,
    visited or not, the state, normal, length, pointers and barycentre data
    are as before (putting the old accumulator back gives the old record);
    and a record that is neither visited nor the connection of a visited
    side is not written at all. *)
Theorem fluxCalculation_writes_only_flux (es : elem_store) (side : list addr)
    (h : side_store) :
  (forall x : addr,
     Side.set_flux (fluxCalculation es side h x) (Side.flux (h x)) = h x) /\
  (forall x : addr,
     ~ In x side ->
     ~ In x (map (fun a => Side.connection (h a)) side) ->
     fluxCalculation es side h x = h x).
Proof.
  split.
  - intros x. rewrite fluxCalculation_other_fields. apply set_flux_flux.
  - intros x. apply fluxCalculation_frame.
Qed.

(** ** The loop reads no accumulator *)

Lemma same_mesh_fields (h h0 : side_store) (x : addr) :
  same_mesh h h0 ->
  Side.pVar (h x) = Side.pVar (h0 x) /\
  Side.n (h x) = Side.n (h0 x) /\
  Side.len (h x) = Side.len (h0 x) /\
  Side.connection (h x) = Side.connection (h0 x) /\
  Side.elem (h x) = Side.elem (h0 x) /\
  Side.baryBaryVec (h x) = Side.baryBaryVec (h0 x) /\
  Side.baryBaryDist (h x) = Side.baryBaryDist (h0 x).
Proof.
  intros H. specialize (H x).
  destruct (h x), (h0 x). unfold Side.set_flux in H. simpl in *.
  injection H as -> -> -> -> -> -> ->. repeat split; reflexivity.
Qed.

Lemma side_flux_same_mesh (es : elem_store) (h h0 : side_store) (a : addr) :
  same_mesh h h0 -> side_flux es h a = side_flux es h0 a.
Proof.
  intros H.
  destruct (same_mesh_fields h h0 a H) as (Hp & Hn & Hl & Hc & He & Hv & Hd).
  destruct (same_mesh_fields h h0 (Side.connection (h0 a)) H)
    as (Hp' & _ & _ & _ & He' & _ & _).
  unfold side_flux, side_fluxDiff. cbv zeta.
  rewrite Hp, Hn, Hl, Hc, He, Hv, Hd, Hp', He'. reflexivity.
Qed.

Lemma body_same_mesh (es : elem_store) (h h0 : side_store) (a : addr) :
  same_mesh h h0 ->
  same_mesh (fluxCalculation_body es h a) (fluxCalculation_body es h0 a).
Proof.
  intros H x. rewrite !body_other_fields. apply H.
Qed.

Lemma body_flux_same_mesh (es : elem_store) (h h0 : side_store) (a x : addr) :
  same_mesh h h0 ->
  (x = a \/ x = Side.connection (h a)) ->
  Side.flux (fluxCalculation_body es h a x)
  = Side.flux (fluxCalculation_body es h0 a x).
Proof.
  intros H Hx.
  destruct (same_mesh_fields h h0 a H) as (_ & _ & _ & Hc & _).
  rewrite !body_flux_cases, <- Hc, (side_flux_same_mesh es h h0 a H).
  destruct (Nat.eqb_spec x (Side.connection (h a))); [reflexivity |].
  destruct (Nat.eqb_spec x a); [reflexivity |].
  destruct Hx; contradiction.
Qed.

Lemma fluxCalculation_same_mesh (es : elem_store) (side : list addr) :
  forall h h0 : side_store,
    same_mesh h h0 ->
    same_mesh (fluxCalculation es side h) (fluxCalculation es side h0).
Proof.
  intros h h0 H x. rewrite !fluxCalculation_other_fields. apply H.
Qed.

(** On a record that the loop writes, the accumulator it leaves does not
    depend on what any accumulator held before. *)
Lemma fluxCalculation_flux_same_mesh (es : elem_store) (side : list addr) :
  forall (h h0 : side_store) (x : addr),
    same_mesh h h0 ->
    In x side \/ In x (map (fun a => Side.connection (h a)) side) ->
    Side.flux (fluxCalculation es side h x)
    = Side.flux (fluxCalculation es side h0 x).
Proof.
  induction side as [| a side IH]; intros h h0 x H Hx.
  - destruct Hx as [[] | []].
  - rewrite !fluxCalculation_cons.
    pose proof (body_same_mesh es h h0 a H) as H1.
    assert (Hmap : map (fun a0 => Side.connection (fluxCalculation_body es h a a0)) side
                   = map (fun a0 => Side.connection (h a0)) side)
      by (apply map_ext; intros; apply body_connection).
    assert (Hmap0 : map (fun a0 => Side.connection (fluxCalculation_body es h0 a a0)) side
                    = map (fun a0 => Side.connection (h a0)) side).
    { apply map_ext. intros y. rewrite body_connection.
      symmetry. now destruct (same_mesh_fields h h0 y H) as (_ & _ & _ & Hc & _). }
    destruct (in_dec Nat.eq_dec x side) as [Hin | Hnin].
    { apply IH; [assumption | now left]. }
    destruct (in_dec Nat.eq_dec x (map (fun a0 => Side.connection (h a0)) side))
      as [Hinc | Hninc].
    { apply IH; [assumption | right; now rewrite Hmap]. }
    rewrite !fluxCalculation_frame by (try assumption; now rewrite ?Hmap, ?Hmap0).
    apply body_flux_same_mesh; [assumption |].
    simpl in Hx. destruct Hx as [[Hx | Hx] | [Hx | Hx]];
      [left; now symmetry | contradiction | right; now symmetry | contradiction].
Qed.

Lemma side_record_ext (s t : Side.t) :
  Side.set_flux s zero4 = Side.set_flux t zero4 ->
  Side.flux s = Side.flux t -> s = t.
Proof.
  destruct s, t. unfold Side.set_flux. simpl.
  intros H ->. injection H as -> -> -> -> -> -> ->. reflexivity.
Qed.

(** The accumulators are overwritten, not accumulated.  Running the loop a
    second time on the store the first run produced changes nothing; and
    on every record the loop writes, the result is the same whatever the
    accumulators of the store held before the call. *)
Theorem fluxCalculation_overwrites (es : elem_store) (side : list addr)
    (h : side_store) :
  (forall x : addr,
     fluxCalculation es side (fluxCalculation es side h) x
     = fluxCalculation es side h x) /\
  (forall (f0 : addr -> arr4) (x : addr),
     In x side \/ In x (map (fun a => Side.connection (h a)) side) ->
     fluxCalculation es side (fun y => Side.set_flux (h y) (f0 y)) x
     = fluxCalculation es side h x).
Proof.
  split.
  - intros x.
    set (h' := fluxCalculation es side h).
    assert (Hsame : same_mesh h' h)
      by (intros y; unfold h'; now rewrite fluxCalculation_other_fields).
    assert (Hmap : map (fun a => Side.connection (h' a)) side
                   = map (fun a => Side.connection (h a)) side).
    { apply map_ext. intros y. unfold h'. apply fluxCalculation_connection. }
    destruct (in_dec Nat.eq_dec x side) as [Hin | Hnin];
      [| destruct (in_dec Nat.eq_dec x (map (fun a => Side.connection (h a)) side))
           as [Hinc | Hninc]].
    + apply side_record_ext.
      * rewrite fluxCalculation_other_fields. reflexivity.
      * unfold h' at 2.
        apply fluxCalculation_flux_same_mesh; [assumption | now left].
    + apply side_record_ext.
      * rewrite fluxCalculation_other_fields. reflexivity.
      * unfold h' at 2.
        apply fluxCalculation_flux_same_mesh; [assumption | right; now rewrite Hmap].
    + apply fluxCalculation_frame; [assumption | now rewrite Hmap].
  - intros f0 x Hx.
    set (h0 := fun y => Side.set_flux (h y) (f0 y)).
    assert (Hsame : same_mesh h0 h).
    { intros y. unfold h0. destruct (h y). reflexivity. }
    apply side_record_ext.
    + rewrite !fluxCalculation_other_fields. apply Hsame.
    + apply fluxCalculation_flux_same_mesh; [assumption |].
      destruct Hx as [Hx | Hx]; [now left | right].
      rewrite (map_ext _ (fun a => Side.connection (h a))); [assumption |].
      intros y. unfold h0. destruct (h y). reflexivity.
Qed.

(** * The viscous part of the face flux *)

Lemma side_fluxDiff_gradients (es : elem_store) (h : side_store)
    (aSide : Side.t) :
  side_fluxDiff es h aSide
  = diffusionFlux
      (mean4 (Side.pVar (h (Side.connection aSide))) (Side.pVar aSide))
      (fst (side_gradients es h aSide)) (snd (side_gradients es h aSide))
      zero4 zero4.
Proof. reflexivity. Qed.

Lemma baryBary_unit (aSide : Side.t) :
  0 < Side.baryBaryDist aSide ->
  (Side.baryBaryVec aSide).<X> * (Side.baryBaryVec aSide).<X>
  + (Side.baryBaryVec aSide).<Y> * (Side.baryBaryVec aSide).<Y>
  = Side.baryBaryDist aSide * Side.baryBaryDist aSide ->
  (side_baryBary aSide).<X> * (side_baryBary aSide).<X>
  + (side_baryBary aSide).<Y> * (side_baryBary aSide).<Y> = 1.
Proof.
  intros Hd Hv. unfold side_baryBary, X, Y in *. cbn [get2 d0 d1] in *.
  set (vx := d0 (Side.baryBaryVec aSide)) in *.
  set (vy := d1 (Side.baryBaryVec aSide)) in *.
  set (d := Side.baryBaryDist aSide) in *.
  replace (vx / d * (vx / d) + vy / d * (vy / d))
    with ((vx * vx + vy * vy) * (/ d * / d)) by (unfold Rdiv; ring).
  rewrite Hv. field. lra.
Qed.

(** The gradients handed to [diffusionFlux] are the mean of the two cell
    gradients, corrected along the line that joins the two barycentres.
    When [baryBaryDist] is the length of [baryBaryVec], the directional
    derivative of every variable along that line is the difference
    quotient of the two cell averages, and the component across the line is
    the one of the mean gradient. *)
Theorem side_gradients_corrected (es : elem_store) (h : side_store)
    (aSide : Side.t) :
  0 < Side.baryBaryDist aSide ->
  (Side.baryBaryVec aSide).<X> * (Side.baryBaryVec aSide).<X>
  + (Side.baryBaryVec aSide).<Y> * (Side.baryBaryVec aSide).<Y>
  = Side.baryBaryDist aSide * Side.baryBaryDist aSide ->
  let el := es (Side.elem aSide) in
  let elc := es (Side.elem (h (Side.connection aSide))) in
  let b := side_baryBary aSide in
  let gradUx := fst (side_gradients es h aSide) in
  let gradUy := snd (side_gradients es h aSide) in
  side_fluxDiff es h aSide
  = diffusionFlux
      (mean4 (Side.pVar (h (Side.connection aSide))) (Side.pVar aSide))
      gradUx gradUy zero4 zero4 /\
  forall i : nat,
    gradUx.[i] * b.<X> + gradUy.[i] * b.<Y>
    = ((Elem.pVar elc).[i] - (Elem.pVar el).[i]) / Side.baryBaryDist aSide /\
    gradUx.[i] * b.<Y> - gradUy.[i] * b.<X>
    = (fst (side_gradMean es h aSide)).[i] * b.<Y>
      - (snd (side_gradMean es h aSide)).[i] * b.<X>.
Proof.
  intros Hd Hv el elc b gradUx gradUy.
  split; [apply side_fluxDiff_gradients |].
  pose proof (baryBary_unit aSide Hd Hv) as Hb. fold b in Hb.
  intros i.
  unfold gradUx, gradUy, side_gradients, side_gradMean. cbv zeta.
  fold el elc b.
  set (gx := mean4 (Elem.u_x el) (Elem.u_x elc)).
  set (gy := mean4 (Elem.u_y el) (Elem.u_y elc)).
  cbn [fst snd].
  set (bx := b.<X>) in *. set (by_ := b.<Y>) in *.
  set (d := Side.baryBaryDist aSide).
  destruct i as [| [| [| i]]]; unfold RHO, VX, VY, P;
    cbn [get4 at0 at1 at2 at3];
    match goal with
    | |- (?G1 - ?C * bx) * bx + (?G2 - _ * by_) * by_ = ?D /\ _ =>
        split;
        [ transitivity (G1 * bx + G2 * by_ - C * (bx * bx + by_ * by_));
          [ring | rewrite Hb; ring]
        | ring ]
    end.
Qed.

Lemma diffusionFlux_zero_viscosity (state gradX gradY : arr4) :
  mu = 0 -> diffusionFlux state gradX gradY zero4 zero4 = (zero4, zero4).
Proof.
  intros Hmu. unfold diffusionFlux, zero4, RHO, MX, MY, E, P. cbv zeta.
  rewrite Hmu.
  apply f_equal2; apply arr4_ext; cbn [get4 at0 at1 at2 at3]; ring.
Qed.

Lemma diffusionFlux_zero_gradients (state : arr4) :
  diffusionFlux state zero4 zero4 zero4 zero4 = (zero4, zero4).
Proof.
  unfold diffusionFlux, zero4, RHO, MX, MY, E, P. cbv zeta.
  apply f_equal2; apply arr4_ext; cbn [get4 at0 at1 at2 at3];
    unfold Rdiv; ring.
Qed.

Lemma sub_diffusion_zero (flux : arr4) (n : arr2) :
  sub_diffusion flux n zero4 zero4 = flux.
Proof.
  unfold sub_diffusion, zero4, RHO, MX, MY, E.
  apply arr4_ext; cbn [get4 at0 at1 at2 at3]; ring.
Qed.

Lemma side_gradients_uniform (es : elem_store) (h : side_store)
    (aSide : Side.t) :
  Elem.u_x (es (Side.elem aSide)) = zero4 ->
  Elem.u_y (es (Side.elem aSide)) = zero4 ->
  Elem.u_x (es (Side.elem (h (Side.connection aSide)))) = zero4 ->
  Elem.u_y (es (Side.elem (h (Side.connection aSide)))) = zero4 ->
  Elem.pVar (es (Side.elem (h (Side.connection aSide))))
  = Elem.pVar (es (Side.elem aSide)) ->
  side_gradients es h aSide = (zero4, zero4).
Proof.
  intros H1 H2 H3 H4 H5.
  unfold side_gradients, side_gradMean, mean4. cbv zeta.
  rewrite H1, H2, H3, H4, H5.
  unfold zero4, RHO, VX, VY, P.
  apply f_equal2; apply arr4_ext; cbn [get4 at0 at1 at2 at3];
    unfold Rdiv; ring.
Qed.

(** The viscous build computes the flux of the inviscid build when there is
    nothing to diffuse: when the viscosity [mu] is zero, and also when the
    two cells of the face hold zero gradients and the same averages. *)
Theorem side_flux_no_viscous_part (es : elem_store) (h : side_store)
    (a : addr) :
  mu = 0 \/
  (Elem.u_x (es (Side.elem (h a))) = zero4 /\
   Elem.u_y (es (Side.elem (h a))) = zero4 /\
   Elem.u_x (es (Side.elem (h (Side.connection (h a))))) = zero4 /\
   Elem.u_y (es (Side.elem (h (Side.connection (h a))))) = zero4 /\
   Elem.pVar (es (Side.elem (h (Side.connection (h a)))))
   = Elem.pVar (es (Side.elem (h a)))) ->
  side_flux es h a = side_flux_euler h a.
Proof.
  intros H. unfold side_flux, side_flux_euler. cbv zeta.
  destruct navierstokes; [| reflexivity].
  assert (Hz : side_fluxDiff es h (h a) = (zero4, zero4)).
  { destruct H as [Hmu | (H1 & H2 & H3 & H4 & H5)].
    - rewrite side_fluxDiff_gradients. now apply diffusionFlux_zero_viscosity.
    - rewrite side_fluxDiff_gradients, side_gradients_uniform by assumption.
      apply diffusionFlux_zero_gradients. }
  rewrite Hz. now rewrite sub_diffusion_zero.
Qed.

(** The two diffusive flux vectors are the columns of a symmetric stress
    tensor whose trace is 2/3 mu times the divergence of the velocity
    (Stokes' hypothesis), and each energy flux is the work of that stress
    on the velocity plus a heat flux; the entries [RHO] are the ones
    passed in. *)
Theorem diffusionFlux_stress (state gradX gradY f g : arr4) :
  let F := fst (diffusionFlux state gradX gradY f g) in
  let G := snd (diffusionFlux state gradX gradY f g) in
  let k := gam / (gam1 * Pr * state.[RHO] * state.[RHO]) * mu in
  F.[MY] = G.[MX] /\
  F.[MX] + G.[MY] = 2 / 3 * mu * (gradX.[VX] + gradY.[VY]) /\
  F.[E] = state.[VX] * F.[MX] + state.[VY] * F.[MY]
          + k * (state.[RHO] * gradX.[P] - state.[P] * gradX.[RHO]) /\
  G.[E] = state.[VX] * G.[MX] + state.[VY] * G.[MY]
          + k * (state.[RHO] * gradY.[P] - state.[P] * gradY.[RHO]) /\
  F.[RHO] = f.[RHO] /\ G.[RHO] = g.[RHO].
Proof.
  unfold diffusionFlux, RHO, MX, MY, VX, VY, E, P. cbv zeta.
  cbn [fst snd get4 at0 at1 at2 at3].
  repeat split; unfold Rdiv; ring.
Qed.

(** * The two records of one face *)

Lemma reflect4_zero4 : reflect4 zero4 = zero4.
Proof.
  unfold reflect4, zero4. apply arr4_ext; cbn [get4 at0 at1 at2 at3]; ring.
Qed.

Lemma convectiveFlux_reflection :
  1 < gam ->
  iFlux <> GOD ids -> iFlux <> HLLC ids -> iFlux <> AUSMDV ids ->
  forall rhoL rhoR vxL vxR vyL vyR pL pR : R,
    0 < rhoL -> 0 < rhoR -> 0 < pL -> 0 < pR ->
    convectiveFlux rhoR rhoL (- vxR) (- vxL) (- vyR) (- vyL) pR pL zero4
    = reflect4 (convectiveFlux rhoL rhoR vxL vxR vyL vyR pL pR zero4).
Proof.
  intros Hg NG NC NV rhoL rhoR vxL vxR vyL vyR pL pR HrL HrR HpL HpR.
  unfold convectiveFlux.
  destruct (Z.eqb_spec iFlux (GOD ids)); [contradiction |].
  destruct (Z.eqb_spec iFlux (ROE ids));
    [now apply (flux_roe_reflection Hg) |].
  destruct (Z.eqb_spec iFlux (HLL ids)); [now apply flux_hll_reflection |].
  destruct (Z.eqb_spec iFlux (HLLE ids)); [now apply flux_hlle_reflection |].
  destruct (Z.eqb_spec iFlux (HLLC ids)); [contradiction |].
  destruct (Z.eqb_spec iFlux (LXF ids)); [now apply flux_lxf_reflection |].
  destruct (Z.eqb_spec iFlux (STW ids)); [now apply flux_stw_reflection |].
  destruct (Z.eqb_spec iFlux (CEN ids)); [now apply flux_cen_reflection |].
  destruct (Z.eqb_spec iFlux (AUSMD ids)); [now apply flux_ausmd_reflection |].
  destruct (Z.eqb_spec iFlux (AUSMDV ids)); [contradiction |].
  destruct (Z.eqb_spec iFlux (VANLEER ids));
    [now apply flux_vanleer_reflection |].
  symmetry. apply reflect4_zero4.
Qed.

Lemma side_fluxConv_twin (n : arr2) (pA pC : arr4) :
  1 < gam ->
  iFlux <> GOD ids -> iFlux <> HLLC ids -> iFlux <> AUSMDV ids ->
  admissible pA -> admissible pC ->
  side_fluxConv (mk2 (- n.<X>) (- n.<Y>)) pC pA
  = reflect4 (side_fluxConv n pA pC).
Proof.
  intros Hg NG NC NV [HrA HpA] [HrC HpC].
  unfold side_fluxConv, rotate, RHO, VX, VY, P, X, Y in *. cbv zeta.
  cbn [get4 get2 at0 at1 at2 at3 d0 d1] in *.
  rewrite <- (convectiveFlux_reflection Hg NG NC NV) by assumption.
  f_equal; ring.
Qed.

Lemma rotate_back_twin (n : arr2) (f : arr4) :
  rotate_back (mk2 (- n.<X>) (- n.<Y>)) (reflect4 f)
  = neg4 (rotate_back n f).
Proof.
  unfold rotate_back, reflect4, neg4, RHO, MX, MY, E, X, Y.
  apply arr4_ext; cbn [get4 get2 at0 at1 at2 at3 d0 d1]; ring.
Qed.

Lemma mean4_comm (x y : arr4) : mean4 x y = mean4 y x.
Proof.
  unfold mean4, RHO, VX, VY, P.
  apply arr4_ext; cbn [get4 at0 at1 at2 at3]; ring.
Qed.

Lemma side_fluxDiff_twin (es : elem_store) (h : side_store) (a c : addr) :
  twin_sides h a c ->
  side_fluxDiff es h (h c) = side_fluxDiff es h (h a).
Proof.
  intros (Hac & Hca & Hn & Hl & Hv & Hd).
  rewrite !side_fluxDiff_gradients, Hac, Hca.
  rewrite (mean4_comm (Side.pVar (h a))).
  assert (Hgr : side_gradients es h (h c) = side_gradients es h (h a)).
  { unfold side_gradients, side_gradMean, side_baryBary. cbv zeta.
    rewrite Hac, Hca, Hv, Hd.
    rewrite (mean4_comm (Elem.u_x (es (Side.elem (h c))))),
            (mean4_comm (Elem.u_y (es (Side.elem (h c))))).
    unfold mean4, RHO, VX, VY, P, X, Y.
    apply f_equal2; apply arr4_ext; cbn [get4 get2 at0 at1 at2 at3 d0 d1];
      unfold Rdiv; ring. }
  now rewrite Hgr.
Qed.

Lemma side_flux_of_twin (es : elem_store) (h : side_store) (a c : addr) :
  1 < gam ->
  iFlux <> GOD ids -> iFlux <> HLLC ids -> iFlux <> AUSMDV ids ->
  twin_sides h a c ->
  admissible (Side.pVar (h a)) -> admissible (Side.pVar (h c)) ->
  side_flux es h c = neg4 (side_flux es h a).
Proof.
  intros Hg NG NC NV Htw HA HC.
  pose proof (side_fluxDiff_twin es h a c Htw) as Hdiff.
  destruct Htw as (Hac & Hca & Hn & Hl & Hv & Hd).
  unfold side_flux. cbv zeta.
  rewrite Hac, Hca, Hn, Hl, Hdiff.
  rewrite (side_fluxConv_twin (Side.n (h a)) (Side.pVar (h a))
             (Side.pVar (h c)) Hg NG NC NV HA HC).
  rewrite rotate_back_twin.
  destruct navierstokes.
  - destruct (side_fluxDiff es h (h a)) as [fx fy].
    unfold sub_diffusion, scale4, neg4, RHO, MX, MY, E, X, Y.
    apply arr4_ext; cbn [get4 get2 at0 at1 at2 at3 d0 d1]; ring.
  - unfold scale4, neg4.
    apply arr4_ext; cbn [get4 at0 at1 at2 at3]; ring.
Qed.

(** Which of the two records of a face the loop visits makes no
    difference.  For gamma > 1, an identifier that selects none of the
    Godunov, HLLC and AUSMDV kernels, and admissible states on both sides:
    the flux computed from the connection's record, with the opposite
    normal, is the negative of the flux computed from the side's record,
    in either build; so one pass over the connection alone leaves the
    store that one pass over the side alone leaves. *)
Theorem side_flux_twin (es : elem_store) (h : side_store) (a c : addr) :
  1 < gam ->
  iFlux <> GOD ids -> iFlux <> HLLC ids -> iFlux <> AUSMDV ids ->
  twin_sides h a c ->
  admissible (Side.pVar (h a)) -> admissible (Side.pVar (h c)) ->
  side_flux es h c = neg4 (side_flux es h a) /\
  forall x : addr,
    fluxCalculation es [c] h x = fluxCalculation es [a] h x.
Proof.
  intros Hg NG NC NV Htw HA HC.
  pose proof (side_flux_of_twin es h a c Hg NG NC NV Htw HA HC) as Hflux.
  split; [exact Hflux |].
  intros x. destruct Htw as (Hac & Hca & _).
  change (fluxCalculation_body es h c x = fluxCalculation_body es h a x).
  apply side_record_ext.
  - rewrite !body_other_fields. reflexivity.
  - rewrite !body_flux_cases, Hac, Hca.
    destruct (Nat.eqb_spec x a) as [Hxa | Hxa];
      destruct (Nat.eqb_spec x c) as [Hxc | Hxc].
    + assert (Heq : a = c) by congruence. now rewrite Heq.
    + now rewrite Hflux, neg4_involutive.
    + exact Hflux.
    + reflexivity.
Qed.

(** * The source term *)

Lemma skipn_cons_nth (A : Type) (d : A) :
  forall (l : list A) (i : nat),
    (i < length l)%nat -> skipn i l = nth i l d :: skipn (S i) l.
Proof.
  induction l as [| x l IH]; intros i Hi; simpl in Hi.
  - exfalso. inversion Hi.
  - destruct i as [| i]; [reflexivity |].
    simpl. apply IH. now apply PeanoNat.lt_S_n.
Qed.

Lemma evalSource_local (x : arr2) (time : R) (s : arr4) :
  sourceFunc = 1%Z \/ s = zero4 ->
  evalSource sourceFunc x time s = source_at x time.
Proof.
  intros [H | H]; unfold source_at, evalSource.
  - rewrite H. reflexivity.
  - now rewrite H.
Qed.

Lemma source_at_invariant (x : arr2) (time : R) :
  sourceFunc = 1%Z \/ source_at x time = zero4.
Proof.
  destruct (Z.eq_dec sourceFunc 1) as [H | H]; [now left | right].
  unfold source_at, evalSource.
  destruct (Z.eqb_spec sourceFunc 1); [contradiction | reflexivity].
Qed.

Lemma add4_assoc (a b c : arr4) : add4 (add4 a b) c = add4 a (add4 b c).
Proof.
  unfold add4. apply arr4_ext; cbn [get4 at0 at1 at2 at3]; ring.
Qed.

Lemma add4_zero_l (a : arr4) : add4 zero4 a = a.
Proof.
  unfold add4, zero4. apply arr4_ext; cbn [get4 at0 at1 at2 at3]; ring.
Qed.

Lemma add4_zero_r (a : arr4) : add4 a zero4 = a.
Proof.
  unfold add4, zero4. apply arr4_ext; cbn [get4 at0 at1 at2 at3]; ring.
Qed.

Lemma calcSource_gp_quadrature (e : Elem.t) (time : R) :
  forall (count iGP : nat) (acc source : arr4),
    sourceFunc = 1%Z \/ source = zero4 ->
    (iGP + count <= length (Elem.xGP e))%nat ->
    (iGP + count <= length (Elem.wGP e))%nat ->
    calcSource_gp e time iGP count acc source
    = add4 acc
        (quadrature time
           (combine (firstn count (skipn iGP (Elem.xGP e)))
                    (firstn count (skipn iGP (Elem.wGP e))))).
Proof.
  induction count as [| count IH]; intros iGP acc source Hs Hx Hw.
  - simpl. now rewrite add4_zero_r.
  - cbn [calcSource_gp]. cbv zeta.
    rewrite (evalSource_local _ _ _ Hs).
    rewrite IH;
      [| apply source_at_invariant
       | rewrite <- Nat.add_succ_comm in Hx; exact Hx
       | rewrite <- Nat.add_succ_comm in Hw; exact Hw].
    rewrite (skipn_cons_nth arr2 (mk2 0 0) (Elem.xGP e) iGP)
      by (apply Nat.lt_le_trans with (iGP + S count)%nat;
          [rewrite Nat.add_succ_r; apply Nat.lt_succ_r, Nat.le_add_r | exact Hx]).
    rewrite (skipn_cons_nth R 0 (Elem.wGP e) iGP)
      by (apply Nat.lt_le_trans with (iGP + S count)%nat;
          [rewrite Nat.add_succ_r; apply Nat.lt_succ_r, Nat.le_add_r | exact Hw]).
    cbn [firstn combine quadrature fold_right fst snd].
    fold (quadrature time
            (combine (firstn count (skipn (S iGP) (Elem.xGP e)))
                     (firstn count (skipn (S iGP) (Elem.wGP e))))).
    rewrite <- add4_assoc. reflexivity.
Qed.

Lemma calcSource_elem_quadrature (time : R) (e : Elem.t) :
  length (Elem.xGP e) = Elem.nGP e ->
  length (Elem.wGP e) = Elem.nGP e ->
  Elem.source (calcSource_elem time e)
  = quadrature time (combine (Elem.xGP e) (Elem.wGP e)).
Proof.
  intros Hx Hw. destruct e as [pv ux uy src n xs ws].
  cbn [Elem.xGP Elem.wGP Elem.nGP] in Hx, Hw.
  unfold calcSource_elem, Elem.set_source. cbv zeta.
  cbn [Elem.source Elem.nGP Elem.pVar Elem.u_x Elem.u_y Elem.xGP Elem.wGP].
  rewrite calcSource_gp_quadrature;
    [| now right
     | cbn [Elem.xGP]; rewrite Hx; apply Nat.le_refl
     | cbn [Elem.wGP]; rewrite Hw; apply Nat.le_refl].
  cbn [Elem.xGP Elem.wGP skipn].
  rewrite <- Hx at 1. rewrite <- Hw. rewrite !firstn_all.
  apply add4_zero_l.
Qed.

(** The double loop computes the quadrature sum.  For every visited element
    whose arrays [xGP] and [wGP] hold [nGP] entries, the accumulator is left
    at the sum over the Gauss points of weight times source term at the
    point; all other fields of the record are as before. *)
Theorem calcSource_quadrature (time : R) (elem : list addr) (es : elem_store)
    (a : addr) :
  In a elem ->
  length (Elem.xGP (es a)) = Elem.nGP (es a) ->
  length (Elem.wGP (es a)) = Elem.nGP (es a) ->
  Elem.source (calcSource time elem es a)
  = quadrature time (combine (Elem.xGP (es a)) (Elem.wGP (es a))) /\
  Elem.set_source (calcSource time elem es a) (Elem.source (es a)) = es a.
Proof.
  intros Hin Hx Hw. rewrite calcSource_at.
  destruct (in_dec Nat.eq_dec a elem) as [_ | Hn]; [| contradiction].
  split; [now apply calcSource_elem_quadrature |].
  destruct (es a). reflexivity.
Qed.

Lemma calcSource_gp_zero (e : Elem.t) (time : R) :
  sourceFunc <> 1%Z ->
  forall count iGP : nat,
    calcSource_gp e time iGP count zero4 zero4 = zero4.
Proof.
  intros Hne. induction count as [| count IH]; intros iGP; [reflexivity |].
  cbn [calcSource_gp]. cbv zeta.
  assert (Hev : forall x, evalSource sourceFunc x time zero4 = zero4).
  { intros x. unfold evalSource.
    destruct (Z.eqb_spec sourceFunc 1); [contradiction | reflexivity]. }
  rewrite Hev.
  replace (mk4 (zero4.[RHO] + zero4.[RHO] * nth iGP (Elem.wGP e) 0)
               (zero4.[VX] + zero4.[VX] * nth iGP (Elem.wGP e) 0)
               (zero4.[VY] + zero4.[VY] * nth iGP (Elem.wGP e) 0)
               (zero4.[E] + zero4.[E] * nth iGP (Elem.wGP e) 0))
    with zero4; [apply IH |].
  unfold zero4, RHO, VX, VY, E.
  apply arr4_ext; cbn [get4 at0 at1 at2 at3]; ring.
Qed.

(** A source identifier other than 1 matches no case label of
    [evalSource]: the evaluator returns without writing its output array,
    and [calcSource] leaves a zero source in every element it visits,
    whatever the quadrature data; no error is raised. *)
Theorem calcSource_unknown_source :
  sourceFunc <> 1%Z ->
  (forall (x : arr2) (time : R) (source : arr4),
     evalSource sourceFunc x time source = source) /\
  (forall (time : R) (elem : list addr) (es : elem_store) (a : addr),
     In a elem -> Elem.source (calcSource time elem es a) = zero4).
Proof.
  intros Hne. split.
  - intros x time source. unfold evalSource.
    destruct (Z.eqb_spec sourceFunc 1); [contradiction | reflexivity].
  - intros time elem es a Hin. rewrite calcSource_at.
    destruct (in_dec Nat.eq_dec a elem) as [_ | Hn]; [| contradiction].
    destruct (es a) as [pv ux uy src n xs ws].
    unfold calcSource_elem, Elem.set_source. cbv zeta.
    cbn [Elem.source Elem.nGP Elem.pVar Elem.u_x Elem.u_y Elem.xGP Elem.wGP].
    now apply calcSource_gp_zero.
Qed.

Lemma cos_shift_fwd (t : R) : cos (t + 2 * PI) = cos t.
Proof.
  rewrite <- (cos_period t 1). f_equal. simpl INR. ring.
Qed.

Lemma sin_shift_fwd (t : R) : sin (t + 2 * PI) = sin t.
Proof.
  rewrite <- (sin_period t 1). f_equal. simpl INR. ring.
Qed.

Lemma cos_shift_back (t : R) : cos (t - 2 * PI) = cos t.
Proof.
  rewrite <- (cos_shift_fwd (t - 2 * PI)). f_equal. ring.
Qed.

Lemma sin_shift_back (t : R) : sin (t - 2 * PI) = sin t.
Proof.
  rewrite <- (sin_shift_fwd (t - 2 * PI)). f_equal. ring.
Qed.

Lemma evalSource_phase (x y : arr2) (s t : R) (src : arr4) :
  let ph (z : arr2) (u : R) := PI * 1 * (z.<X> + z.<Y>) - 2 * PI * u in
  cos (ph y t) = cos (ph x s) ->
  sin (ph y t) = sin (ph x s) ->
  sin (2 * ph y t) = sin (2 * ph x s) ->
  evalSource 1 y t src = evalSource 1 x s src.
Proof.
  intros ph Hc Hs Hs2. unfold evalSource. cbn [Z.eqb Pos.eqb]. cbv zeta.
  fold (ph y t) (ph x s). now rewrite Hc, Hs, Hs2.
Qed.

(** The manufactured source (identifier 1) is a plane wave in the phase
    pi (x + y) - 2 pi t.  Its two momentum components are equal; it is
    symmetric in the two coordinates and constant along the lines
    x + y = const; it is carried along unchanged when the point moves by
    2 d in x while time advances by d; and it has period 1 in time and
    period 2 in each coordinate. *)
Theorem evalSource_plane_wave (x0 x1 time d : R) (source : arr4) :
  let S := evalSource 1 (mk2 x0 x1) time source in
  S.[VY] = S.[VX] /\
  evalSource 1 (mk2 x1 x0) time source = S /\
  evalSource 1 (mk2 (x0 + d) (x1 - d)) time source = S /\
  evalSource 1 (mk2 (x0 + 2 * d) x1) (time + d) source = S /\
  evalSource 1 (mk2 x0 x1) (time + 1) source = S /\
  evalSource 1 (mk2 (x0 + 2) x1) time source = S /\
  evalSource 1 (mk2 x0 (x1 + 2)) time source = S.
Proof.
  intros S. unfold S.
  split; [reflexivity |].
  split; [| split; [| split; [| split; [| split]]]].
  - assert (Hph : PI * 1 * (x1 + x0) - 2 * PI * time
                  = PI * 1 * (x0 + x1) - 2 * PI * time) by ring.
    apply evalSource_phase; unfold X, Y; cbn [get2 d0 d1]; now rewrite Hph.
  - assert (Hph : PI * 1 * (x0 + d + (x1 - d)) - 2 * PI * time
                  = PI * 1 * (x0 + x1) - 2 * PI * time) by ring.
    apply evalSource_phase; unfold X, Y; cbn [get2 d0 d1]; now rewrite Hph.
  - assert (Hph : PI * 1 * (x0 + 2 * d + x1) - 2 * PI * (time + d)
                  = PI * 1 * (x0 + x1) - 2 * PI * time) by ring.
    apply evalSource_phase; unfold X, Y; cbn [get2 d0 d1]; now rewrite Hph.
  - assert (Hph : PI * 1 * (x0 + x1) - 2 * PI * (time + 1)
                  = PI * 1 * (x0 + x1) - 2 * PI * time - 2 * PI) by ring.
    apply evalSource_phase; unfold X, Y; cbn [get2 d0 d1]; rewrite Hph.
    + apply cos_shift_back.
    + apply sin_shift_back.
    + replace (2 * (PI * 1 * (x0 + x1) - 2 * PI * time - 2 * PI))
        with (2 * (PI * 1 * (x0 + x1) - 2 * PI * time) - 2 * PI - 2 * PI)
        by ring.
      now rewrite !sin_shift_back.
  - assert (Hph : PI * 1 * (x0 + 2 + x1) - 2 * PI * time
                  = PI * 1 * (x0 + x1) - 2 * PI * time + 2 * PI) by ring.
    apply evalSource_phase; unfold X, Y; cbn [get2 d0 d1]; rewrite Hph.
    + apply cos_shift_fwd.
    + apply sin_shift_fwd.
    + replace (2 * (PI * 1 * (x0 + x1) - 2 * PI * time + 2 * PI))
        with (2 * (PI * 1 * (x0 + x1) - 2 * PI * time) + 2 * PI + 2 * PI)
        by ring.
      now rewrite !sin_shift_fwd.
  - assert (Hph : PI * 1 * (x0 + (x1 + 2)) - 2 * PI * time
                  = PI * 1 * (x0 + x1) - 2 * PI * time + 2 * PI) by ring.
    apply evalSource_phase; unfold X, Y; cbn [get2 d0 d1]; rewrite Hph.
    + apply cos_shift_fwd.
    + apply sin_shift_fwd.
    + replace (2 * (PI * 1 * (x0 + x1) - 2 * PI * time + 2 * PI))
        with (2 * (PI * 1 * (x0 + x1) - 2 * PI * time) + 2 * PI + 2 * PI)
        by ring.
      now rewrite !sin_shift_fwd.
Qed.

(** * Structure of single kernels *)

(** ** Central and Lax-Friedrichs *)

(** The central flux is the mean of the two physical fluxes, and the
    Lax-Friedrichs flux is the central flux minus a dissipation
    a (UR - UL) / 2 in the conserved variables, where the speed
    a = max (|vxR| + cR, |vxL| + cL) bounds the magnitude of every
    characteristic speed v - c, v, v + c of both states. *)
Theorem flux_lxf_central_dissipation (rhoL rhoR vxL vxR vyL vyR pL pR : R) :
  let a := Rmax (Rabs vxR + sound_speed rhoR pR)
                (Rabs vxL + sound_speed rhoL pL) in
  let UL := conserved rhoL vxL vyL pL in
  let UR := conserved rhoR vxR vyR pR in
  let FL := physical_flux rhoL vxL vyL pL in
  let FR := physical_flux rhoR vxR vyR pR in
  (forall i : nat,
     (flux_cen rhoL rhoR vxL vxR vyL vyR pL pR).[i]
     = 0.5 * (FL.[i] + FR.[i]) /\
     (flux_lxf rhoL rhoR vxL vxR vyL vyR pL pR).[i]
     = (flux_cen rhoL rhoR vxL vxR vyL vyR pL pR).[i]
       - 0.5 * a * (UR.[i] - UL.[i])) /\
  Rabs (vxL - sound_speed rhoL pL) <= a /\ Rabs vxL <= a /\
  Rabs (vxL + sound_speed rhoL pL) <= a /\
  Rabs (vxR - sound_speed rhoR pR) <= a /\ Rabs vxR <= a /\
  Rabs (vxR + sound_speed rhoR pR) <= a.
Proof.
  intros a UL UR FL FR. split.
  - intros i. unfold flux_cen, flux_lxf, fmax, fabs. cbv zeta.
    rewrite !code_sound_speed', !code_energy. fold a.
    unfold UL, UR, FL, FR, conserved, physical_flux. cbv zeta.
    destruct i as [| [| [| i]]]; cbn [get4 at0 at1 at2 at3]; split; ring.
  - assert (HcL : 0 <= sound_speed rhoL pL) by apply sqrt_pos.
    assert (HcR : 0 <= sound_speed rhoR pR) by apply sqrt_pos.
    pose proof (Rmax_l (Rabs vxR + sound_speed rhoR pR)
                  (Rabs vxL + sound_speed rhoL pL)) as Hl.
    pose proof (Rmax_r (Rabs vxR + sound_speed rhoR pR)
                  (Rabs vxL + sound_speed rhoL pL)) as Hr.
    fold a in Hl, Hr.
    pose proof (Rabs_pos vxL). pose proof (Rabs_pos vxR).
    repeat split;
      try (apply Rabs_le; unfold Rabs in *;
           destruct (Rcase_abs vxL); destruct (Rcase_abs vxR); lra).
Qed.

(** ** Entropy fix of the Roe kernel *)

Lemma roe_fix_between (a al ar : R) :
  Rabs a <= roe_fix a al ar /\
  roe_fix a al ar <= Rmax (Rabs a) (Rmax (Rmax 0 (a - al)) (ar - a)).
Proof.
  unfold roe_fix, fmax, fabs. cbv zeta.
  set (da := Rmax (Rmax 0 (a - al)) (ar - a)).
  destruct (Rltb_spec (Rabs a) da) as [[H ->] | [H ->]].
  - pose proof (Rabs_pos a) as Hp.
    assert (Hsq : a * a = Rabs a * Rabs a).
    { unfold Rabs. destruct (Rcase_abs a); ring. }
    rewrite Hsq. set (x := Rabs a) in *.
    rewrite (Rmax_right x da) by lra.
    assert (Hd : 0 < da) by lra.
    assert (E1 : 0.5 * (x * x / da + da) - x = (x - da) * (x - da) / (2 * da))
      by (decimals; field; lra).
    assert (E2 : da - 0.5 * (x * x / da + da) = (da - x) * (da + x) / (2 * da))
      by (decimals; field; lra).
    assert (0 <= (x - da) * (x - da) / (2 * da)).
    { apply Rmult_le_pos; [apply Rle_0_sqr |].
      left. apply Rinv_0_lt_compat. lra. }
    assert (0 <= (da - x) * (da + x) / (2 * da)).
    { apply Rmult_le_pos; [apply Rmult_le_pos; lra |].
      left. apply Rinv_0_lt_compat. lra. }
    lra.
  - split; [lra | apply Rmax_l].
Qed.

Lemma roe_fix_nonneg (a al ar : R) : fabs (roe_fix a al ar) = roe_fix a al ar.
Proof.
  unfold fabs. apply Rabs_pos_eq.
  pose proof (Rabs_pos a). pose proof (roe_fix_between a al ar). lra.
Qed.

Lemma roe_fix_inactive (a al ar : R) :
  Rmax (Rmax 0 (a - al)) (ar - a) <= Rabs a -> roe_fix a al ar = Rabs a.
Proof.
  intros Hle. unfold roe_fix, fmax, fabs. cbv zeta.
  now rewrite (Rltb_ge (Rabs a) _) by assumption.
Qed.

(** The entropy fix never lowers the dissipation: the fixed eigenvalue is
    at least |a| (so it is not negative, and the [fabs] applied to it in
    the flux is the identity), at most the larger of |a| and the width
    da = max (0, a - al, ar - a), and it is |a| itself when that width does
    not exceed |a|. *)
Theorem roe_fix_bounds (a al ar : R) :
  let da := Rmax (Rmax 0 (a - al)) (ar - a) in
  Rabs a <= roe_fix a al ar /\
  roe_fix a al ar <= Rmax (Rabs a) da /\
  fabs (roe_fix a al ar) = roe_fix a al ar /\
  (da <= Rabs a -> roe_fix a al ar = Rabs a).
Proof.
  intros da.
  destruct (roe_fix_between a al ar) as [Hlo Hhi].
  split; [exact Hlo |]. split; [exact Hhi |].
  split; [apply roe_fix_nonneg | apply roe_fix_inactive].
Qed.

(** ** Van Leer at Mach one *)

(** At a sonic point the van Leer kernel loses the flux.  For gamma > 1
    and any state of positive density and pressure that moves with its own
    sound speed c, in either direction, the kernel called with that state
    on both sides returns the zero vector, although the physical mass flux
    is rho c or - rho c. *)
Theorem flux_vanleer_sonic (rho vt p : R) :
  1 < gam -> 0 < rho -> 0 < p ->
  let c := sound_speed rho p in
  flux_vanleer rho rho c c vt vt p p = zero4 /\
  flux_vanleer rho rho (- c) (- c) vt vt p p = zero4 /\
  0 < (physical_flux rho c vt p).[RHO] /\
  (physical_flux rho (- c) vt p).[RHO] < 0.
Proof.
  intros Hg Hr Hp c.
  pose proof (sound_speed_pos rho p Hg Hr Hp) as Hc. fold c in Hc.
  assert (E1 : c / c = 1) by (field; lra).
  assert (E2 : - c / c = - 1) by (field; lra).
  split; [| split; [| split]].
  - unfold flux_vanleer. cbv zeta. rewrite !code_sound_speed'. fold c.
    rewrite E1. decide_cmp. cbn [andb get4 at0 at1 at2 at3].
    unfold zero4. f_equal; ring.
  - unfold flux_vanleer. cbv zeta. rewrite !code_sound_speed'. fold c.
    rewrite E2. decide_cmp. cbn [andb get4 at0 at1 at2 at3].
    unfold zero4. f_equal; ring.
  - unfold physical_flux, RHO. cbv zeta. cbn [get4 at0]. nra.
  - unfold physical_flux, RHO. cbv zeta. cbn [get4 at0]. nra.
Qed.

(** ** Supersonic flow *)

Lemma supersonic_setup (rhoL rhoR pL pR : R) :
  1 < gam -> 0 < rhoL -> 0 < rhoR -> 0 < pL -> 0 < pR ->
  let cL := sound_speed rhoL pL in
  let cR := sound_speed rhoR pR in
  0 < cL /\ 0 < cR /\ cL <= Rmax cL cR /\ cR <= Rmax cL cR /\
  pL = cL * cL * rhoL / gam /\ pR = cR * cR * rhoR / gam.
Proof.
  intros Hg HrL HrR HpL HpR cL cR.
  pose proof (sound_speed_pos rhoL pL Hg HrL HpL).
  pose proof (sound_speed_pos rhoR pR Hg HrR HpR).
  pose proof (sound_speed_sqr rhoL pL Hg HrL HpL) as HL.
  pose proof (sound_speed_sqr rhoR pR Hg HrR HpR) as HR.
  repeat split; try assumption; [apply Rmax_l | apply Rmax_r | |].
  - unfold cL. rewrite HL. field. lra.
  - unfold cR. rewrite HR. field. lra.
Qed.

Lemma flux_stw_supersonic_right (rhoL rhoR vxL vxR vyL vyR pL pR : R) :
  1 < gam -> 0 < rhoL -> 0 < rhoR -> 0 < pL -> 0 < pR ->
  sound_speed rhoL pL < vxL -> sound_speed rhoR pR < vxR ->
  flux_stw rhoL rhoR vxL vxR vyL vyR pL pR = physical_flux rhoL vxL vyL pL.
Proof.
  intros Hg HrL HrR HpL HpR.
  destruct (supersonic_setup rhoL rhoR pL pR Hg HrL HrR HpL HpR)
    as (HcL & HcR & _ & _ & EpL & EpR).
  unfold flux_stw, fmax, fmin, physical_flux, total_energy, gam1q, gam1.
  cbv zeta. cbn [get4 at0 at1 at2 at3]. rewrite !code_sound_speed'.
  set (cL := sound_speed rhoL pL) in *. set (cR := sound_speed rhoR pR) in *.
  clearbody cL cR. intros HL HR.
  rewrite (Rmax_left (vxL - cL) 0), (Rmax_left vxL 0), (Rmax_left (vxL + cL) 0),
    (Rmin_right (vxR - cR) 0), (Rmin_right vxR 0), (Rmin_right (vxR + cR) 0)
    by lra.
  rewrite EpL.
  apply arr4_ext; cbn [get4 at0 at1 at2 at3]; decimals; field; lra.
Qed.

Lemma flux_stw_supersonic_left (rhoL rhoR vxL vxR vyL vyR pL pR : R) :
  1 < gam -> 0 < rhoL -> 0 < rhoR -> 0 < pL -> 0 < pR ->
  vxL < - sound_speed rhoL pL -> vxR < - sound_speed rhoR pR ->
  flux_stw rhoL rhoR vxL vxR vyL vyR pL pR = physical_flux rhoR vxR vyR pR.
Proof.
  intros Hg HrL HrR HpL HpR.
  destruct (supersonic_setup rhoL rhoR pL pR Hg HrL HrR HpL HpR)
    as (HcL & HcR & _ & _ & EpL & EpR).
  unfold flux_stw, fmax, fmin, physical_flux, total_energy, gam1q, gam1.
  cbv zeta. cbn [get4 at0 at1 at2 at3]. rewrite !code_sound_speed'.
  set (cL := sound_speed rhoL pL) in *. set (cR := sound_speed rhoR pR) in *.
  clearbody cL cR. intros HL HR.
  rewrite (Rmax_right (vxL - cL) 0), (Rmax_right vxL 0), (Rmax_right (vxL + cL) 0),
    (Rmin_left (vxR - cR) 0), (Rmin_left vxR 0), (Rmin_left (vxR + cR) 0)
    by lra.
  rewrite EpR.
  apply arr4_ext; cbn [get4 at0 at1 at2 at3]; decimals; field; lra.
Qed.

Lemma mach_gt_one (v c : R) : 0 < c -> c < v -> 1 < v / c.
Proof.
  intros Hc Hv. apply (Rmult_lt_reg_r c); [assumption |].
  replace (v / c * c) with v by (field; lra). lra.
Qed.

Lemma mach_lt_minus_one (v c : R) : 0 < c -> v < - c -> v / c < - 1.
Proof.
  intros Hc Hv. apply (Rmult_lt_reg_r c); [assumption |].
  replace (v / c * c) with v by (field; lra). lra.
Qed.

Lemma flux_vanleer_supersonic_right (rhoL rhoR vxL vxR vyL vyR pL pR : R) :
  1 < gam -> 0 < rhoL -> 0 < rhoR -> 0 < pL -> 0 < pR ->
  sound_speed rhoL pL < vxL -> sound_speed rhoR pR < vxR ->
  flux_vanleer rhoL rhoR vxL vxR vyL vyR pL pR = physical_flux rhoL vxL vyL pL.
Proof.
  intros Hg HrL HrR HpL HpR.
  destruct (supersonic_setup rhoL rhoR pL pR Hg HrL HrR HpL HpR)
    as (HcL & HcR & _).
  unfold flux_vanleer, physical_flux, total_energy, gam1q, gam1.
  cbv zeta. rewrite !code_sound_speed'.
  set (cL := sound_speed rhoL pL) in *. set (cR := sound_speed rhoR pR) in *.
  clearbody cL cR. intros HL HR.
  pose proof (mach_gt_one vxL cL HcL HL) as HML.
  pose proof (mach_gt_one vxR cR HcR HR) as HMR.
  set (ML := vxL / cL) in *. set (MR := vxR / cR) in *.
  decide_cmp. cbn [andb get4 at0 at1 at2 at3].
  apply arr4_ext; cbn [get4 at0 at1 at2 at3]; decimals; field; lra.
Qed.

Lemma flux_vanleer_supersonic_left (rhoL rhoR vxL vxR vyL vyR pL pR : R) :
  1 < gam -> 0 < rhoL -> 0 < rhoR -> 0 < pL -> 0 < pR ->
  vxL < - sound_speed rhoL pL -> vxR < - sound_speed rhoR pR ->
  flux_vanleer rhoL rhoR vxL vxR vyL vyR pL pR = physical_flux rhoR vxR vyR pR.
Proof.
  intros Hg HrL HrR HpL HpR.
  destruct (supersonic_setup rhoL rhoR pL pR Hg HrL HrR HpL HpR)
    as (HcL & HcR & _).
  unfold flux_vanleer, physical_flux, total_energy, gam1q, gam1.
  cbv zeta. rewrite !code_sound_speed'.
  set (cL := sound_speed rhoL pL) in *. set (cR := sound_speed rhoR pR) in *.
  clearbody cL cR. intros HL HR.
  pose proof (mach_lt_minus_one vxL cL HcL HL) as HML.
  pose proof (mach_lt_minus_one vxR cR HcR HR) as HMR.
  set (ML := vxL / cL) in *. set (MR := vxR / cR) in *.
  decide_cmp. cbn [andb get4 at0 at1 at2 at3].
  apply arr4_ext; cbn [get4 at0 at1 at2 at3]; decimals; field; lra.
Qed.

Lemma flux_ausmd_supersonic_right (rhoL rhoR vxL vxR vyL vyR pL pR : R) :
  1 < gam -> 0 < rhoL -> 0 < rhoR -> 0 < pL -> 0 < pR ->
  Rmax (sound_speed rhoL pL) (sound_speed rhoR pR) < vxL ->
  Rmax (sound_speed rhoL pL) (sound_speed rhoR pR) < vxR ->
  flux_ausmd rhoL rhoR vxL vxR vyL vyR pL pR = physical_flux rhoL vxL vyL pL.
Proof.
  intros Hg HrL HrR HpL HpR.
  destruct (supersonic_setup rhoL rhoR pL pR Hg HrL HrR HpL HpR)
    as (HcL & HcR & HmL & HmR & _).
  unfold flux_ausmd, fmax, fabs, physical_flux, total_energy, gam1q, gam1.
  cbv zeta. rewrite !code_sound_speed'.
  set (cm := Rmax (sound_speed rhoL pL) (sound_speed rhoR pR)) in *.
  intros HL HR.
  rewrite (Rabs_pos_eq vxL), (Rabs_pos_eq vxR) by lra.
  decide_cmp.
  replace (0.5 * (vxL + vxL) * rhoL + 0.5 * (vxR - vxR) * rhoR)
    with (rhoL * vxL) by lra.
  rewrite (Rabs_pos_eq (rhoL * vxL)) by nra.
  apply arr4_ext; cbn [get4 at0 at1 at2 at3]; decimals; field; lra.
Qed.

Lemma flux_ausmd_supersonic_left (rhoL rhoR vxL vxR vyL vyR pL pR : R) :
  1 < gam -> 0 < rhoL -> 0 < rhoR -> 0 < pL -> 0 < pR ->
  vxL < - Rmax (sound_speed rhoL pL) (sound_speed rhoR pR) ->
  vxR < - Rmax (sound_speed rhoL pL) (sound_speed rhoR pR) ->
  flux_ausmd rhoL rhoR vxL vxR vyL vyR pL pR = physical_flux rhoR vxR vyR pR.
Proof.
  intros Hg HrL HrR HpL HpR.
  destruct (supersonic_setup rhoL rhoR pL pR Hg HrL HrR HpL HpR)
    as (HcL & HcR & HmL & HmR & _).
  unfold flux_ausmd, fmax, fabs, physical_flux, total_energy, gam1q, gam1.
  cbv zeta. rewrite !code_sound_speed'.
  set (cm := Rmax (sound_speed rhoL pL) (sound_speed rhoR pR)) in *.
  intros HL HR.
  rewrite (Rabs_left vxL), (Rabs_left vxR) by lra.
  decide_cmp.
  replace (0.5 * (vxL + - vxL) * rhoL + 0.5 * (vxR - - vxR) * rhoR)
    with (rhoR * vxR) by lra.
  rewrite (Rabs_left (rhoR * vxR)) by nra.
  apply arr4_ext; cbn [get4 at0 at1 at2 at3]; decimals; field; lra.
Qed.

Lemma flux_ausmdv_supersonic_right (rhoL rhoR vxL vxR vyL vyR pL pR : R) :
  1 < gam -> 0 < rhoL -> 0 < rhoR -> 0 < pL -> 0 < pR ->
  Rmax (sound_speed rhoL pL) (sound_speed rhoR pR) < vxL ->
  Rmax (sound_speed rhoL pL) (sound_speed rhoR pR) < vxR ->
  flux_ausmdv rhoL rhoR vxL vxR vyL vyR pL pR = physical_flux rhoL vxL vyL pL.
Proof.
  intros Hg HrL HrR HpL HpR.
  destruct (supersonic_setup rhoL rhoR pL pR Hg HrL HrR HpL HpR)
    as (HcL & HcR & HmL & HmR & _).
  unfold flux_ausmdv, fmax, fabs, physical_flux, total_energy, gam1q, gam1.
  cbv zeta. rewrite !code_sound_speed'.
  set (cL := sound_speed rhoL pL) in *. set (cR := sound_speed rhoR pR) in *.
  set (cm := Rmax cL cR) in *.
  intros HL HR.
  rewrite (Rabs_pos_eq vxL), (Rabs_pos_eq vxR) by lra.
  decide_cmp. cbn [andb negb].
  set (s := fmin 1 (10 * Rabs (pR - pL) / fmin pR pL)).
  replace (vxL * rhoL + 0 * rhoR) with (rhoL * vxL) by ring.
  rewrite (Rabs_pos_eq (rhoL * vxL)) by nra.
  apply arr4_ext; cbn [get4 at0 at1 at2 at3]; decimals; field; lra.
Qed.

Lemma flux_ausmdv_supersonic_left (rhoL rhoR vxL vxR vyL vyR pL pR : R) :
  1 < gam -> 0 < rhoL -> 0 < rhoR -> 0 < pL -> 0 < pR ->
  vxL < - Rmax (sound_speed rhoL pL) (sound_speed rhoR pR) ->
  vxR < - Rmax (sound_speed rhoL pL) (sound_speed rhoR pR) ->
  flux_ausmdv rhoL rhoR vxL vxR vyL vyR pL pR = physical_flux rhoR vxR vyR pR.
Proof.
  intros Hg HrL HrR HpL HpR.
  destruct (supersonic_setup rhoL rhoR pL pR Hg HrL HrR HpL HpR)
    as (HcL & HcR & HmL & HmR & _).
  unfold flux_ausmdv, fmax, fabs, physical_flux, total_energy, gam1q, gam1.
  cbv zeta. rewrite !code_sound_speed'.
  set (cL := sound_speed rhoL pL) in *. set (cR := sound_speed rhoR pR) in *.
  set (cm := Rmax cL cR) in *.
  intros HL HR.
  rewrite (Rabs_left vxL), (Rabs_left vxR) by lra.
  decide_cmp. cbn [andb negb].
  set (s := fmin 1 (10 * Rabs (pR - pL) / fmin pR pL)).
  replace (0 * rhoL + vxR * rhoR) with (rhoR * vxR) by ring.
  rewrite (Rabs_left (rhoR * vxR)) by nra.
  apply arr4_ext; cbn [get4 at0 at1 at2 at3]; decimals; field; lra.
Qed.

(** The flux-vector-splitting and AUSM kernels are fully upwind in
    supersonic flow.  For gamma > 1 and admissible states: when both normal
    velocities exceed the larger of the two sound speeds, the
    Steger-Warming, van Leer, AUSMD and AUSMDV kernels return the physical
    flux of the left state; when both are below minus that speed, they
    return the physical flux of the right state. *)
Theorem splitting_kernels_supersonic (rhoL rhoR vxL vxR vyL vyR pL pR : R) :
  1 < gam -> 0 < rhoL -> 0 < rhoR -> 0 < pL -> 0 < pR ->
  let cm := Rmax (sound_speed rhoL pL) (sound_speed rhoR pR) in
  let FL := physical_flux rhoL vxL vyL pL in
  let FR := physical_flux rhoR vxR vyR pR in
  (cm < vxL -> cm < vxR ->
   flux_stw rhoL rhoR vxL vxR vyL vyR pL pR = FL /\
   flux_vanleer rhoL rhoR vxL vxR vyL vyR pL pR = FL /\
   flux_ausmd rhoL rhoR vxL vxR vyL vyR pL pR = FL /\
   flux_ausmdv rhoL rhoR vxL vxR vyL vyR pL pR = FL) /\
  (vxL < - cm -> vxR < - cm ->
   flux_stw rhoL rhoR vxL vxR vyL vyR pL pR = FR /\
   flux_vanleer rhoL rhoR vxL vxR vyL vyR pL pR = FR /\
   flux_ausmd rhoL rhoR vxL vxR vyL vyR pL pR = FR /\
   flux_ausmdv rhoL rhoR vxL vxR vyL vyR pL pR = FR).
Proof.
  intros Hg HrL HrR HpL HpR cm FL FR.
  destruct (supersonic_setup rhoL rhoR pL pR Hg HrL HrR HpL HpR)
    as (HcL & HcR & HmL & HmR & _).
  fold cm in HmL, HmR.
  split; intros HL HR.
  - split; [apply flux_stw_supersonic_right; try assumption; lra |].
    split; [apply flux_vanleer_supersonic_right; try assumption; lra |].
    split; [now apply flux_ausmd_supersonic_right |].
    now apply flux_ausmdv_supersonic_right.
  - split; [apply flux_stw_supersonic_left; try assumption; lra |].
    split; [apply flux_vanleer_supersonic_left; try assumption; lra |].
    split; [now apply flux_ausmd_supersonic_left |].
    now apply flux_ausmdv_supersonic_left.
Qed.

(** ** The Roe linearisation *)

Lemma roe_core_waves (vxBar vyBar Hbar cBar delRho delMx delMy delE : R)
    (fL fR : arr4) (e0 e1 e2 e3 : R) :
  roe_core vxBar vyBar Hbar cBar delRho delMx delMy delE fL fR e0 e1 e2 e3
  = let D := roe_wave_sum
               (roe_strength vxBar vyBar Hbar cBar delRho delMx delMy delE)
               (mk4 (fabs e0) (fabs e1) (fabs e2) (fabs e3))
               vxBar vyBar Hbar cBar in
    mk4 (0.5 * (fR.[0] + fL.[0] - D.[0])) (0.5 * (fR.[1] + fL.[1] - D.[1]))
        (0.5 * (fR.[2] + fL.[2] - D.[2])) (0.5 * (fR.[3] + fL.[3] - D.[3])).
Proof.
  unfold roe_core, roe_wave_sum, roe_strength, roe_vector. cbv zeta.
  apply arr4_ext; cbn [get4 at0 at1 at2 at3]; ring.
Qed.

Lemma roe_waves_jump (u v H c dRho dMx dMy dE : R) :
  1 < gam -> c <> 0 -> c * c = gam1 * (H - 0.5 * (u * u + v * v)) ->
  let w := roe_strength u v H c dRho dMx dMy dE in
  roe_wave_sum w (mk4 1 1 1 1) u v H c = mk4 dRho dMx dMy dE /\
  roe_wave_sum w (roe_speed u c) u v H c
  = euler_jacobian u v H (mk4 dRho dMx dMy dE).
Proof.
  intros Hg Hc Hcc w.
  assert (Hg1 : gam1 <> 0) by (unfold gam1; lra).
  assert (HH : H = c * c / gam1 + 0.5 * (u * u + v * v))
    by (rewrite Hcc; field; assumption).
  clear Hcc. subst H.
  unfold w, roe_wave_sum, roe_strength, roe_vector, roe_speed, euler_jacobian.
  cbv zeta. unfold gam1 in *.
  split; apply arr4_ext; cbn [get4 at0 at1 at2 at3]; decimals; field;
    repeat split; lra.
Qed.

Lemma jacobian_roe_average (sL sR vxL vxR vyL vyR pL pR : R) :
  1 < gam -> 0 < sL -> 0 < sR ->
  let rhoL := sL * sL in
  let rhoR := sR * sR in
  let avg (qL qR : R) := (sL * qL + sR * qR) / (sL + sR) in
  let UL := conserved rhoL vxL vyL pL in
  let UR := conserved rhoR vxR vyR pR in
  let FL := physical_flux rhoL vxL vyL pL in
  let FR := physical_flux rhoR vxR vyR pR in
  euler_jacobian (avg vxL vxR) (avg vyL vyR)
    (avg (enthalpy rhoL vxL vyL pL) (enthalpy rhoR vxR vyR pR))
    (mk4 (UR.[0] - UL.[0]) (UR.[1] - UL.[1]) (UR.[2] - UL.[2]) (UR.[3] - UL.[3]))
  = mk4 (FR.[0] - FL.[0]) (FR.[1] - FL.[1]) (FR.[2] - FL.[2]) (FR.[3] - FL.[3]).
Proof.
  intros Hg HsL HsR rhoL rhoR avg UL UR FL FR.
  unfold euler_jacobian, UL, UR, FL, FR, conserved, physical_flux, enthalpy,
    total_energy, avg, rhoL, rhoR, gam1.
  cbv zeta.
  apply arr4_ext; cbn [get4 at0 at1 at2 at3]; field; repeat split; lra.
Qed.

Lemma roe_wave_sum_neg (w s : arr4) (u v H c : R) :
  roe_wave_sum w (neg4 s) u v H c = neg4 (roe_wave_sum w s u v H c).
Proof.
  unfold roe_wave_sum, neg4. cbv zeta.
  apply arr4_ext; cbn [get4 at0 at1 at2 at3]; ring.
Qed.

Lemma sqrt_pos_sqr (x : R) : 0 < sqrt x -> sqrt x * sqrt x = x.
Proof.
  intros H. destruct (Rle_dec 0 x) as [Hx | Hx]; [now apply sqrt_sqrt |].
  rewrite sqrt_neg_0 in H by lra. lra.
Qed.

Lemma roe_waves_states (rhoL rhoR vxL vxR vyL vyR pL pR : R) :
  1 < gam -> 0 < rhoL -> 0 < rhoR -> 0 < pL -> 0 < pR ->
  let uM := roe_mean rhoL rhoR vxL vxR in
  let vM := roe_mean rhoL rhoR vyL vyR in
  let HM := roe_mean rhoL rhoR (enthalpy rhoL vxL vyL pL)
              (enthalpy rhoR vxR vyR pR) in
  let cM := roe_sound_speed rhoL rhoR vxL vxR vyL vyR pL pR in
  let UL := conserved rhoL vxL vyL pL in
  let UR := conserved rhoR vxR vyR pR in
  let FL := physical_flux rhoL vxL vyL pL in
  let FR := physical_flux rhoR vxR vyR pR in
  let w := roe_strength uM vM HM cM (UR.[0] - UL.[0]) (UR.[1] - UL.[1])
             (UR.[2] - UL.[2]) (UR.[3] - UL.[3]) in
  roe_wave_sum w (mk4 1 1 1 1) uM vM HM cM
  = mk4 (UR.[0] - UL.[0]) (UR.[1] - UL.[1]) (UR.[2] - UL.[2]) (UR.[3] - UL.[3]) /\
  roe_wave_sum w (roe_speed uM cM) uM vM HM cM
  = mk4 (FR.[0] - FL.[0]) (FR.[1] - FL.[1]) (FR.[2] - FL.[2]) (FR.[3] - FL.[3]).
Proof.
  intros Hg HrL HrR HpL HpR uM vM HM cM UL UR FL FR w.
  pose proof (roe_sound_speed_pos rhoL rhoR vxL vxR vyL vyR pL pR
                Hg HrL HrR HpL HpR) as Hc.
  fold cM in Hc.
  assert (Hcc : cM * cM = gam1 * (HM - 0.5 * (uM * uM + vM * vM))).
  { unfold cM, roe_sound_speed in *. cbv zeta in *. fold uM vM HM in Hc |- *.
    rewrite (sqrt_pos_sqr _ Hc). unfold gam1. lra. }
  destruct (roe_waves_jump uM vM HM cM (UR.[0] - UL.[0]) (UR.[1] - UL.[1])
              (UR.[2] - UL.[2]) (UR.[3] - UL.[3]) Hg
              (not_eq_sym (Rlt_not_eq _ _ Hc)) Hcc) as [H1 H2].
  fold w in H1, H2. split; [exact H1 |].
  rewrite H2.
  pose proof (jacobian_roe_average (sqrt rhoL) (sqrt rhoR) vxL vxR vyL vyR pL pR
                Hg (sqrt_lt_R0 rhoL HrL) (sqrt_lt_R0 rhoR HrR)) as J.
  cbv zeta in J.
  rewrite !(sqrt_sqrt rhoL), !(sqrt_sqrt rhoR) in J by lra.
  exact J.
Qed.

(** The Roe kernel is the central flux minus half the sum of its four
    waves weighted by the entropy-fixed eigenvalues, and the waves it
    computes are those of Roe's linearisation: for gamma > 1 and admissible
    states, the four strengths times eigenvectors add up to the jump
    UR - UL of the conserved variables, and weighted by the Roe eigenvalues
    they add up to the jump FR - FL of the physical flux. *)
Theorem flux_roe_linearisation (rhoL rhoR vxL vxR vyL vyR pL pR : R) :
  1 < gam -> 0 < rhoL -> 0 < rhoR -> 0 < pL -> 0 < pR ->
  let uM := roe_mean rhoL rhoR vxL vxR in
  let vM := roe_mean rhoL rhoR vyL vyR in
  let HM := roe_mean rhoL rhoR (enthalpy rhoL vxL vyL pL)
              (enthalpy rhoR vxR vyR pR) in
  let cM := roe_sound_speed rhoL rhoR vxL vxR vyL vyR pL pR in
  let UL := conserved rhoL vxL vyL pL in
  let UR := conserved rhoR vxR vyR pR in
  let FL := physical_flux rhoL vxL vyL pL in
  let FR := physical_flux rhoR vxR vyR pR in
  let w := roe_strength uM vM HM cM (UR.[0] - UL.[0]) (UR.[1] - UL.[1])
             (UR.[2] - UL.[2]) (UR.[3] - UL.[3]) in
  let lam := roe_speed uM cM in
  let aL := roe_speed vxL (sound_speed rhoL pL) in
  let aR := roe_speed vxR (sound_speed rhoR pR) in
  let fixed := mk4 (roe_fix lam.[0] aL.[0] aR.[0]) (roe_fix lam.[1] aL.[1] aR.[1])
                   (roe_fix lam.[2] aL.[2] aR.[2]) (roe_fix lam.[3] aL.[3] aR.[3]) in
  forall i : nat,
    (flux_roe rhoL rhoR vxL vxR vyL vyR pL pR).[i]
    = 0.5 * (FL.[i] + FR.[i]) - 0.5 * (roe_wave_sum w fixed uM vM HM cM).[i] /\
    (roe_wave_sum w (mk4 1 1 1 1) uM vM HM cM).[i] = UR.[i] - UL.[i] /\
    (roe_wave_sum w lam uM vM HM cM).[i] = FR.[i] - FL.[i].
Proof.
  intros Hg HrL HrR HpL HpR uM vM HM cM UL UR FL FR w lam aL aR fixed i.
  destruct (roe_waves_states rhoL rhoR vxL vxR vyL vyR pL pR Hg HrL HrR HpL HpR)
    as [H1 H2].
  fold uM vM HM cM UL UR FL FR in H1, H2. fold w in H1, H2. fold lam in H2.
  rewrite H1, H2.
  rewrite flux_roe_core, roe_core_waves. cbv zeta.
  rewrite !roe_fix_nonneg.
  fold uM vM HM cM FL FR.
  change (roe_strength uM vM HM cM (rhoR - rhoL) (rhoR * vxR - rhoL * vxL)
            (rhoR * vyR - rhoL * vyL)
            (total_energy rhoR vxR vyR pR - total_energy rhoL vxL vyL pL))
    with w.
  change (mk4 (roe_fix (uM - cM) (vxL - sound_speed rhoL pL) (vxR - sound_speed rhoR pR))
              (roe_fix uM vxL vxR) (roe_fix uM vxL vxR)
              (roe_fix (uM + cM) (vxL + sound_speed rhoL pL) (vxR + sound_speed rhoR pR)))
    with fixed.
  destruct i as [| [| [| i]]]; cbn [get4 at0 at1 at2 at3];
    (split; [ring | split; reflexivity]).
Qed.

(** The Roe kernel is upwind.  For gamma > 1 and admissible states, when
    for each wave the width max (0, a - al, ar - a) of the entropy fix does
    not exceed the magnitude |a| of the Roe eigenvalue: if the slowest Roe
    eigenvalue is not negative the kernel returns the physical flux of the
    left state, and if the fastest is not positive it returns the physical
    flux of the right state. *)
Theorem flux_roe_upwind (rhoL rhoR vxL vxR vyL vyR pL pR : R) :
  1 < gam -> 0 < rhoL -> 0 < rhoR -> 0 < pL -> 0 < pR ->
  let uM := roe_mean rhoL rhoR vxL vxR in
  let cM := roe_sound_speed rhoL rhoR vxL vxR vyL vyR pL pR in
  let lam := roe_speed uM cM in
  let aL := roe_speed vxL (sound_speed rhoL pL) in
  let aR := roe_speed vxR (sound_speed rhoR pR) in
  (forall k : nat,
     Rmax (Rmax 0 (lam.[k] - aL.[k])) (aR.[k] - lam.[k]) <= Rabs lam.[k]) ->
  (0 <= uM - cM ->
   flux_roe rhoL rhoR vxL vxR vyL vyR pL pR = physical_flux rhoL vxL vyL pL) /\
  (uM + cM <= 0 ->
   flux_roe rhoL rhoR vxL vxR vyL vyR pL pR = physical_flux rhoR vxR vyR pR).
Proof.
  intros Hg HrL HrR HpL HpR uM cM lam aL aR Hfix.
  pose proof (roe_sound_speed_pos rhoL rhoR vxL vxR vyL vyR pL pR
                Hg HrL HrR HpL HpR) as Hc.
  fold cM in Hc.
  destruct (roe_waves_states rhoL rhoR vxL vxR vyL vyR pL pR Hg HrL HrR HpL HpR)
    as [_ H2].
  cbv zeta in H2. unfold conserved in H2.
  cbn [get4 at0 at1 at2 at3] in H2. fold uM cM in H2.
  pose proof (Hfix 0%nat) as F0. pose proof (Hfix 1%nat) as F1.
  pose proof (Hfix 3%nat) as F3.
  unfold lam, aL, aR, roe_speed in F0, F1, F3.
  cbn [get4 at0 at1 at2 at3] in F0, F1, F3.
  apply roe_fix_inactive in F0. apply roe_fix_inactive in F1.
  apply roe_fix_inactive in F3.
  assert (Hflux : flux_roe rhoL rhoR vxL vxR vyL vyR pL pR
                  = let D := roe_wave_sum
                       (roe_strength uM (roe_mean rhoL rhoR vyL vyR)
                          (roe_mean rhoL rhoR (enthalpy rhoL vxL vyL pL)
                             (enthalpy rhoR vxR vyR pR)) cM
                          (rhoR - rhoL) (rhoR * vxR - rhoL * vxL)
                          (rhoR * vyR - rhoL * vyL)
                          (total_energy rhoR vxR vyR pR
                           - total_energy rhoL vxL vyL pL))
                       (mk4 (Rabs (uM - cM)) (Rabs uM) (Rabs uM) (Rabs (uM + cM)))
                       uM (roe_mean rhoL rhoR vyL vyR)
                       (roe_mean rhoL rhoR (enthalpy rhoL vxL vyL pL)
                          (enthalpy rhoR vxR vyR pR)) cM in
                    mk4 (0.5 * ((physical_flux rhoR vxR vyR pR).[0]
                                + (physical_flux rhoL vxL vyL pL).[0] - D.[0]))
                        (0.5 * ((physical_flux rhoR vxR vyR pR).[1]
                                + (physical_flux rhoL vxL vyL pL).[1] - D.[1]))
                        (0.5 * ((physical_flux rhoR vxR vyR pR).[2]
                                + (physical_flux rhoL vxL vyL pL).[2] - D.[2]))
                        (0.5 * ((physical_flux rhoR vxR vyR pR).[3]
                                + (physical_flux rhoL vxL vyL pL).[3] - D.[3]))).
  { rewrite flux_roe_core, roe_core_waves. cbv zeta.
    rewrite !roe_fix_nonneg. fold uM cM. now rewrite F0, F1, F3. }
  split; intros Hs.
  - rewrite Hflux. cbv zeta.
    rewrite (Rabs_pos_eq (uM - cM)), (Rabs_pos_eq uM), (Rabs_pos_eq (uM + cM))
      by lra.
    change (mk4 (uM - cM) uM uM (uM + cM)) with (roe_speed uM cM).
    rewrite H2.
    apply arr4_ext; cbn [get4 at0 at1 at2 at3]; lra.
  - rewrite Hflux. cbv zeta.
    rewrite (Rabs_left1 (uM - cM)), (Rabs_left1 uM), (Rabs_left1 (uM + cM))
      by lra.
    change (mk4 (- (uM - cM)) (- uM) (- uM) (- (uM + cM)))
      with (neg4 (roe_speed uM cM)).
    rewrite roe_wave_sum_neg, H2. unfold neg4.
    apply arr4_ext; cbn [get4 at0 at1 at2 at3]; lra.
Qed.

(** * Passive advection of the tangential velocity *)

Lemma roe_mean_const (rhoL rhoR q : R) :
  0 < rhoL -> 0 < rhoR -> roe_mean rhoL rhoR q q = q.
Proof.
  intros HrL HrR. unfold roe_mean.
  pose proof (sqrt_lt_R0 rhoL HrL). pose proof (sqrt_lt_R0 rhoR HrR).
  field. lra.
Qed.

Lemma hll_select_tangential (SL SR q vt : R) (UL UR FL FR : arr4) :
  UL.[2] = vt * UL.[0] -> UR.[2] = vt * UR.[0] ->
  FL.[2] = vt * FL.[0] -> FR.[2] = vt * FR.[0] ->
  (hll_select SL SR q UL UR FL FR).[2]
  = vt * (hll_select SL SR q UL UR FL FR).[0].
Proof.
  intros HUL HUR HFL HFR. unfold hll_select.
  destruct (Rltb 0 SL); [cbn [get4 at0 at2]; exact HFL |].
  destruct (Rltb SR 0); [cbn [get4 at0 at2]; exact HFR |].
  cbv zeta. cbn [get4 at0 at2].
  cbn [get4] in HUL, HUR, HFL, HFR.
  rewrite HUL, HUR, HFL, HFR. ring.
Qed.

Lemma physical_flux_tangential (rho v vt p : R) :
  (physical_flux rho v vt p).[2] = vt * (physical_flux rho v vt p).[0].
Proof. unfold physical_flux. cbv zeta. cbn [get4 at0 at2]. ring. Qed.

Lemma conserved_tangential (rho v vt p : R) :
  (conserved rho v vt p).[2] = vt * (conserved rho v vt p).[0].
Proof. unfold conserved. cbn [get4 at0 at2]. ring. Qed.

Lemma flux_god_tangential : tangential_advection flux_god.
Proof.
  intros rhoL rhoR vxL vxR vt pL pR _ _. unfold flux_god, MY, RHO. cbv zeta.
  destruct (exactRiemann _ _ _ _ _ _ _ _ _) as [[rho vx] p].
  destruct (Rltb 0 vx); cbn [get4 at0 at2]; ring.
Qed.

Lemma flux_roe_tangential : tangential_advection flux_roe.
Proof.
  intros rhoL rhoR vxL vxR vt pL pR HrL HrR. unfold MY, RHO.
  rewrite flux_roe_core, roe_core_waves. cbv zeta.
  rewrite (roe_mean_const rhoL rhoR vt HrL HrR).
  unfold roe_wave_sum, roe_strength, roe_vector, physical_flux. cbv zeta.
  cbn [get4 at0 at1 at2 at3]. ring.
Qed.

Lemma flux_hll_tangential : tangential_advection flux_hll.
Proof.
  intros rhoL rhoR vxL vxR vt pL pR _ _. unfold MY, RHO.
  rewrite flux_hll_select. cbv zeta.
  apply hll_select_tangential;
    first [apply conserved_tangential | apply physical_flux_tangential].
Qed.

Lemma flux_hlle_tangential : tangential_advection flux_hlle.
Proof.
  intros rhoL rhoR vxL vxR vt pL pR _ _. unfold MY, RHO.
  rewrite flux_hlle_select. cbv zeta.
  apply hll_select_tangential;
    first [apply conserved_tangential | apply physical_flux_tangential].
Qed.

Lemma flux_hllc_tangential : tangential_advection flux_hllc.
Proof.
  intros rhoL rhoR vxL vxR vt pL pR _ _. unfold MY, RHO.
  rewrite flux_hllc_select. unfold hllc_select. cbv zeta.
  destruct (Rltb 0 _); [| destruct (Rltb _ 0); [| destruct (_ && _)%bool]];
    unfold hllc_star, physical_flux, conserved; cbv zeta;
    cbn [get4 at0 at1 at2 at3]; ring.
Qed.

Lemma flux_lxf_tangential : tangential_advection flux_lxf.
Proof.
  intros rhoL rhoR vxL vxR vt pL pR _ _. unfold flux_lxf, MY, RHO. cbv zeta.
  cbn [get4 at0 at1 at2 at3]. ring.
Qed.

Lemma flux_stw_tangential : tangential_advection flux_stw.
Proof.
  intros rhoL rhoR vxL vxR vt pL pR _ _. unfold flux_stw, MY, RHO. cbv zeta.
  cbn [get4 at0 at1 at2 at3]. ring.
Qed.

Lemma flux_cen_tangential : tangential_advection flux_cen.
Proof.
  intros rhoL rhoR vxL vxR vt pL pR _ _. unfold flux_cen, MY, RHO. cbv zeta.
  cbn [get4 at0 at1 at2 at3]. ring.
Qed.

Lemma flux_ausmd_tangential : tangential_advection flux_ausmd.
Proof.
  intros rhoL rhoR vxL vxR vt pL pR _ _. unfold flux_ausmd, MY, RHO. cbv zeta.
  repeat match goal with
  | |- context [match ?e with pair _ _ => _ end] => destruct e as [? ?]
  end.
  cbn [get4 at0 at1 at2 at3]. decimals. field.
Qed.

Lemma flux_ausmdv_tangential : tangential_advection flux_ausmdv.
Proof.
  intros rhoL rhoR vxL vxR vt pL pR _ _. unfold flux_ausmdv, MY, RHO. cbv zeta.
  repeat match goal with
  | |- context [match ?e with pair _ _ => _ end] => destruct e as [? ?]
  end.
  destruct (_ && negb _)%bool; destruct (negb _ && _)%bool;
    cbn [get4 at0 at1 at2 at3]; first [ring | decimals; field].
Qed.

Lemma flux_vanleer_tangential : tangential_advection flux_vanleer.
Proof.
  intros rhoL rhoR vxL vxR vt pL pR _ _. unfold flux_vanleer, MY, RHO. cbv zeta.
  destruct (Rltb 1 (vxL / _)); [| destruct (_ && _)%bool];
    (destruct (Rltb (vxR / _) (- 1)); [| destruct (_ && _)%bool]);
    cbn [get4 at0 at1 at2 at3]; first [ring | decimals; field].
Qed.

(** Every kernel advects the tangential velocity passively: whichever case
    label the identifier matches, for positive densities and equal
    tangential velocities vt on the two sides, the tangential momentum
    flux that [convectiveFlux] returns is vt times the mass flux it
    returns. *)
Theorem convectiveFlux_tangential_advection
    (rhoL rhoR vxL vxR vt pL pR : R) (fluxLoc : arr4) :
  0 < rhoL -> 0 < rhoR ->
  In iFlux case_labels ->
  (convectiveFlux rhoL rhoR vxL vxR vt vt pL pR fluxLoc).[MY]
  = vt * (convectiveFlux rhoL rhoR vxL vxR vt vt pL pR fluxLoc).[RHO].
Proof.
  intros HrL HrR Hin. unfold convectiveFlux.
  destruct (Z.eqb_spec iFlux (GOD ids)); [now apply flux_god_tangential |].
  destruct (Z.eqb_spec iFlux (ROE ids)); [now apply flux_roe_tangential |].
  destruct (Z.eqb_spec iFlux (HLL ids)); [now apply flux_hll_tangential |].
  destruct (Z.eqb_spec iFlux (HLLE ids)); [now apply flux_hlle_tangential |].
  destruct (Z.eqb_spec iFlux (HLLC ids)); [now apply flux_hllc_tangential |].
  destruct (Z.eqb_spec iFlux (LXF ids)); [now apply flux_lxf_tangential |].
  destruct (Z.eqb_spec iFlux (STW ids)); [now apply flux_stw_tangential |].
  destruct (Z.eqb_spec iFlux (CEN ids)); [now apply flux_cen_tangential |].
  destruct (Z.eqb_spec iFlux (AUSMD ids)); [now apply flux_ausmd_tangential |].
  destruct (Z.eqb_spec iFlux (AUSMDV ids)); [now apply flux_ausmdv_tangential |].
  destruct (Z.eqb_spec iFlux (VANLEER ids)); [now apply flux_vanleer_tangential |].
  exfalso. unfold case_labels in Hin. simpl in Hin. intuition congruence.
Qed.

(** * Reversal of the tangential axis *)

Lemma total_energy_flip (rho v vt p : R) :
  total_energy rho v (- vt) p = total_energy rho v vt p.
Proof. unfold total_energy, Rdiv. ring. Qed.

Lemma enthalpy_flip (rho v vt p : R) :
  enthalpy rho v (- vt) p = enthalpy rho v vt p.
Proof. unfold enthalpy. now rewrite total_energy_flip. Qed.

Lemma physical_flux_flip (rho v vt p : R) :
  physical_flux rho v (- vt) p = flip_tangential (physical_flux rho v vt p).
Proof.
  unfold physical_flux, flip_tangential. cbv zeta. rewrite total_energy_flip.
  apply arr4_ext; cbn [get4 at0 at1 at2 at3]; ring.
Qed.

Lemma conserved_flip (rho v vt p : R) :
  conserved rho v (- vt) p = flip_tangential (conserved rho v vt p).
Proof.
  unfold conserved, flip_tangential. rewrite total_energy_flip.
  apply arr4_ext; cbn [get4 at0 at1 at2 at3]; ring.
Qed.

Lemma roe_sound_speed_flip (rhoL rhoR vxL vxR vyL vyR pL pR : R) :
  roe_sound_speed rhoL rhoR vxL vxR (- vyL) (- vyR) pL pR
  = roe_sound_speed rhoL rhoR vxL vxR vyL vyR pL pR.
Proof.
  unfold roe_sound_speed. cbv zeta.
  rewrite !enthalpy_flip, !roe_mean_opp. f_equal. unfold Rdiv. ring.
Qed.

Lemma hll_select_flip (SL SR q : R) (UL UR FL FR : arr4) :
  hll_select SL SR q (flip_tangential UL) (flip_tangential UR)
    (flip_tangential FL) (flip_tangential FR)
  = flip_tangential (hll_select SL SR q UL UR FL FR).
Proof.
  unfold hll_select, flip_tangential.
  destruct (Rltb 0 SL); [| destruct (Rltb SR 0)]; cbv zeta;
    apply arr4_ext; cbn [get4 at0 at1 at2 at3]; ring.
Qed.

Lemma flux_god_flip : tangential_symmetric flux_god.
Proof.
  intros rhoL rhoR vxL vxR vyL vyR pL pR.
  unfold flux_god, flip_tangential. cbv zeta.
  destruct (exactRiemann _ _ _ _ _ _ _ _ _) as [[rho vx] p].
  destruct (Rltb 0 vx);
    apply arr4_ext; cbn [get4 at0 at1 at2 at3]; ring.
Qed.

Lemma flux_roe_flip : tangential_symmetric flux_roe.
Proof.
  intros rhoL rhoR vxL vxR vyL vyR pL pR.
  rewrite !flux_roe_core. cbv zeta.
  rewrite roe_sound_speed_flip, !enthalpy_flip, !total_energy_flip,
    !physical_flux_flip, !roe_mean_opp.
  unfold roe_core, flip_tangential. cbv zeta.
  apply arr4_ext; cbn [get4 at0 at1 at2 at3]; ring.
Qed.

Lemma flux_hll_flip : tangential_symmetric flux_hll.
Proof.
  intros rhoL rhoR vxL vxR vyL vyR pL pR.
  rewrite !flux_hll_select. cbv zeta.
  unfold hll_left_speed, hll_right_speed.
  rewrite roe_sound_speed_flip, !physical_flux_flip, !conserved_flip.
  apply hll_select_flip.
Qed.

Lemma flux_hlle_flip : tangential_symmetric flux_hlle.
Proof.
  intros rhoL rhoR vxL vxR vyL vyR pL pR.
  rewrite !flux_hlle_select. cbv zeta.
  rewrite !physical_flux_flip, !conserved_flip.
  apply hll_select_flip.
Qed.

Lemma flux_hllc_flip : tangential_symmetric flux_hllc.
Proof.
  intros rhoL rhoR vxL vxR vyL vyR pL pR.
  rewrite !flux_hllc_select.
  unfold hll_left_speed, hll_right_speed.
  rewrite roe_sound_speed_flip.
  unfold hllc_select. cbv zeta.
  rewrite !physical_flux_flip, !conserved_flip, !total_energy_flip.
  destruct (Rltb 0 _); [| destruct (Rltb _ 0); [| destruct (_ && _)%bool]];
    unfold hllc_star, flip_tangential; cbv zeta;
    apply arr4_ext; cbn [get4 at0 at1 at2 at3]; ring.
Qed.

Lemma flux_lxf_flip : tangential_symmetric flux_lxf.
Proof.
  intros rhoL rhoR vxL vxR vyL vyR pL pR.
  unfold flux_lxf, flip_tangential. cbv zeta.
  apply arr4_ext; cbn [get4 at0 at1 at2 at3]; ring.
Qed.

Lemma flux_stw_flip : tangential_symmetric flux_stw.
Proof.
  intros rhoL rhoR vxL vxR vyL vyR pL pR.
  unfold flux_stw, flip_tangential. cbv zeta.
  apply arr4_ext; cbn [get4 at0 at1 at2 at3]; ring.
Qed.

Lemma flux_cen_flip : tangential_symmetric flux_cen.
Proof.
  intros rhoL rhoR vxL vxR vyL vyR pL pR.
  unfold flux_cen, flip_tangential. cbv zeta.
  apply arr4_ext; cbn [get4 at0 at1 at2 at3]; ring.
Qed.

Lemma flux_ausmd_flip : tangential_symmetric flux_ausmd.
Proof.
  intros rhoL rhoR vxL vxR vyL vyR pL pR.
  unfold flux_ausmd, flip_tangential. cbv zeta.
  repeat match goal with
  | |- context [match ?e with pair _ _ => _ end] => destruct e as [? ?]
  end.
  apply arr4_ext; cbn [get4 at0 at1 at2 at3]; unfold Rdiv; ring.
Qed.

Lemma flux_ausmdv_flip : tangential_symmetric flux_ausmdv.
Proof.
  intros rhoL rhoR vxL vxR vyL vyR pL pR.
  unfold flux_ausmdv, flip_tangential. cbv zeta.
  repeat match goal with
  | |- context [match ?e with pair _ _ => _ end] => destruct e as [? ?]
  end.
  destruct (_ && negb _)%bool; destruct (negb _ && _)%bool;
    apply arr4_ext; cbn [get4 at0 at1 at2 at3]; unfold Rdiv; ring.
Qed.

Lemma flux_vanleer_flip : tangential_symmetric flux_vanleer.
Proof.
  intros rhoL rhoR vxL vxR vyL vyR pL pR.
  unfold flux_vanleer, flip_tangential. cbv zeta.
  destruct (Rltb 1 (vxL / _)); [| destruct (_ && _)%bool];
    (destruct (Rltb (vxR / _) (- 1)); [| destruct (_ && _)%bool]);
    apply arr4_ext; cbn [get4 at0 at1 at2 at3]; unfold Rdiv; ring.
Qed.

(** No kernel prefers a tangential direction.  Reversing the tangential
    velocity on both sides reverses the tangential momentum flux that
    [convectiveFlux] returns and leaves the mass, normal momentum and
    energy fluxes as they are; this holds for every identifier, every
    state and every solver handed to the Godunov kernel. *)
Theorem convectiveFlux_tangential_reversal
    (rhoL rhoR vxL vxR vyL vyR pL pR : R) (fluxLoc : arr4) :
  convectiveFlux rhoL rhoR vxL vxR (- vyL) (- vyR) pL pR
    (flip_tangential fluxLoc)
  = flip_tangential
      (convectiveFlux rhoL rhoR vxL vxR vyL vyR pL pR fluxLoc).
Proof.
  unfold convectiveFlux.
  destruct (iFlux =? GOD ids)%Z; [apply flux_god_flip |].
  destruct (iFlux =? ROE ids)%Z; [apply flux_roe_flip |].
  destruct (iFlux =? HLL ids)%Z; [apply flux_hll_flip |].
  destruct (iFlux =? HLLE ids)%Z; [apply flux_hlle_flip |].
  destruct (iFlux =? HLLC ids)%Z; [apply flux_hllc_flip |].
  destruct (iFlux =? LXF ids)%Z; [apply flux_lxf_flip |].
  destruct (iFlux =? STW ids)%Z; [apply flux_stw_flip |].
  destruct (iFlux =? CEN ids)%Z; [apply flux_cen_flip |].
  destruct (iFlux =? AUSMD ids)%Z; [apply flux_ausmd_flip |].
  destruct (iFlux =? AUSMDV ids)%Z; [apply flux_ausmdv_flip |].
  destruct (iFlux =? VANLEER ids)%Z; [apply flux_vanleer_flip |].
  reflexivity.
Qed.

(** * The HLLE and HLLC kernels case by case *)

(** With the signal speeds of Einfeldt, SL the minimum of the left
    eigenvalue v - c and uM - d, SR the maximum of the right eigenvalue
    v + c and uM + d: SL <= SR, and [flux_hlle] returns the left physical
    flux when SL > 0, the right physical flux when SR < 0, and the two-wave
    average weighted by SL and SR when SL <= 0 <= SR. *)
Theorem flux_hlle_cases (rhoL rhoR vxL vxR vyL vyR pL pR : R) :
  let SL := hlle_left_speed rhoL rhoR vxL vxR pL pR in
  let SR := hlle_right_speed rhoL rhoR vxL vxR pL pR in
  let FL := physical_flux rhoL vxL vyL pL in
  let FR := physical_flux rhoR vxR vyR pR in
  SL <= SR /\
  (0 < SL -> flux_hlle rhoL rhoR vxL vxR vyL vyR pL pR = FL) /\
  (SR < 0 -> flux_hlle rhoL rhoR vxL vxR vyL vyR pL pR = FR) /\
  (SL <= 0 -> 0 <= SR ->
   flux_hlle rhoL rhoR vxL vxR vyL vyR pL pR
   = hll_average SL SR (conserved rhoL vxL vyL pL) (conserved rhoR vxR vyR pR)
       FL FR).
Proof.
  intros SL SR FL FR.
  pose proof (hlle_speeds_ordered rhoL rhoR vxL vxR pL pR) as Hord.
  fold SL SR in Hord.
  rewrite flux_hlle_select. cbv zeta. fold SL SR FL FR.
  unfold hll_select.
  split; [exact Hord |]. split; [| split].
  - intros H. rewrite (Rltb_lt 0 SL) by assumption. apply arr4_eta.
  - intros H. rewrite (Rltb_ge 0 SL) by lra.
    rewrite (Rltb_lt SR 0) by assumption. apply arr4_eta.
  - intros HL HR. rewrite (Rltb_ge 0 SL) by lra.
    rewrite (Rltb_ge SR 0) by lra.
    unfold hll_average. cbv zeta.
    apply arr4_ext; cbn [get4 at0 at1 at2 at3]; unfold Rdiv; ring.
Qed.

Lemma hllc_star_state_eq (S as_ rho vx vy p En : R) (f u : arr4) :
  hllc_star S as_ rho vx vy p En f u
  = let us := hllc_star_state S as_ rho vx vy p En in
    mk4 (f.[0] + S * (us.[0] - u.[0])) (f.[1] + S * (us.[1] - u.[1]))
        (f.[2] + S * (us.[2] - u.[2])) (f.[3] + S * (us.[3] - u.[3])).
Proof. reflexivity. Qed.

(** [flux_hllc] uses the signal speeds of [flux_hll].  It returns the left
    physical flux when SL > 0 and the right one when SR < 0, as [flux_hll]
    does; when SL <= 0 <= SR it returns FL + SL (UL* - UL) if the contact
    speed is not negative and FR + SR (UR* - UR) otherwise. *)
Theorem flux_hllc_cases (rhoL rhoR vxL vxR vyL vyR pL pR : R) :
  let SL := hll_left_speed rhoL rhoR vxL vxR vyL vyR pL pR in
  let SR := hll_right_speed rhoL rhoR vxL vxR vyL vyR pL pR in
  let FL := physical_flux rhoL vxL vyL pL in
  let FR := physical_flux rhoR vxR vyR pR in
  let UL := conserved rhoL vxL vyL pL in
  let UR := conserved rhoR vxR vyR pR in
  let as_ := hllc_contact SL SR rhoL rhoR vxL vxR pL pR in
  let UsL := hllc_star_state SL as_ rhoL vxL vyL pL UL.[3] in
  let UsR := hllc_star_state SR as_ rhoR vxR vyR pR UR.[3] in
  (0 < SL ->
   flux_hllc rhoL rhoR vxL vxR vyL vyR pL pR = FL /\
   flux_hll rhoL rhoR vxL vxR vyL vyR pL pR = FL) /\
  (SR < 0 ->
   flux_hllc rhoL rhoR vxL vxR vyL vyR pL pR = FR /\
   flux_hll rhoL rhoR vxL vxR vyL vyR pL pR = FR) /\
  (SL <= 0 -> 0 <= SR -> 0 <= as_ ->
   forall i : nat,
     (flux_hllc rhoL rhoR vxL vxR vyL vyR pL pR).[i]
     = FL.[i] + SL * (UsL.[i] - UL.[i])) /\
  (SL <= 0 -> 0 <= SR -> as_ < 0 ->
   forall i : nat,
     (flux_hllc rhoL rhoR vxL vxR vyL vyR pL pR).[i]
     = FR.[i] + SR * (UsR.[i] - UR.[i])).
Proof.
  intros SL SR FL FR UL UR as_ UsL UsR.
  pose proof (hll_speeds_ordered rhoL rhoR vxL vxR vyL vyR pL pR) as Hord.
  fold SL SR in Hord.
  rewrite flux_hllc_select, flux_hll_select. cbv zeta.
  fold SL SR FL FR UL UR.
  unfold hllc_select, hll_select. cbv zeta. fold FL FR UL UR as_.
  split; [| split; [| split]].
  - intros H. rewrite (Rltb_lt 0 SL) by assumption.
    split; apply arr4_eta.
  - intros H. rewrite (Rltb_ge 0 SL) by lra.
    rewrite (Rltb_lt SR 0) by assumption. split; apply arr4_eta.
  - intros HL HR Has i. rewrite (Rltb_ge 0 SL) by lra.
    rewrite (Rltb_ge SR 0) by lra.
    rewrite (Rleb_le SL 0) by assumption.
    rewrite (Rleb_le 0 as_) by assumption. cbn [andb].
    rewrite hllc_star_state_eq. cbv zeta.
    destruct i as [| [| [| i]]]; reflexivity.
  - intros HL HR Has i. rewrite (Rltb_ge 0 SL) by lra.
    rewrite (Rltb_ge SR 0) by lra.
    rewrite (Rleb_le SL 0) by assumption.
    rewrite (Rleb_gt 0 as_) by assumption. cbn [andb].
    rewrite hllc_star_state_eq. cbv zeta.
    destruct i as [| [| [| i]]]; reflexivity.
Qed.

Lemma hllc_star_jump (SL SR a rhoL rhoR vxL vxR vyL vyR pL pR EL ER : R)
    (FL FR UL UR : arr4) :
  0 < rhoL -> 0 < rhoR -> SL < vxL -> vxR < SR -> SL < a -> a < SR ->
  a * (rhoL * (SL - vxL) - rhoR * (SR - vxR))
  = pR - pL + rhoL * vxL * (SL - vxL) - rhoR * vxR * (SR - vxR) ->
  FL = mk4 (rhoL * vxL) (rhoL * vxL * vxL + pL) (rhoL * vxL * vyL)
           (vxL * (EL + pL)) ->
  FR = mk4 (rhoR * vxR) (rhoR * vxR * vxR + pR) (rhoR * vxR * vyR)
           (vxR * (ER + pR)) ->
  UL = mk4 rhoL (rhoL * vxL) (rhoL * vyL) EL ->
  UR = mk4 rhoR (rhoR * vxR) (rhoR * vyR) ER ->
  forall i : nat,
    (hllc_star SL a rhoL vxL vyL pL EL FL UL).[i]
    - (hllc_star SR a rhoR vxR vyR pR ER FR UR).[i]
    = a * ((hllc_star_state SL a rhoL vxL vyL pL EL).[i]
           - (hllc_star_state SR a rhoR vxR vyR pR ER).[i]).
Proof.
  intros HrL HrR HL HR HaL HaR Ha -> -> -> -> i.
  assert (HpR : pR = pL - rhoL * vxL * (SL - vxL) + rhoR * vxR * (SR - vxR)
                     + a * (rhoL * (SL - vxL) - rhoR * (SR - vxR))) by lra.
  clear Ha. subst pR.
  unfold hllc_star, hllc_star_state. cbv zeta.
  destruct i as [| [| [| i]]]; cbn [get4 at0 at1 at2 at3];
    field; repeat split; lra.
Qed.

(** The two star states of the HLLC kernel satisfy the jump condition
    across the contact wave.  For gamma > 1 and admissible states, when the
    contact speed lies strictly between the two signal speeds, the two
    candidate fluxes FL + SL (UL* - UL) and FR + SR (UR* - UR) differ by the
    contact speed times UL* - UR*; so when the contact is at rest the two
    candidates are equal, and the choice the kernel makes on the sign of
    the contact speed introduces no jump of the flux. *)
Theorem flux_hllc_contact_jump (rhoL rhoR vxL vxR vyL vyR pL pR : R) :
  1 < gam -> 0 < rhoL -> 0 < rhoR -> 0 < pL -> 0 < pR ->
  let SL := hll_left_speed rhoL rhoR vxL vxR vyL vyR pL pR in
  let SR := hll_right_speed rhoL rhoR vxL vxR vyL vyR pL pR in
  let FL := physical_flux rhoL vxL vyL pL in
  let FR := physical_flux rhoR vxR vyR pR in
  let UL := conserved rhoL vxL vyL pL in
  let UR := conserved rhoR vxR vyR pR in
  let as_ := hllc_contact SL SR rhoL rhoR vxL vxR pL pR in
  let UsL := hllc_star_state SL as_ rhoL vxL vyL pL UL.[3] in
  let UsR := hllc_star_state SR as_ rhoR vxR vyR pR UR.[3] in
  SL < as_ -> as_ < SR ->
  (forall i : nat,
     (FL.[i] + SL * (UsL.[i] - UL.[i])) - (FR.[i] + SR * (UsR.[i] - UR.[i]))
     = as_ * (UsL.[i] - UsR.[i])) /\
  (as_ = 0 ->
   forall i : nat,
     FL.[i] + SL * (UsL.[i] - UL.[i]) = FR.[i] + SR * (UsR.[i] - UR.[i])).
Proof.
  intros Hg HrL HrR HpL HpR SL SR FL FR UL UR as_ UsL UsR HaL HaR.
  pose proof (sound_speed_pos rhoL pL Hg HrL HpL) as HcL.
  pose proof (sound_speed_pos rhoR pR Hg HrR HpR) as HcR.
  assert (HSL : SL < vxL).
  { unfold SL, hll_left_speed.
    pose proof (Rmin_l (vxL - sound_speed rhoL pL)
                  (roe_mean rhoL rhoR vxL vxR
                   - roe_sound_speed rhoL rhoR vxL vxR vyL vyR pL pR)). lra. }
  assert (HSR : vxR < SR).
  { unfold SR, hll_right_speed.
    pose proof (Rmax_l (vxR + sound_speed rhoR pR)
                  (roe_mean rhoL rhoR vxL vxR
                   + roe_sound_speed rhoL rhoR vxL vxR vyL vyR pL pR)). lra. }
  assert (HD : rhoL * (SL - vxL) - rhoR * (SR - vxR) < 0) by nra.
  assert (Has : as_ * (rhoL * (SL - vxL) - rhoR * (SR - vxR))
                = pR - pL + rhoL * vxL * (SL - vxL) - rhoR * vxR * (SR - vxR)).
  { unfold as_, hllc_contact. field. lra. }
  assert (Hjump : forall i : nat,
     (FL.[i] + SL * (UsL.[i] - UL.[i])) - (FR.[i] + SR * (UsR.[i] - UR.[i]))
     = as_ * (UsL.[i] - UsR.[i])).
  { intros i.
    pose proof (hllc_star_jump SL SR as_ rhoL rhoR vxL vxR vyL vyR pL pR
                  (total_energy rhoL vxL vyL pL) (total_energy rhoR vxR vyR pR)
                  FL FR UL UR HrL HrR HSL HSR HaL HaR Has
                  eq_refl eq_refl eq_refl eq_refl i) as J.
    rewrite !hllc_star_state_eq in J. cbv zeta in J.
    destruct i as [| [| [| i]]]; exact J. }
  split; [exact Hjump |].
  intros H0 i. specialize (Hjump i). rewrite H0 in Hjump. lra.
Qed.

(** * Uniform flow *)

Lemma convectiveFlux_consistent_no_vanleer (rho v vt p : R) (fluxLoc : arr4) :
  1 < gam -> 0 < rho -> 0 < p ->
  In iFlux case_labels -> iFlux <> VANLEER ids ->
  (iFlux = GOD ids -> solver_consistent exactRiemann) ->
  convectiveFlux rho rho v v vt vt p p fluxLoc = physical_flux rho v vt p.
Proof.
  intros Hg Hr Hp Hin NV Hgod. unfold convectiveFlux.
  destruct (Z.eqb_spec iFlux (GOD ids)) as [e | NG];
    [now apply (flux_god_consistent Hg (Hgod e)) |].
  destruct (Z.eqb_spec iFlux (ROE ids)); [now apply flux_roe_consistent |].
  destruct (Z.eqb_spec iFlux (HLL ids)); [now apply flux_hll_consistent |].
  destruct (Z.eqb_spec iFlux (HLLE ids)); [now apply flux_hlle_consistent |].
  destruct (Z.eqb_spec iFlux (HLLC ids)); [now apply flux_hllc_consistent |].
  destruct (Z.eqb_spec iFlux (LXF ids)); [now apply flux_lxf_consistent |].
  destruct (Z.eqb_spec iFlux (STW ids)); [now apply flux_stw_consistent |].
  destruct (Z.eqb_spec iFlux (CEN ids)); [now apply flux_cen_consistent |].
  destruct (Z.eqb_spec iFlux (AUSMD ids)); [now apply flux_ausmd_consistent |].
  destruct (Z.eqb_spec iFlux (AUSMDV ids)); [now apply flux_ausmdv_consistent |].
  destruct (Z.eqb_spec iFlux (VANLEER ids)); [contradiction |].
  exfalso. unfold case_labels in Hin. simpl in Hin. intuition congruence.
Qed.

(** Consistency through the dispatch.  For gamma > 1, an identifier that
    matches a case label and a state of positive density and pressure on
    both sides, [convectiveFlux] overwrites its buffer with the physical
    flux of that state, provided that the solver is consistent if the
    Godunov kernel is selected and that the Mach number is neither 1 nor
    -1 if the van Leer kernel is selected. *)
Theorem convectiveFlux_consistent (rho v vt p : R) (fluxLoc : arr4) :
  1 < gam -> 0 < rho -> 0 < p ->
  In iFlux case_labels ->
  (iFlux = GOD ids -> solver_consistent exactRiemann) ->
  (iFlux = VANLEER ids ->
   v / sound_speed rho p <> 1 /\ v / sound_speed rho p <> - 1) ->
  convectiveFlux rho rho v v vt vt p p fluxLoc = physical_flux rho v vt p.
Proof.
  intros Hg Hr Hp Hin Hgod Hvl. unfold convectiveFlux.
  destruct (Z.eqb_spec iFlux (GOD ids)) as [e | NG];
    [now apply (flux_god_consistent Hg (Hgod e)) |].
  destruct (Z.eqb_spec iFlux (ROE ids)); [now apply flux_roe_consistent |].
  destruct (Z.eqb_spec iFlux (HLL ids)); [now apply flux_hll_consistent |].
  destruct (Z.eqb_spec iFlux (HLLE ids)); [now apply flux_hlle_consistent |].
  destruct (Z.eqb_spec iFlux (HLLC ids)); [now apply flux_hllc_consistent |].
  destruct (Z.eqb_spec iFlux (LXF ids)); [now apply flux_lxf_consistent |].
  destruct (Z.eqb_spec iFlux (STW ids)); [now apply flux_stw_consistent |].
  destruct (Z.eqb_spec iFlux (CEN ids)); [now apply flux_cen_consistent |].
  destruct (Z.eqb_spec iFlux (AUSMD ids)); [now apply flux_ausmd_consistent |].
  destruct (Z.eqb_spec iFlux (AUSMDV ids)); [now apply flux_ausmdv_consistent |].
  destruct (Z.eqb_spec iFlux (VANLEER ids)) as [e | NV].
  - destruct (Hvl e) as [H1 H2]. now apply flux_vanleer_consistent.
  - exfalso. unfold case_labels in Hin. simpl in Hin. intuition congruence.
Qed.

Lemma side_flux_uniform (es : elem_store) (h : side_store) (a : addr)
    (q : arr4) :
  navierstokes = false ->
  1 < gam ->
  In iFlux case_labels -> iFlux <> VANLEER ids ->
  (iFlux = GOD ids -> solver_consistent exactRiemann) ->
  admissible q ->
  Side.pVar (h a) = q -> Side.pVar (h (Side.connection (h a))) = q ->
  (Side.n (h a)).<X> * (Side.n (h a)).<X>
  + (Side.n (h a)).<Y> * (Side.n (h a)).<Y> = 1 ->
  side_flux es h a
  = scale4 (normal_flux (Side.n (h a)) q) (Side.len (h a)).
Proof.
  intros Hns Hg Hin Hvl Hgod [Hr Hp] Hq Hqc Hn.
  unfold side_flux. cbv zeta. rewrite Hns, Hq, Hqc.
  unfold side_fluxConv. cbv zeta.
  unfold rotate at 1 3 5 7. unfold RHO, VX, VY, P. cbn [get4 at0 at1 at2 at3].
  unfold admissible, RHO, P in Hr, Hp.
  rewrite convectiveFlux_consistent_no_vanleer;
    [| assumption | unfold rotate; exact Hr | unfold rotate; exact Hp
     | assumption | assumption | assumption].
  f_equal.
  set (n := Side.n (h a)) in *.
  unfold rotate, rotate_back, normal_flux, physical_flux, total_energy,
    RHO, VX, VY, MX, MY, E, P, X, Y in *.
  cbv zeta. cbn [get4 get2 at0 at1 at2 at3] in *.
  set (nx := d0 n) in *. set (ny := d1 n) in *.
  set (u := at1 q). set (v := at2 q). set (rho := at0 q) in *.
  set (p := at3 q) in *.
  assert (Hn2 : ny * ny = 1 - nx * nx) by lra.
  apply arr4_ext; cbn [get4 at0 at1 at2 at3].
  - ring.
  - transitivity (rho * (nx * u + ny * v) * u * (nx * nx + ny * ny)
                  + p * nx * (nx * nx + ny * ny) - p * nx * (nx * nx + ny * ny)
                  + p * nx);
      [ring | rewrite Hn; ring].
  - transitivity (rho * (nx * u + ny * v) * v * (nx * nx + ny * ny)
                  + p * ny);
      [ring | rewrite Hn; ring].
  - transitivity ((nx * u + ny * v)
                  * (p / (gam - 1)
                     + rho * ((u * u + v * v) * (nx * nx + ny * ny)) / 2 + p));
      [unfold Rdiv; ring | rewrite Hn; unfold Rdiv; ring].
Qed.

Lemma sum4_normal_flux (h : side_store) (q : arr4) (cell : list addr) :
  sum4 (map (fun a => scale4 (normal_flux (Side.n (h a)) q) (Side.len (h a)))
          cell)
  = normal_flux
      (mk2 (Rsum (map (fun a => Side.len (h a) * (Side.n (h a)).<X>) cell))
           (Rsum (map (fun a => Side.len (h a) * (Side.n (h a)).<Y>) cell)))
      q.
Proof.
  induction cell as [| a cell IH].
  - unfold sum4, Rsum, normal_flux, zero4, X, Y. cbn [map fold_right].
    cbv zeta. apply arr4_ext; cbn [get4 get2 at0 at1 at2 at3 d0 d1]; ring.
  - unfold sum4, Rsum in *. cbn [map fold_right]. rewrite IH.
    unfold normal_flux, add4, scale4, X, Y. cbv zeta.
    apply arr4_ext; cbn [get4 get2 at0 at1 at2 at3 d0 d1]; ring.
Qed.

(** Free-stream preservation, in the build without [navierstokes].  Take
    the sides of a closed cell: unit normals whose length-weighted sum is
    zero.  If the flow is uniform (one admissible state on both sides of
    every side), gamma > 1 and the identifier selects a kernel other than
    van Leer's (and a consistent solver if it selects Godunov's), then each
    side receives the physical flux through it, and the fluxes of the sides
    add up to zero. *)
Theorem free_stream_preservation (es : elem_store) (h : side_store)
    (cell : list addr) (q : arr4) :
  navierstokes = false ->
  1 < gam ->
  In iFlux case_labels -> iFlux <> VANLEER ids ->
  (iFlux = GOD ids -> solver_consistent exactRiemann) ->
  admissible q ->
  (forall a : addr, In a cell ->
     Side.pVar (h a) = q /\ Side.pVar (h (Side.connection (h a))) = q /\
     (Side.n (h a)).<X> * (Side.n (h a)).<X>
     + (Side.n (h a)).<Y> * (Side.n (h a)).<Y> = 1) ->
  Rsum (map (fun a => Side.len (h a) * (Side.n (h a)).<X>) cell) = 0 ->
  Rsum (map (fun a => Side.len (h a) * (Side.n (h a)).<Y>) cell) = 0 ->
  (forall a : addr, In a cell ->
     side_flux es h a
     = scale4 (normal_flux (Side.n (h a)) q) (Side.len (h a))) /\
  sum4 (map (side_flux es h) cell) = zero4.
Proof.
  intros Hns Hg Hin Hvl Hgod Hq Hcell Hx Hy.
  assert (Hside : forall a : addr, In a cell ->
            side_flux es h a
            = scale4 (normal_flux (Side.n (h a)) q) (Side.len (h a))).
  { intros a Ha. destruct (Hcell a Ha) as (H1 & H2 & H3).
    now apply side_flux_uniform. }
  split; [exact Hside |].
  rewrite (map_ext_in _ _ _ Hside), sum4_normal_flux, Hx, Hy.
  unfold normal_flux, zero4, X, Y. cbv zeta.
  apply arr4_ext; cbn [get4 get2 at0 at1 at2 at3 d0 d1]; ring.
Qed.

(** * Order of the visits *)

Lemma same_mesh_sym (h h0 : side_store) : same_mesh h h0 -> same_mesh h0 h.
Proof. intros H x. symmetry. apply H. Qed.

Lemma fluxCalculation_target (es : elem_store) (G : addr -> arr4)
    (h0 : side_store) :
  forall (side : list addr) (h : side_store),
    same_mesh h h0 ->
    (forall a : addr, In a side ->
       side_flux es h0 a = G a /\
       neg4 (side_flux es h0 a) = G (Side.connection (h0 a))) ->
    forall x : addr,
      fluxCalculation es side h x
      = if in_dec Nat.eq_dec x
             (side ++ map (fun a => Side.connection (h0 a)) side)
        then Side.set_flux (h0 x) (G x)
        else h x.
Proof.
  induction side as [| a side IH]; intros h Hsame HG x.
  - reflexivity.
  - rewrite fluxCalculation_cons.
    assert (Hsame1 : same_mesh (fluxCalculation_body es h a) h0).
    { intros y. rewrite body_other_fields. apply Hsame. }
    rewrite (IH _ Hsame1) by (intros b Hb; apply HG; now right).
    destruct (HG a (or_introl eq_refl)) as [HGa HGc].
    destruct (same_mesh_fields h h0 a Hsame) as (_ & _ & _ & Hc & _).
    set (conn := fun a0 => Side.connection (h0 a0)) in *.
    destruct (in_dec Nat.eq_dec x (side ++ map conn side)) as [Hin | Hnin];
      destruct (in_dec Nat.eq_dec x ((a :: side) ++ map conn (a :: side)))
        as [Hin' | Hnin'].
    + reflexivity.
    + exfalso. apply Hnin'. cbn [map app]. right.
      apply in_app_or in Hin. apply in_or_app.
      destruct Hin; [now left | right; now right].
    + apply side_record_ext.
      * rewrite body_other_fields, (Hsame x). destruct (h0 x). reflexivity.
      * rewrite body_flux_cases, Hc, (side_flux_same_mesh es h h0 a Hsame).
        cbn [Side.flux Side.set_flux]. fold (conn a).
        assert (Hcase : x = a \/ x = conn a).
        { cbn [map app] in Hin'. destruct Hin' as [Hx | Hin'];
            [left; now symmetry |].
          apply in_app_or in Hin'. destruct Hin' as [Hx | [Hx | Hx]].
          - exfalso. apply Hnin. apply in_or_app. now left.
          - right. now symmetry.
          - exfalso. apply Hnin. apply in_or_app. now right. }
        destruct (Nat.eqb_spec x (conn a)) as [-> | Hxc];
          [destruct (h0 (conn a)); exact HGc |].
        destruct Hcase as [-> | Hx]; [| contradiction].
        rewrite Nat.eqb_refl. destruct (h0 a); exact HGa.
    + apply body_frame.
      * intros Heq. apply Hnin'. left. now symmetry.
      * intros Heq. apply Hnin'. cbn [map app]. right.
        apply in_or_app. right. left. rewrite Heq, Hc. reflexivity.
Qed.

(** The result does not depend on the order of the visits when both
    records of every face are consistent.  Suppose that for every listed
    side the side and its connection are the two records of one face with
    admissible states, that gamma > 1 and that the identifier selects none
    of the Godunov, HLLC and AUSMDV kernels.  Then every record that the
    loop writes ends up holding the flux computed from that record itself,
    whichever of the two assignments reached it last, and running the loop
    over any permutation of the list leaves the same store. *)
Theorem fluxCalculation_order_independent (es : elem_store)
    (side side' : list addr) (h : side_store) :
  1 < gam ->
  iFlux <> GOD ids -> iFlux <> HLLC ids -> iFlux <> AUSMDV ids ->
  (forall a : addr, In a side ->
     twin_sides h a (Side.connection (h a)) /\
     admissible (Side.pVar (h a)) /\
     admissible (Side.pVar (h (Side.connection (h a))))) ->
  Permutation side side' ->
  (forall x : addr,
     In x side \/ In x (map (fun a => Side.connection (h a)) side) ->
     Side.flux (fluxCalculation es side h x) = side_flux es h x) /\
  (forall x : addr,
     fluxCalculation es side' h x = fluxCalculation es side h x).
Proof.
  intros Hg NG NC NV Htw Hperm.
  assert (HG : forall l : list addr,
            (forall a, In a l -> In a side) ->
            forall a : addr, In a l ->
              side_flux es h a = side_flux es h a /\
              neg4 (side_flux es h a)
              = side_flux es h (Side.connection (h a))).
  { intros l Hl a Ha. split; [reflexivity |].
    destruct (Htw a (Hl a Ha)) as (Ht & HA & HC).
    symmetry. now apply side_flux_of_twin. }
  assert (Hsame : same_mesh h h) by (intros y; reflexivity).
  split.
  - intros x Hx.
    rewrite (fluxCalculation_target es (side_flux es h) h side h Hsame
               (HG side (fun a Ha => Ha))).
    destruct (in_dec Nat.eq_dec x
                (side ++ map (fun a => Side.connection (h a)) side))
      as [_ | Hn].
    + destruct (h x). reflexivity.
    + exfalso. apply Hn. apply in_or_app. exact Hx.
  - intros x.
    rewrite (fluxCalculation_target es (side_flux es h) h side h Hsame
               (HG side (fun a Ha => Ha))).
    rewrite (fluxCalculation_target es (side_flux es h) h side' h Hsame
               (HG side' (fun a Ha => Permutation_in a (Permutation_sym Hperm) Ha))).
    assert (Hp : Permutation
                   (side ++ map (fun a => Side.connection (h a)) side)
                   (side' ++ map (fun a => Side.connection (h a)) side')).
    { apply Permutation_app; [exact Hperm | now apply Permutation_map]. }
    destruct (in_dec Nat.eq_dec x
                (side ++ map (fun a => Side.connection (h a)) side))
      as [Hin | Hnin];
      destruct (in_dec Nat.eq_dec x
                  (side' ++ map (fun a => Side.connection (h a)) side'))
        as [Hin' | Hnin']; try reflexivity.
    + exfalso. apply Hnin'. exact (Permutation_in x Hp Hin).
    + exfalso. apply Hnin. exact (Permutation_in x (Permutation_sym Hp) Hin').
Qed.

(** * Galilean invariance along the face *)

(** Names every inverse of the goal, except those of [a], of [b] and of
    numerals, so that [field] asks for no side condition on them. *)
Ltac hide_inv_but a b :=
  unfold Rdiv;
  repeat match goal with
  | |- context [/ ?x] =>
      lazymatch x with
      | IZR _ => fail
      | _ => tryif first [constr_eq x a | constr_eq x b] then fail
             else (let i := fresh "inv" in set (i := / x))
      end
  end.

Ltac boost_solve a b :=
  decimals; hide_inv_but a b; field; repeat split; lra.

Lemma total_energy_boost (rho v vt p w : R) :
  total_energy rho v (vt + w) p
  = total_energy rho v vt p + w * (rho * vt) + w * w / 2 * rho.
Proof. unfold total_energy. boost_solve rho rho. Qed.

Lemma enthalpy_boost (rho v vt p w : R) :
  0 < rho ->
  enthalpy rho v (vt + w) p = enthalpy rho v vt p + w * vt + w * w / 2.
Proof.
  intros Hr. unfold enthalpy. rewrite total_energy_boost. field. lra.
Qed.

Lemma physical_flux_boost (rho v vt p w : R) :
  physical_flux rho v (vt + w) p = boost4 w (physical_flux rho v vt p).
Proof.
  unfold physical_flux, boost4. cbv zeta. rewrite total_energy_boost.
  apply arr4_ext; cbn [get4 at0 at1 at2 at3]; boost_solve rho rho.
Qed.

Lemma conserved_boost (rho v vt p w : R) :
  conserved rho v (vt + w) p = boost4 w (conserved rho v vt p).
Proof.
  unfold conserved, boost4. rewrite total_energy_boost.
  apply arr4_ext; cbn [get4 at0 at1 at2 at3]; boost_solve rho rho.
Qed.

Lemma roe_mean_boost (rhoL rhoR qL qR w : R) :
  0 < rhoL -> 0 < rhoR ->
  roe_mean rhoL rhoR (qL + w) (qR + w) = roe_mean rhoL rhoR qL qR + w.
Proof.
  intros HrL HrR. unfold roe_mean.
  pose proof (sqrt_lt_R0 rhoL HrL). pose proof (sqrt_lt_R0 rhoR HrR).
  field. lra.
Qed.

Lemma roe_mean_enthalpy_boost (rhoL rhoR vxL vxR vyL vyR pL pR w : R) :
  0 < rhoL -> 0 < rhoR ->
  roe_mean rhoL rhoR (enthalpy rhoL vxL (vyL + w) pL)
    (enthalpy rhoR vxR (vyR + w) pR)
  = roe_mean rhoL rhoR (enthalpy rhoL vxL vyL pL) (enthalpy rhoR vxR vyR pR)
    + w * roe_mean rhoL rhoR vyL vyR + w * w / 2.
Proof.
  intros HrL HrR. rewrite !enthalpy_boost by assumption.
  unfold roe_mean.
  pose proof (sqrt_lt_R0 rhoL HrL). pose proof (sqrt_lt_R0 rhoR HrR).
  field. lra.
Qed.

Lemma roe_sound_speed_boost (rhoL rhoR vxL vxR vyL vyR pL pR w : R) :
  0 < rhoL -> 0 < rhoR ->
  roe_sound_speed rhoL rhoR vxL vxR (vyL + w) (vyR + w) pL pR
  = roe_sound_speed rhoL rhoR vxL vxR vyL vyR pL pR.
Proof.
  intros HrL HrR. unfold roe_sound_speed. cbv zeta.
  rewrite roe_mean_enthalpy_boost, roe_mean_boost by assumption.
  f_equal. boost_solve rhoL rhoR.
Qed.

Lemma hll_select_boost (SL SR q w : R) (UL UR FL FR : arr4) :
  hll_select SL SR q (boost4 w UL) (boost4 w UR) (boost4 w FL) (boost4 w FR)
  = boost4 w (hll_select SL SR q UL UR FL FR).
Proof.
  unfold hll_select, boost4.
  destruct (Rltb 0 SL); [| destruct (Rltb SR 0)]; cbv zeta;
    apply arr4_ext; cbn [get4 at0 at1 at2 at3]; boost_solve SL SL.
Qed.

Lemma flux_god_boost : tangential_galilean flux_god.
Proof.
  intros rhoL rhoR vxL vxR vyL vyR pL pR w HrL HrR.
  unfold flux_god, boost4. cbv zeta.
  destruct (exactRiemann _ _ _ _ _ _ _ _ _) as [[rho vx] p].
  destruct (Rltb 0 vx);
    apply arr4_ext; cbn [get4 at0 at1 at2 at3]; boost_solve rhoL rhoR.
Qed.

Lemma flux_roe_boost : tangential_galilean flux_roe.
Proof.
  intros rhoL rhoR vxL vxR vyL vyR pL pR w HrL HrR.
  rewrite !flux_roe_core. cbv zeta.
  rewrite roe_sound_speed_boost, roe_mean_enthalpy_boost, roe_mean_boost,
    !total_energy_boost, !physical_flux_boost by assumption.
  unfold roe_core, boost4. cbv zeta.
  apply arr4_ext; cbn [get4 at0 at1 at2 at3]; boost_solve rhoL rhoR.
Qed.

Lemma flux_hll_boost : tangential_galilean flux_hll.
Proof.
  intros rhoL rhoR vxL vxR vyL vyR pL pR w HrL HrR.
  rewrite !flux_hll_select. cbv zeta.
  unfold hll_left_speed, hll_right_speed.
  rewrite roe_sound_speed_boost, !physical_flux_boost, !conserved_boost
    by assumption.
  apply hll_select_boost.
Qed.

Lemma flux_hlle_boost : tangential_galilean flux_hlle.
Proof.
  intros rhoL rhoR vxL vxR vyL vyR pL pR w HrL HrR.
  rewrite !flux_hlle_select. cbv zeta.
  rewrite !physical_flux_boost, !conserved_boost.
  apply hll_select_boost.
Qed.

Lemma flux_hllc_boost : tangential_galilean flux_hllc.
Proof.
  intros rhoL rhoR vxL vxR vyL vyR pL pR w HrL HrR.
  rewrite !flux_hllc_select.
  unfold hll_left_speed, hll_right_speed.
  rewrite roe_sound_speed_boost by assumption.
  unfold hllc_select. cbv zeta.
  rewrite !physical_flux_boost, !conserved_boost, !total_energy_boost.
  destruct (Rltb 0 _); [| destruct (Rltb _ 0); [| destruct (_ && _)%bool]];
    unfold hllc_star, boost4; cbv zeta;
    apply arr4_ext; cbn [get4 at0 at1 at2 at3]; boost_solve rhoL rhoR.
Qed.

Lemma flux_lxf_boost : tangential_galilean flux_lxf.
Proof.
  intros rhoL rhoR vxL vxR vyL vyR pL pR w HrL HrR.
  unfold flux_lxf, boost4. cbv zeta.
  apply arr4_ext; cbn [get4 at0 at1 at2 at3]; boost_solve rhoL rhoR.
Qed.

Lemma flux_stw_boost : tangential_galilean flux_stw.
Proof.
  intros rhoL rhoR vxL vxR vyL vyR pL pR w HrL HrR.
  unfold flux_stw, boost4. cbv zeta.
  apply arr4_ext; cbn [get4 at0 at1 at2 at3]; boost_solve rhoL rhoR.
Qed.

Lemma flux_cen_boost : tangential_galilean flux_cen.
Proof.
  intros rhoL rhoR vxL vxR vyL vyR pL pR w HrL HrR.
  unfold flux_cen, boost4. cbv zeta.
  apply arr4_ext; cbn [get4 at0 at1 at2 at3]; boost_solve rhoL rhoR.
Qed.

Lemma flux_ausmd_boost : tangential_galilean flux_ausmd.
Proof.
  intros rhoL rhoR vxL vxR vyL vyR pL pR w HrL HrR.
  unfold flux_ausmd, boost4. cbv zeta.
  repeat match goal with
  | |- context [match ?e with pair _ _ => _ end] => destruct e as [? ?]
  end.
  match goal with
  | |- context [fabs ?e] => set (ar := fabs e)
  end.
  apply arr4_ext; cbn [get4 at0 at1 at2 at3]; boost_solve rhoL rhoR.
Qed.

Lemma flux_ausmdv_boost : tangential_galilean flux_ausmdv.
Proof.
  intros rhoL rhoR vxL vxR vyL vyR pL pR w HrL HrR.
  unfold flux_ausmdv, boost4. cbv zeta.
  repeat match goal with
  | |- context [match ?e with pair _ _ => _ end] => destruct e as [? ?]
  end.
  set (s := fmin 1 _).
  match goal with
  | |- context [fabs (?a * rhoL + ?b * rhoR)] =>
      set (ar := fabs (a * rhoL + b * rhoR))
  end.
  destruct (_ && negb _)%bool; destruct (negb _ && _)%bool;
    apply arr4_ext; cbn [get4 at0 at1 at2 at3]; boost_solve rhoL rhoR.
Qed.

Lemma flux_vanleer_boost : tangential_galilean flux_vanleer.
Proof.
  intros rhoL rhoR vxL vxR vyL vyR pL pR w HrL HrR.
  unfold flux_vanleer, boost4. cbv zeta.
  destruct (Rltb 1 (vxL / _)); [| destruct (_ && _)%bool];
    (destruct (Rltb (vxR / _) (- 1)); [| destruct (_ && _)%bool]);
    apply arr4_ext; cbn [get4 at0 at1 at2 at3]; boost_solve rhoL rhoR.
Qed.

(** Every kernel is Galilean invariant along the face.  For positive
    densities, adding one velocity w to the tangential velocities of both
    states leaves the mass and normal momentum fluxes that [convectiveFlux]
    returns as they are, adds w times the mass flux to the tangential
    momentum flux, and adds w times the tangential momentum flux plus
    w^2 / 2 times the mass flux to the energy flux; this holds for every
    identifier and every solver handed to the Godunov kernel. *)
Theorem convectiveFlux_tangential_galilean
    (rhoL rhoR vxL vxR vyL vyR pL pR w : R) (fluxLoc : arr4) :
  0 < rhoL -> 0 < rhoR ->
  convectiveFlux rhoL rhoR vxL vxR (vyL + w) (vyR + w) pL pR
    (boost4 w fluxLoc)
  = boost4 w (convectiveFlux rhoL rhoR vxL vxR vyL vyR pL pR fluxLoc).
Proof.
  intros HrL HrR. unfold convectiveFlux.
  destruct (iFlux =? GOD ids)%Z; [now apply flux_god_boost |].
  destruct (iFlux =? ROE ids)%Z; [now apply flux_roe_boost |].
  destruct (iFlux =? HLL ids)%Z; [now apply flux_hll_boost |].
  destruct (iFlux =? HLLE ids)%Z; [now apply flux_hlle_boost |].
  destruct (iFlux =? HLLC ids)%Z; [now apply flux_hllc_boost |].
  destruct (iFlux =? LXF ids)%Z; [now apply flux_lxf_boost |].
  destruct (iFlux =? STW ids)%Z; [now apply flux_stw_boost |].
  destruct (iFlux =? CEN ids)%Z; [now apply flux_cen_boost |].
  destruct (iFlux =? AUSMD ids)%Z; [now apply flux_ausmd_boost |].
  destruct (iFlux =? AUSMDV ids)%Z; [now apply flux_ausmdv_boost |].
  destruct (iFlux =? VANLEER ids)%Z; [now apply flux_vanleer_boost |].
  reflexivity.
Qed.

(** * Isolated contact and shear waves *)

Lemma roe_contact_strengths (u v H c dRho dMy dE : R) :
  1 < gam -> c <> 0 -> c * c = gam1 * (H - 0.5 * (u * u + v * v)) ->
  dE - (dMy - v * dRho) * v = 0.5 * (u * u + v * v) * dRho ->
  (roe_strength u v H c dRho (u * dRho) dMy dE).[0] = 0 /\
  (roe_strength u v H c dRho (u * dRho) dMy dE).[3] = 0.
Proof.
  intros Hg Hc Hcc HE.
  assert (Hg1 : gam1 <> 0) by (unfold gam1; lra).
  assert (HH : H = c * c / gam1 + 0.5 * (u * u + v * v))
    by (rewrite Hcc; field; assumption).
  assert (HdE : dE = 0.5 * (u * u + v * v) * dRho + (dMy - v * dRho) * v)
    by lra.
  clear Hcc HE. subst H dE.
  unfold roe_strength. cbv zeta. unfold gam1 in *.
  split; cbn [get4 at0 at1 at2 at3]; decimals; field; repeat split; lra.
Qed.

Lemma contact_energy_jump (sL sR u vyL vyR p : R) :
  1 < gam -> 0 < sL -> 0 < sR ->
  let rhoL := sL * sL in
  let rhoR := sR * sR in
  let vM := (sL * vyL + sR * vyR) / (sL + sR) in
  total_energy rhoR u vyR p - total_energy rhoL u vyL p
  - (rhoR * vyR - rhoL * vyL - vM * (rhoR - rhoL)) * vM
  = 0.5 * (u * u + vM * vM) * (rhoR - rhoL).
Proof.
  intros Hg HsL HsR rhoL rhoR vM.
  unfold total_energy, vM, rhoL, rhoR. decimals. field. lra.
Qed.

Lemma flux_roe_contact (rhoL rhoR u vyL vyR p : R) :
  1 < gam -> 0 < rhoL -> 0 < rhoR -> 0 < p ->
  forall i : nat,
    (flux_roe rhoL rhoR u u vyL vyR p p).[i]
    = 0.5 * ((physical_flux rhoR u vyR p).[i] + (physical_flux rhoL u vyL p).[i]
             - Rabs u * ((conserved rhoR u vyR p).[i]
                         - (conserved rhoL u vyL p).[i])) /\
    (physical_flux rhoR u vyR p).[i] - (physical_flux rhoL u vyL p).[i]
    = u * ((conserved rhoR u vyR p).[i] - (conserved rhoL u vyL p).[i]).
Proof.
  intros Hg HrL HrR Hp i.
  pose proof (roe_sound_speed_pos rhoL rhoR u u vyL vyR p p Hg HrL HrR Hp Hp)
    as Hc.
  destruct (roe_waves_states rhoL rhoR u u vyL vyR p p Hg HrL HrR Hp Hp)
    as [H1 H2].
  cbv zeta in H1, H2.
  rewrite (roe_mean_const rhoL rhoR u HrL HrR) in H1, H2.
  unfold conserved at 1 2 3 4 5 6 7 8 in H1.
  unfold conserved at 1 2 3 4 5 6 7 8 in H2.
  cbn [get4 at0 at1 at2 at3] in H1, H2.
  rewrite flux_roe_core, roe_core_waves. cbv zeta.
  rewrite !roe_fix_nonneg, (roe_mean_const rhoL rhoR u HrL HrR).
  rewrite (roe_fix_inactive u u u)
    by (replace (u - u) with 0 by ring;
        rewrite (Rmax_left 0 0) by lra; rewrite (Rmax_left 0 0) by lra;
        apply Rabs_pos).
  set (vM := roe_mean rhoL rhoR vyL vyR) in *.
  set (HM := roe_mean rhoL rhoR (enthalpy rhoL u vyL p) (enthalpy rhoR u vyR p))
    in *.
  set (cM := roe_sound_speed rhoL rhoR u u vyL vyR p p) in *.
  assert (Hcc : cM * cM = gam1 * (HM - 0.5 * (u * u + vM * vM))).
  { unfold cM, roe_sound_speed in *. cbv zeta in *.
    rewrite (roe_mean_const rhoL rhoR u HrL HrR) in Hc |- *.
    fold vM HM in Hc |- *.
    rewrite (sqrt_pos_sqr _ Hc). unfold gam1. lra. }
  assert (HE : total_energy rhoR u vyR p - total_energy rhoL u vyL p
               - (rhoR * vyR - rhoL * vyL - vM * (rhoR - rhoL)) * vM
               = 0.5 * (u * u + vM * vM) * (rhoR - rhoL)).
  { pose proof (contact_energy_jump (sqrt rhoL) (sqrt rhoR) u vyL vyR p Hg
                  (sqrt_lt_R0 rhoL HrL) (sqrt_lt_R0 rhoR HrR)) as J.
    cbv zeta in J.
    rewrite !(sqrt_sqrt rhoL), !(sqrt_sqrt rhoR) in J by lra.
    exact J. }
  replace (rhoR * u - rhoL * u) with (u * (rhoR - rhoL)) in * by ring.
  destruct (roe_contact_strengths u vM HM cM (rhoR - rhoL)
              (rhoR * vyR - rhoL * vyL)
              (total_energy rhoR u vyR p - total_energy rhoL u vyL p)
              Hg (not_eq_sym (Rlt_not_eq _ _ Hc)) Hcc HE) as [W0 W3].
  cbn [get4] in W0, W3.
  set (w := roe_strength u vM HM cM (rhoR - rhoL) (u * (rhoR - rhoL))
              (rhoR * vyR - rhoL * vyL)
              (total_energy rhoR u vyR p - total_energy rhoL u vyL p)) in *.
  assert (HU : forall j : nat,
            w.[1] * (roe_vector 1 u vM HM cM).[j]
            + w.[2] * (roe_vector 2 u vM HM cM).[j]
            = (conserved rhoR u vyR p).[j] - (conserved rhoL u vyL p).[j]).
  { intros j. pose proof (f_equal (fun a => a.[j]) H1) as H1j.
    unfold roe_wave_sum in H1j. cbv zeta in H1j.
    destruct j as [| [| [| j]]]; cbn [get4 at0 at1 at2 at3] in H1j |- *;
      rewrite W0, W3 in H1j; lra. }
  assert (HF : forall j : nat,
            u * (w.[1] * (roe_vector 1 u vM HM cM).[j]
                 + w.[2] * (roe_vector 2 u vM HM cM).[j])
            = (physical_flux rhoR u vyR p).[j]
              - (physical_flux rhoL u vyL p).[j]).
  { intros j. pose proof (f_equal (fun a => a.[j]) H2) as H2j.
    unfold roe_wave_sum, roe_speed in H2j. cbv zeta in H2j.
    destruct j as [| [| [| j]]]; cbn [get4 at0 at1 at2 at3] in H2j |- *;
      rewrite W0, W3 in H2j; lra. }
  split.
  - rewrite <- HU. unfold roe_wave_sum. cbv zeta.
    destruct i as [| [| [| i]]]; cbn [get4 at0 at1 at2 at3];
      rewrite W0, W3; unfold fabs; lra.
  - rewrite <- HU, HF. reflexivity.
Qed.

Lemma hllc_star_at_contact (S u rho vy p En : R) (f : arr4) :
  0 < rho -> S <> u ->
  hllc_star S u rho u vy p En f (mk4 rho (rho * u) (rho * vy) En) = f.
Proof.
  intros Hr HS. unfold hllc_star. cbv zeta.
  apply arr4_ext; cbn [get4 at0 at1 at2 at3]; field; repeat split; lra.
Qed.

Lemma physical_flux_at_rest (rhoL rhoR vyL vyR p : R) :
  physical_flux rhoL 0 vyL p = physical_flux rhoR 0 vyR p.
Proof.
  unfold physical_flux. cbv zeta.
  apply arr4_ext; cbn [get4 at0 at1 at2 at3]; ring.
Qed.

(** The Roe and HLLC kernels resolve an isolated contact or shear wave
    exactly.  For gamma > 1 and two states of positive density and pressure
    with the same normal velocity u and the same pressure, whatever the two
    densities and tangential velocities: both kernels return the physical
    flux of the left state when u >= 0 and that of the right state when
    u <= 0, which is the upwind flux of the exact solution. *)
Theorem contact_resolved_exactly (rhoL rhoR u vyL vyR p : R) :
  1 < gam -> 0 < rhoL -> 0 < rhoR -> 0 < p ->
  (0 <= u ->
   flux_roe rhoL rhoR u u vyL vyR p p = physical_flux rhoL u vyL p /\
   flux_hllc rhoL rhoR u u vyL vyR p p = physical_flux rhoL u vyL p) /\
  (u <= 0 ->
   flux_roe rhoL rhoR u u vyL vyR p p = physical_flux rhoR u vyR p /\
   flux_hllc rhoL rhoR u u vyL vyR p p = physical_flux rhoR u vyR p).
Proof.
  intros Hg HrL HrR Hp.
  pose proof (flux_roe_contact rhoL rhoR u vyL vyR p Hg HrL HrR Hp) as Hroe.
  pose proof (sound_speed_pos rhoL p Hg HrL Hp) as HcL.
  pose proof (sound_speed_pos rhoR p Hg HrR Hp) as HcR.
  set (SL := hll_left_speed rhoL rhoR u u vyL vyR p p).
  set (SR := hll_right_speed rhoL rhoR u u vyL vyR p p).
  assert (HSL : SL < u).
  { unfold SL, hll_left_speed.
    pose proof (Rmin_l (u - sound_speed rhoL p)
                  (roe_mean rhoL rhoR u u
                   - roe_sound_speed rhoL rhoR u u vyL vyR p p)). lra. }
  assert (HSR : u < SR).
  { unfold SR, hll_right_speed.
    pose proof (Rmax_l (u + sound_speed rhoR p)
                  (roe_mean rhoL rhoR u u
                   + roe_sound_speed rhoL rhoR u u vyL vyR p p)). lra. }
  assert (HD : rhoL * (SL - u) - rhoR * (SR - u) < 0) by nra.
  assert (Has : hllc_contact SL SR rhoL rhoR u u p p = u).
  { unfold hllc_contact. field. lra. }
  assert (Hhllc : flux_hllc rhoL rhoR u u vyL vyR p p
                  = if Rleb 0 u then physical_flux rhoL u vyL p
                    else physical_flux rhoR u vyR p).
  { rewrite flux_hllc_select. fold SL SR. unfold hllc_select. cbv zeta.
    rewrite Has.
    destruct (Rleb_spec 0 u) as [[Hu ->] | [Hu ->]].
    - destruct (Rltb_spec 0 SL) as [[H0 ->] | [H0 ->]]; [apply arr4_eta |].
      rewrite (Rltb_ge SR 0) by lra.
      rewrite (Rleb_le SL 0) by assumption. cbn [andb].
      unfold conserved. apply hllc_star_at_contact; [assumption | lra].
    - rewrite (Rltb_ge 0 SL) by lra.
      destruct (Rltb_spec SR 0) as [[H0 ->] | [H0 ->]]; [apply arr4_eta |].
      rewrite (Rleb_le SL 0) by lra. cbn [andb].
      unfold conserved. apply hllc_star_at_contact; [assumption | lra]. }
  split; intros Hu; split.
  - apply arr4_ext; destruct (Hroe 0%nat) as [A0 B0];
      destruct (Hroe 1%nat) as [A1 B1]; destruct (Hroe 2%nat) as [A2 B2];
      destruct (Hroe 3%nat) as [A3 B3];
      rewrite ?A0, ?A1, ?A2, ?A3; rewrite (Rabs_pos_eq u Hu); lra.
  - rewrite Hhllc. now rewrite (Rleb_le 0 u) by assumption.
  - apply arr4_ext; destruct (Hroe 0%nat) as [A0 B0];
      destruct (Hroe 1%nat) as [A1 B1]; destruct (Hroe 2%nat) as [A2 B2];
      destruct (Hroe 3%nat) as [A3 B3];
      rewrite ?A0, ?A1, ?A2, ?A3; rewrite (Rabs_left1 u Hu); lra.
  - rewrite Hhllc.
    destruct (Rleb_spec 0 u) as [[Hu0 ->] | [Hu0 ->]]; [| reflexivity].
    assert (E0 : u = 0) by lra. rewrite E0. apply physical_flux_at_rest.
Qed.

End Kernels.

(** * Closed instances *)

Lemma zero_not_a_label : ~ In 0%Z (case_labels ids_std).
Proof.
  unfold case_labels, ids_std; simpl. intros H.
  repeat (destruct H as [H | H]; [discriminate H |]). exact H.
Qed.

(** C1, witness: the one-face mesh, central flux, Euler build. *)
Lemma fluxCalculation_conservation_witness :
  NoDup ([0%nat] ++ map (fun a => Side.connection (mesh1_sides a)) [0%nat]) /\
  In 0%nat [0%nat] /\
  Side.flux
    (fluxCalculation 1.4 solver_left ids_std 8 1 1 false mesh1_elems [0%nat]
       mesh1_sides
       (Side.connection
          (fluxCalculation 1.4 solver_left ids_std 8 1 1 false mesh1_elems
             [0%nat] mesh1_sides 0%nat)))
  = neg4
      (Side.flux
         (fluxCalculation 1.4 solver_left ids_std 8 1 1 false mesh1_elems
            [0%nat] mesh1_sides 0%nat)).
Proof.
  assert (Hnd : NoDup ([0%nat] ++ map (fun a => Side.connection (mesh1_sides a)) [0%nat])).
  { simpl. repeat constructor; simpl; intuition discriminate. }
  assert (Hin : In 0%nat [0%nat]) by (left; reflexivity).
  split; [exact Hnd |]. split; [exact Hin |].
  exact (fluxCalculation_conservation 1.4 solver_left ids_std 8 1 1 false
           mesh1_elems [0%nat] mesh1_sides Hnd 0%nat Hin).
Defined.

(** C3, counterexample.  With the identifiers 1 .. 11 and [iFlux = 0], which
    is none of them, the dispatch reports no error: it returns the buffer it
    was given, and [fluxCalculation] runs the face loop on the one-face mesh
    and overwrites both accumulators, which held 7 in every entry, with
    zeros. *)
Lemma unknown_id_runs_face_loop :
  ~ In 0%Z (case_labels ids_std) /\
  convectiveFlux 1.4 solver_left ids_std 0 1 1 0 1 0 0 1 1 (mk4 7 7 7 7)
  = mk4 7 7 7 7 /\
  Side.flux (mesh1_sides 0%nat) = mk4 7 7 7 7 /\
  Side.flux (fluxCalculation 1.4 solver_left ids_std 0 1 1 false
               mesh1_elems [0%nat] mesh1_sides 0%nat) = zero4 /\
  Side.flux (fluxCalculation 1.4 solver_left ids_std 0 1 1 false
               mesh1_elems [0%nat] mesh1_sides 1%nat) = zero4.
Proof.
  split; [exact zero_not_a_label |]. split; [| split; [reflexivity |]].
  - apply convectiveFlux_no_match. exact zero_not_a_label.
  - pose proof (fluxCalculation_no_match_euler 1.4 solver_left ids_std 0 1 1 false
                  mesh1_elems [0%nat] zero_not_a_label eq_refl mesh1_sides 0%nat
                  (or_introl eq_refl)) as [H0 H1].
    split; [exact H0 | exact H1].
Qed.

(** C3, witness. *)
Lemma convectiveFlux_unknown_id_silent_witness :
  ~ In 0%Z (case_labels ids_std) /\
  (forall rhoL rhoR vxL vxR vyL vyR pL pR fluxLoc,
     convectiveFlux 1.4 solver_left ids_std 0 rhoL rhoR vxL vxR vyL vyR pL pR fluxLoc
     = fluxLoc) /\
  (forall (h : side_store) (a : addr),
     side_fluxConv 1.4 solver_left ids_std 0 (Side.n (h a)) (Side.pVar (h a))
       (Side.pVar (h (Side.connection (h a)))) = zero4).
Proof.
  split; [exact zero_not_a_label |].
  exact (convectiveFlux_unknown_id_silent 1.4 solver_left ids_std 0 zero_not_a_label).
Defined.



(** C7, witness: gamma = 1.4 and the stand-in solver, which resolves the
    uniform state (1, 2, 0, 1) to itself. *)
Lemma flux_god_resolved_state_witness :
  1.4 <> 1 /\
  exists vy : R,
    ((0 < 2 /\ vy = 0) \/ (2 <= 0 /\ vy = 0)) /\
    flux_god 1.4 solver_left 1 1 2 2 0 0 1 1 = physical_flux 1.4 1 2 vy 1.
Proof.
  assert (H : 1.4 <> 1) by lra.
  split; [exact H |].
  exact (flux_god_resolved_state 1.4 solver_left H 1 1 2 2 0 0 1 1 1 2 1 eq_refl).
Defined.

(** C6, witness: the supersonic uniform flow (1, 2, 0, 1) with gamma = 1.4;
    both signal speeds are positive and the kernel returns the left
    physical flux. *)
Lemma hll_left_speed_supersonic : 0 < hll_left_speed 1.4 1 1 2 2 0 0 1 1.
Proof.
  unfold hll_left_speed, roe_sound_speed, roe_mean, enthalpy, total_energy,
    sound_speed.
  cbv zeta. rewrite sqrt_1.
  replace (1.4 * 1 / 1) with 1.4 by lra.
  match goal with
  | |- context [sqrt ((1.4 - 1) * ?e)] =>
      replace ((1.4 - 1) * e) with 1.4 by lra
  end.
  pose proof (sqrt_lt_two 1.4 ltac:(lra)).
  apply Rmin_glb_lt; lra.
Qed.

Lemma flux_hll_cases_witness :
  0 < hll_left_speed 1.4 1 1 2 2 0 0 1 1 /\
  flux_hll 1.4 1 1 2 2 0 0 1 1 = physical_flux 1.4 1 2 0 1.
Proof.
  split; [exact hll_left_speed_supersonic |].
  exact (proj1 (flux_hll_cases 1.4 1 1 2 2 0 0 1 1) hll_left_speed_supersonic).
Defined.

(** C5, witness: the unit normal (0.6, 0.8), central flux. *)
Lemma rotation_round_trip_witness :
  (mk2 0.6 0.8).<X> * (mk2 0.6 0.8).<X> + (mk2 0.6 0.8).<Y> * (mk2 0.6 0.8).<Y> = 1 /\
  rotate_back (mk2 0.6 0.8)
    (side_fluxConv 1.4 solver_left ids_std 8 (mk2 0.6 0.8) (mk4 1 1 0 1) (mk4 2 0 1 1))
  = rotate_back (mk2 0.6 0.8)
      (rotate_back (mk2 1 0)
         (side_fluxConv 1.4 solver_left ids_std 8 (mk2 1 0)
            (rotate (mk2 0.6 0.8) (mk4 1 1 0 1))
            (rotate (mk2 0.6 0.8) (mk4 2 0 1 1)))).
Proof.
  assert (H : (mk2 0.6 0.8).<X> * (mk2 0.6 0.8).<X>
              + (mk2 0.6 0.8).<Y> * (mk2 0.6 0.8).<Y> = 1)
    by (unfold X, Y; simpl; lra).
  split; [exact H |].
  exact (proj2 (proj2 (proj2 (proj2 (proj2
           (rotation_round_trip 1.4 solver_left ids_std 8 (mk2 0.6 0.8) H
              (mk4 1 1 0 1) (mk4 2 0 1 1))))))).
Defined.

(** * C2: consistency at a sonic point *)

(** C2, failing input.  Uniform sonic flow: gamma = 1.4, density 1.4,
    pressure 1 (sound speed 1), normal velocity 1, tangential velocity 0 on
    both sides, so that [ML = MR = 1].  Neither [ML > 1] nor
    [ML < 1 && ML > -1] holds, the positive part falls to the last branch,
    and the van Leer kernel, called directly or through [convectiveFlux],
    returns the zero vector; the physical flux of the state is
    (1.4, 2.4, 0, 4.2). *)
Lemma flux_vanleer_sonic_uniform_flow :
  flux_vanleer 1.4 1.4 1.4 1 1 0 0 1 1 = mk4 0 0 0 0 /\
  convectiveFlux 1.4 solver_left ids_std (VANLEER ids_std)
    1.4 1.4 1 1 0 0 1 1 zero4 = mk4 0 0 0 0 /\
  physical_flux 1.4 1.4 1 0 1 = mk4 1.4 2.4 0 4.2.
Proof.
  assert (Hv : flux_vanleer 1.4 1.4 1.4 1 1 0 0 1 1 = mk4 0 0 0 0).
  { unfold flux_vanleer. cbv zeta.
    replace (1.4 * 1 / 1.4) with 1 by lra. rewrite sqrt_1.
    decide_cmp. cbn [andb get4 at0 at1 at2 at3]. f_equal; lra. }
  split; [exact Hv |]. split.
  - unfold convectiveFlux, ids_std. cbn [GOD ROE HLL HLLE HLLC LXF STW CEN AUSMD AUSMDV VANLEER Z.eqb Pos.eqb].
    exact Hv.
  - unfold physical_flux, total_energy. cbv zeta. f_equal; lra.
Qed.

(** ** The same input in binary64 arithmetic

    [flux_vanleer] once more, on the primitive binary64 floats: the
    operations are the correctly rounded IEEE ones, as in C.  The globals
    [gam], [gam1] and [gam1q] are arguments.  The literal
    [0x1.6666666666666p+0] is the double nearest to 1.4. *)
Module Binary64.

Definition flux_vanleer64 (gam gam1 gam1q : float)
    (rhoL rhoR vxL vxR vyL vyR pL pR : float)
    : float * float * float * float :=
  (let cL := PrimFloat.sqrt (gam * pL / rhoL) in
   let cR := PrimFloat.sqrt (gam * pR / rhoR) in
   let eL := gam1q * pL + 0.5 * rhoL * (vxL * vxL + vyL * vyL) in
   let eR := gam1q * pR + 0.5 * rhoR * (vxR * vxR + vyR * vyR) in
   let HL := (eL + pL) / rhoL in
   let HR := (eR + pR) / rhoR in
   let ML := vxL / cL in
   let '(fp0, fp1, fp2, fp3) :=
     if 1 <? ML then
       let fp0 := rhoL * vxL in
       (fp0, fp0 * vxL + pL, fp0 * vyL, fp0 * HL)
     else if ((ML <? 1) && (-1 <? ML))%bool then
       let cx := gam1 * vxL + 2 * cL in
       let fp0 := 0.25 * rhoL * cL * (ML + 1) * (ML + 1) in
       let fp1 := fp0 * cx / gam in
       let fp2 := fp0 * vyL in
       (fp0, fp1, fp2, 0.5 * (fp1 * cx * gam / (gam * gam - 1) + fp2 * vyL))
     else (0, 0, 0, 0) in
   let MR := vxR / cR in
   let '(fm0, fm1, fm2, fm3) :=
     if MR <? -1 then
       let fm0 := rhoR * vxR in
       (fm0, fm0 * vxR + pR, fm0 * vyR, fm0 * HR)
     else if ((MR <? 1) && (-1 <? MR))%bool then
       let cx := gam1 * vxR - 2 * cR in
       let fm0 := - 0.25 * rhoR * cR * (1 - MR) * (1 - MR) in
       let fm1 := fm0 * cx / gam in
       let fm2 := fm0 * vyR in
       (fm0, fm1, fm2, 0.5 * (fm1 * cx * gam / (gam * gam - 1) + fm2 * vyR))
     else (0, 0, 0, 0) in
   (fp0 + fm0, fp1 + fm1, fp2 + fm2, fp3 + fm3))%float.

Definition gam64 : float := 0x1.6666666666666p+0%float.

(** The sonic uniform flow: density [gam64], pressure 1, velocity 1.  The
    quotient [gam64 * 1 / gam64] is exactly 1, so are the sound speed and
    the Mach number, and the kernel returns four zeros. *)
Lemma flux_vanleer64_sonic_uniform_flow :
  flux_vanleer64 gam64 (gam64 - 1) (1 / (gam64 - 1))
    gam64 gam64 1 1 0 0 1 1
  = (0, 0, 0, 0)%float.
Proof. vm_compute. reflexivity. Qed.

(** The supersonic uniform flow of the scenario, for comparison: the
    kernel returns (2, 5, 0, 11). *)
Lemma flux_vanleer64_supersonic_uniform_flow :
  flux_vanleer64 gam64 (gam64 - 1) (1 / (gam64 - 1)) 1 1 2 2 0 0 1 1
  = (2, 5, 0, 11)%float.
Proof. vm_compute. reflexivity. Qed.

End Binary64.

(** * C4: closed instances *)

(** C4, counterexample.  Central flux, gamma = 1.4, left state
    (rho, vx, vy, p) = (2, 1, 1, 1), right state (1, 0, 0, 1): the flux is
    (1, 2, 1, 2.75); with the states exchanged and the velocities negated it
    is (-1, 2, 1, -2.75).  The two momentum components, 2 and 1, are the
    same in both, not the negation of one another. *)
Lemma central_flux_momentum_not_negated :
  (0 < 2 /\ 0 < 1 /\ 0 < 1 /\ 0 < 1) /\
  flux_cen 1.4 2 1 1 0 1 0 1 1 = mk4 1 2 1 2.75 /\
  mirrored (flux_cen 1.4) 2 1 1 0 1 0 1 1 = mk4 (-1) 2 1 (-2.75).
Proof.
  split; [lra |].
  unfold mirrored, flux_cen, gam1q, gam1. cbv zeta.
  split; f_equal; lra.
Qed.

(** C4, witness: the Roe kernel on the same pair of states; the HLLC
    kernel on a contact at rest with a shear, states (1, 0, 1, 1) and
    (4, 0, -1, 1), where its contact speed is zero; and the Godunov kernel
    on the same contact with a solver that returns the left state, so that
    the two interface states are at rest with pressure 1 and densities 1
    and 4. *)
Lemma kernels_reflection_witness :
  1 < 1.4 /\
  (0 < 2 /\ 0 < 1 /\ 0 < 1 /\ 0 < 1) /\
  mirrored (flux_roe 1.4) 2 1 1 0 1 0 1 1
  = reflect4 (flux_roe 1.4 2 1 1 0 1 0 1 1) /\
  (0 < 1 /\ 0 < 4 /\ 0 < 1 /\ 0 < 1) /\
  hllc_contact (hll_left_speed 1.4 1 4 0 0 1 (-1) 1 1)
    (hll_right_speed 1.4 1 4 0 0 1 (-1) 1 1) 1 4 0 0 1 1 = 0 /\
  mirrored (flux_hllc 1.4) 1 4 0 0 1 (-1) 1 1
  = reflect4 (flux_hllc 1.4 1 4 0 0 1 (-1) 1 1) /\
  mirror_states_agree 1.4 solver_left 1 4 0 0 1 1 /\
  mirrored (flux_god 1.4 solver_left) 1 4 0 0 1 (-1) 1 1
  = reflect4 (flux_god 1.4 solver_left 1 4 0 0 1 (-1) 1 1).
Proof.
  assert (Hg : 1 < 1.4) by lra.
  assert (H4 : 0 < 4) by lra.
  assert (H2 : 0 < 2) by lra.
  assert (H1 : 0 < 1) by lra.
  assert (Hagree : mirror_states_agree 1.4 solver_left 1 4 0 0 1 1).
  { unfold mirror_states_agree, solver_left. cbv zeta.
    split; [reflexivity |]. split; [reflexivity |].
    intros Hv. exfalso. apply Hv. reflexivity. }
  assert (Hspeeds : hll_left_speed 1.4 1 4 0 0 1 (-1) 1 1 <> 0 /\
                    hll_right_speed 1.4 1 4 0 0 1 (-1) 1 1 <> 0).
  { destruct (hll_speeds_enclose 1.4 1 4 0 0 1 (-1) 1 1 Hg H1 H4 H1 H1) as [Hl Hr].
    split; lra. }
  destruct (kernels_reflection 1.4 solver_left Hg)
    as [Hroe [_ [_ [_ [_ [_ [_ [_ [Hhllc Hgod]]]]]]]]].
  split; [exact Hg |]. split; [repeat split; assumption |].
  split; [exact (Hroe 2 1 1 0 1 0 1 1 H2 H1 H1 H1) |].
  split; [repeat split; assumption |].
  split; [unfold hllc_contact, Rdiv; ring |].
  split; [exact (Hhllc 1 4 0 0 1 (-1) 1 1 H1 H4 H1 H1 (or_intror Hspeeds)) |].
  split; [exact Hagree |].
  exact (Hgod 1 4 0 0 1 (-1) 1 1 H1 H4 H1 H1 Hagree).
Defined.

(** The AUSMDV kernel is outside the statement above.  Its negative mass
    splitting reads the left velocity where the positive splitting reads
    its own: with gamma = 1.4, density 1.4 and pressure 1 on both sides,
    left velocity 0 and right velocity 0.5, the mass flux is 0, and -1.05
    for the reflected problem. *)
Lemma flux_ausmdv_not_symmetric :
  (flux_ausmdv 1.4 1.4 1.4 0 0.5 0 0 1 1).[0] = 0 /\
  (mirrored (flux_ausmdv 1.4) 1.4 1.4 0 0.5 0 0 1 1).[0] = -1.05.
Proof.
  unfold mirrored, flux_ausmdv, fmax, fmin, fabs. cbv zeta.
  replace (1.4 * 1 / 1.4) with 1 by lra. rewrite sqrt_1.
  rewrite Rmax_left by lra.
  rewrite !Ropp_0, !Rabs_Ropp, !Rabs_R0.
  rewrite (Rabs_right 0.5) by lra.
  replace (1 - 1) with 0 by lra. rewrite Rabs_R0.
  rewrite (Rmin_left 1 1) by lra.
  replace (10 * 0 / 1) with 0 by lra. rewrite (Rmin_right 1 0) by lra.
  decide_cmp. cbn [andb negb get4 at0 at1 at2 at3].
  split; lra.
Qed.

(** The inputs left out for the HLLC kernel exist.  With gamma = 32/31,
    left state (rho, vx, vy, p) = (1, 10, 0, 15.5) and right state
    (16, 10, 0, 1875.5), the sound speeds are 4 and 11 and the Roe averages
    give velocity 10 and sound speed 10: the left signal speed is 0, the
    right one 21, and the contact speed is 0.  The left star state is a
    quotient 0 / 0; with a quotient by zero read as zero the mass flux is
    that of the left state, 10, and 0 for the reflected problem. *)
Lemma flux_hllc_not_symmetric_at_zero_speeds :
  (1 < 32 / 31 /\ 0 < 1 /\ 0 < 16 /\ 0 < 15.5 /\ 0 < 1875.5) /\
  hll_left_speed (32 / 31) 1 16 10 10 0 0 15.5 1875.5 = 0 /\
  hllc_contact (hll_left_speed (32 / 31) 1 16 10 10 0 0 15.5 1875.5)
    (hll_right_speed (32 / 31) 1 16 10 10 0 0 15.5 1875.5)
    1 16 10 10 15.5 1875.5 = 0 /\
  (flux_hllc (32 / 31) 1 16 10 10 0 0 15.5 1875.5).[0] = 10 /\
  (mirrored (flux_hllc (32 / 31)) 1 16 10 10 0 0 15.5 1875.5).[0] = 0.
Proof.
  assert (Hg : 1 < 32 / 31) by lra.
  assert (H1 : 0 < 1) by lra.
  assert (H16 : 0 < 16) by lra.
  assert (HpL : 0 < 15.5) by lra.
  assert (HpR : 0 < 1875.5) by lra.
  assert (Hs16 : sqrt 16 = 4).
  { replace 16 with (4 * 4) by lra. apply sqrt_square. lra. }
  assert (HcL : sound_speed (32 / 31) 1 15.5 = 4).
  { unfold sound_speed. replace (32 / 31 * 15.5 / 1) with (4 * 4) by lra.
    apply sqrt_square. lra. }
  assert (HcR : sound_speed (32 / 31) 16 1875.5 = 11).
  { unfold sound_speed. replace (32 / 31 * 1875.5 / 16) with (11 * 11) by lra.
    apply sqrt_square. lra. }
  assert (HuM : roe_mean 1 16 10 10 = 10).
  { unfold roe_mean. rewrite sqrt_1, Hs16. lra. }
  assert (HcM : roe_sound_speed (32 / 31) 1 16 10 10 0 0 15.5 1875.5 = 10).
  { unfold roe_sound_speed, roe_mean, enthalpy, total_energy. cbv zeta.
    rewrite sqrt_1, Hs16.
    match goal with |- sqrt ?x = _ => replace x with (10 * 10) by lra end.
    apply sqrt_square. lra. }
  assert (HSL : hll_left_speed (32 / 31) 1 16 10 10 0 0 15.5 1875.5 = 0).
  { unfold hll_left_speed. rewrite HcL, HuM, HcM. rewrite Rmin_right by lra. lra. }
  assert (HSR : hll_right_speed (32 / 31) 1 16 10 10 0 0 15.5 1875.5 = 21).
  { unfold hll_right_speed. rewrite HcR, HuM, HcM. rewrite Rmax_left by lra. lra. }
  assert (Has : hllc_contact (hll_left_speed (32 / 31) 1 16 10 10 0 0 15.5 1875.5)
                  (hll_right_speed (32 / 31) 1 16 10 10 0 0 15.5 1875.5)
                  1 16 10 10 15.5 1875.5 = 0).
  { rewrite HSL, HSR. unfold hllc_contact. lra. }
  destruct (flux_hllc_reflection_degenerate (32 / 31) 1 16 10 10 0 0 15.5 1875.5
              Hg H1 H16 HpL HpR HSL Has) as [E1 [_ E2]].
  split; [repeat split; assumption |].
  split; [exact HSL |]. split; [exact Has |].
  split; [rewrite E1; lra | exact E2].
Qed.

(** * Closed instances of the further properties *)

Lemma paired_sides_involution (x : addr) :
  Side.connection (paired_sides (Side.connection (paired_sides x))) = x.
Proof.
  unfold paired_sides. cbn [Side.connection].
  destruct (Nat.even x) eqn:Hx.
  - rewrite Nat.even_succ. unfold Nat.odd. rewrite Hx. reflexivity.
  - destruct x as [| x]; [discriminate Hx |].
    cbn [Nat.pred]. rewrite Nat.even_succ in Hx. unfold Nat.odd in Hx.
    destruct (Nat.even x); [reflexivity | discriminate Hx].
Qed.

Lemma paired_sides_no_fixpoint (x : addr) :
  Side.connection (paired_sides x) <> x.
Proof.
  unfold paired_sides. cbn [Side.connection].
  destruct (Nat.even x) eqn:Hx.
  - apply Nat.neq_succ_diag_l.
  - destruct x as [| x]; [discriminate Hx |].
    cbn [Nat.pred]. apply Nat.neq_sym, Nat.neq_succ_diag_l.
Qed.

(** Both records of the face (0, 1) are visited, Lax-Friedrichs flux. *)
Lemma fluxCalculation_conservation_paired_witness :
  In 0%nat [0%nat; 1%nat] /\
  Side.flux
    (fluxCalculation 1.4 solver_left ids_std 6 1 1 false mesh1_elems
       [0%nat; 1%nat] paired_sides
       (Side.connection
          (fluxCalculation 1.4 solver_left ids_std 6 1 1 false mesh1_elems
             [0%nat; 1%nat] paired_sides 0%nat)))
  = neg4
      (Side.flux
         (fluxCalculation 1.4 solver_left ids_std 6 1 1 false mesh1_elems
            [0%nat; 1%nat] paired_sides 0%nat)).
Proof.
  assert (Hin : In 0%nat [0%nat; 1%nat]) by (left; reflexivity).
  split; [exact Hin |].
  exact (fluxCalculation_conservation_paired 1.4 solver_left ids_std 6 1 1 false
           mesh1_elems [0%nat; 1%nat] paired_sides
           paired_sides_involution paired_sides_no_fixpoint 0%nat Hin).
Defined.

Lemma kernels_consistent_witness :
  1 < 1.4 /\ 0 < 1 /\
  flux_hllc 1.4 1 1 2 2 0 0 1 1 = physical_flux 1.4 1 2 0 1.
Proof.
  assert (Hg : 1 < 1.4) by lra.
  assert (H1 : 0 < 1) by lra.
  split; [exact Hg |]. split; [exact H1 |].
  exact (proj1 (proj2 (proj2 (proj2 (kernels_consistent 1.4 solver_left Hg))))
           1 2 0 1 H1 H1).
Defined.

Lemma roe_is_a_label : In 2%Z (case_labels ids_std).
Proof. unfold case_labels, ids_std; simpl. tauto. Qed.

Lemma convectiveFlux_uniform_flow_witness :
  1.4 = 1.4 /\
  In 2%Z (case_labels ids_std) /\
  convectiveFlux 1.4 solver_left ids_std 2 1 1 2 2 0 0 1 1 zero4
  = mk4 2 5 0 (2 * (1.4 / (1.4 - 1) + 2)).
Proof.
  split; [reflexivity |]. split; [exact roe_is_a_label |].
  exact (convectiveFlux_uniform_flow 1.4 solver_left ids_std 2 eq_refl
           (fun rho v p _ _ => eq_refl) roe_is_a_label zero4).
Defined.

(** * Closed instances of the properties of the face loop and of the source *)

Lemma mesh1_twin_0_1 : twin_sides mesh1_sides 0%nat 1%nat.
Proof.
  unfold twin_sides, mesh1_sides, X, Y. cbn.
  repeat split; try reflexivity; f_equal; lra.
Qed.

Lemma mesh1_twin_1_0 : twin_sides mesh1_sides 1%nat 0%nat.
Proof.
  unfold twin_sides, mesh1_sides, X, Y. cbn.
  repeat split; try reflexivity; f_equal; lra.
Qed.

Lemma mesh1_admissible (a : addr) : admissible (Side.pVar (mesh1_sides a)).
Proof.
  unfold admissible, mesh1_sides, RHO, P.
  destruct a; cbn; split; lra.
Qed.

Lemma cen_not_god : 8%Z <> GOD ids_std.
Proof. discriminate. Qed.

Lemma cen_not_hllc : 8%Z <> HLLC ids_std.
Proof. discriminate. Qed.

Lemma cen_not_ausmdv : 8%Z <> AUSMDV ids_std.
Proof. discriminate. Qed.

Lemma cen_not_vanleer : 8%Z <> VANLEER ids_std.
Proof. discriminate. Qed.

Lemma cen_is_a_label : In 8%Z (case_labels ids_std).
Proof. unfold case_labels, ids_std; simpl. tauto. Qed.

Lemma gamma_air : 1 < 1.4.
Proof. lra. Qed.

(** The face between the two cells of [mesh1_sides]: the barycentre vector
    (1, 0) has length 1, and the corrected velocity gradient along it is
    the difference quotient of the two cell averages. *)
Lemma side_gradients_corrected_witness :
  0 < Side.baryBaryDist (mesh1_sides 0%nat) /\
  (fst (side_gradients mesh1_elems mesh1_sides (mesh1_sides 0%nat))).[VX]
  * (side_baryBary (mesh1_sides 0%nat)).<X>
  + (snd (side_gradients mesh1_elems mesh1_sides (mesh1_sides 0%nat))).[VX]
    * (side_baryBary (mesh1_sides 0%nat)).<Y>
  = ((Elem.pVar (mesh1_elems 1%nat)).[VX] - (Elem.pVar (mesh1_elems 0%nat)).[VX])
    / Side.baryBaryDist (mesh1_sides 0%nat).
Proof.
  assert (Hd : 0 < Side.baryBaryDist (mesh1_sides 0%nat)) by (simpl; lra).
  assert (Hv : (Side.baryBaryVec (mesh1_sides 0%nat)).<X>
               * (Side.baryBaryVec (mesh1_sides 0%nat)).<X>
               + (Side.baryBaryVec (mesh1_sides 0%nat)).<Y>
                 * (Side.baryBaryVec (mesh1_sides 0%nat)).<Y>
               = Side.baryBaryDist (mesh1_sides 0%nat)
                 * Side.baryBaryDist (mesh1_sides 0%nat))
    by (unfold X, Y; simpl; lra).
  split; [exact Hd |].
  exact (proj1 (proj2 (side_gradients_corrected 1.4 1 1 mesh1_elems mesh1_sides
                         (mesh1_sides 0%nat) Hd Hv) VX)).
Defined.

(** Viscous build with zero viscosity. *)
Lemma side_flux_no_viscous_part_witness :
  0 = 0 /\
  side_flux 1.4 solver_left ids_std 8 0 1 true mesh1_elems mesh1_sides 0%nat
  = side_flux_euler 1.4 solver_left ids_std 8 mesh1_sides 0%nat.
Proof.
  split; [reflexivity |].
  exact (side_flux_no_viscous_part 1.4 solver_left ids_std 8 0 1 true
           mesh1_elems mesh1_sides 0%nat (or_introl eq_refl)).
Defined.

(** The two records of the face of [mesh1_sides], central flux, viscous
    build. *)
Lemma side_flux_twin_witness :
  twin_sides mesh1_sides 0%nat 1%nat /\
  side_flux 1.4 solver_left ids_std 8 1 1 true mesh1_elems mesh1_sides 1%nat
  = neg4 (side_flux 1.4 solver_left ids_std 8 1 1 true mesh1_elems
            mesh1_sides 0%nat).
Proof.
  split; [exact mesh1_twin_0_1 |].
  exact (proj1 (side_flux_twin 1.4 solver_left ids_std 8 1 1 true mesh1_elems
                  mesh1_sides 0%nat 1%nat gamma_air cen_not_god cen_not_hllc
                  cen_not_ausmdv mesh1_twin_0_1 (mesh1_admissible 0%nat)
                  (mesh1_admissible 1%nat))).
Defined.

(** Both records of the face are listed; the two orders of the visits. *)
Lemma fluxCalculation_order_independent_witness :
  Permutation [0%nat; 1%nat] [1%nat; 0%nat] /\
  fluxCalculation 1.4 solver_left ids_std 8 1 1 true mesh1_elems
    [1%nat; 0%nat] mesh1_sides 0%nat
  = fluxCalculation 1.4 solver_left ids_std 8 1 1 true mesh1_elems
      [0%nat; 1%nat] mesh1_sides 0%nat.
Proof.
  assert (Hp : Permutation [0%nat; 1%nat] [1%nat; 0%nat])
    by apply perm_swap.
  assert (Htw : forall a : addr, In a [0%nat; 1%nat] ->
            twin_sides mesh1_sides a (Side.connection (mesh1_sides a)) /\
            admissible (Side.pVar (mesh1_sides a)) /\
            admissible (Side.pVar (mesh1_sides (Side.connection (mesh1_sides a))))).
  { intros a [<- | [<- | []]].
    - split; [exact mesh1_twin_0_1 |]. split; apply mesh1_admissible.
    - split; [exact mesh1_twin_1_0 |]. split; apply mesh1_admissible. }
  split; [exact Hp |].
  exact (proj2 (fluxCalculation_order_independent 1.4 solver_left ids_std 8 1 1
                  true mesh1_elems [0%nat; 1%nat] [1%nat; 0%nat] mesh1_sides
                  gamma_air cen_not_god cen_not_hllc cen_not_ausmdv Htw Hp)
           0%nat).
Defined.

(** The unit square in the uniform flow (1, 2, 1, 1), central flux. *)
Lemma free_stream_preservation_witness :
  Rsum (map (fun a => Side.len (square_cell_sides a)
                      * (Side.n (square_cell_sides a)).<X>)
          [0%nat; 1%nat; 2%nat; 3%nat]) = 0 /\
  Rsum (map (fun a => Side.len (square_cell_sides a)
                      * (Side.n (square_cell_sides a)).<Y>)
          [0%nat; 1%nat; 2%nat; 3%nat]) = 0 /\
  sum4 (map (side_flux 1.4 solver_left ids_std 8 1 1 false mesh1_elems
               square_cell_sides)
          [0%nat; 1%nat; 2%nat; 3%nat])
  = zero4.
Proof.
  assert (Hx : Rsum (map (fun a => Side.len (square_cell_sides a)
                                   * (Side.n (square_cell_sides a)).<X>)
                       [0%nat; 1%nat; 2%nat; 3%nat]) = 0)
    by (unfold Rsum, X; simpl; lra).
  assert (Hy : Rsum (map (fun a => Side.len (square_cell_sides a)
                                   * (Side.n (square_cell_sides a)).<Y>)
                       [0%nat; 1%nat; 2%nat; 3%nat]) = 0)
    by (unfold Rsum, Y; simpl; lra).
  assert (Hq : admissible (mk4 1 2 1 1))
    by (unfold admissible, RHO, P; simpl; lra).
  assert (Hcell : forall a : addr, In a [0%nat; 1%nat; 2%nat; 3%nat] ->
            Side.pVar (square_cell_sides a) = mk4 1 2 1 1 /\
            Side.pVar (square_cell_sides (Side.connection (square_cell_sides a)))
            = mk4 1 2 1 1 /\
            (Side.n (square_cell_sides a)).<X> * (Side.n (square_cell_sides a)).<X>
            + (Side.n (square_cell_sides a)).<Y> * (Side.n (square_cell_sides a)).<Y>
            = 1).
  { intros a [<- | [<- | [<- | [<- | []]]]];
      (split; [reflexivity |]; split; [reflexivity |]);
      unfold X, Y; simpl; lra. }
  split; [exact Hx |]. split; [exact Hy |].
  exact (proj2 (free_stream_preservation 1.4 solver_left ids_std 8 1 1 false
                  mesh1_elems square_cell_sides [0%nat; 1%nat; 2%nat; 3%nat]
                  (mk4 1 2 1 1) eq_refl gamma_air cen_is_a_label
                  cen_not_vanleer (fun e => False_ind _ (cen_not_god e))
                  Hq Hcell Hx Hy)).
Defined.

(** The element at address 0 of [mesh1_elems] has one Gauss point. *)
Lemma calcSource_quadrature_witness :
  In 0%nat [0%nat] /\
  Elem.source (calcSource 1.4 1 1 false 1 0 [0%nat] mesh1_elems 0%nat)
  = quadrature 1.4 1 1 false 1 0
      (combine (Elem.xGP (mesh1_elems 0%nat)) (Elem.wGP (mesh1_elems 0%nat))).
Proof.
  assert (Hin : In 0%nat [0%nat]) by (left; reflexivity).
  split; [exact Hin |].
  exact (proj1 (calcSource_quadrature 1.4 1 1 false 1 0 [0%nat] mesh1_elems
                  0%nat Hin eq_refl eq_refl)).
Defined.

(** Source identifier 2. *)
Lemma calcSource_unknown_source_witness :
  (2 <> 1)%Z /\
  Elem.source (calcSource 1.4 1 1 false 2 0 [0%nat] mesh1_elems 0%nat) = zero4.
Proof.
  assert (Hne : (2 <> 1)%Z) by discriminate.
  split; [exact Hne |].
  exact (proj2 (calcSource_unknown_source 1.4 1 1 false 2 Hne) 0 [0%nat]
           mesh1_elems 0%nat (or_introl eq_refl)).
Defined.

(** * Closed instances of the properties of the kernels *)

Lemma sound_speed_air_lt_two : sound_speed 1.4 1 1 < 2.
Proof. unfold sound_speed. apply sqrt_lt_two. lra. Qed.

Lemma sound_speed_air_pos : 0 < sound_speed 1.4 1 1.
Proof. apply sound_speed_pos; lra. Qed.

Lemma roe_sound_speed_uniform :
  roe_sound_speed 1.4 1 1 2 2 0 0 1 1 = sound_speed 1.4 1 1.
Proof.
  unfold roe_sound_speed, roe_mean, enthalpy, total_energy, sound_speed.
  cbv zeta. rewrite sqrt_1. f_equal. lra.
Qed.

Lemma roe_mean_uniform : roe_mean 1 1 2 2 = 2.
Proof. apply roe_mean_const; lra. Qed.

(** Sonic uniform flow of density 1.4 and pressure 1 (sound speed 1). *)
Lemma flux_vanleer_sonic_witness :
  1 < 1.4 /\
  flux_vanleer 1.4 1.4 1.4 (sound_speed 1.4 1.4 1) (sound_speed 1.4 1.4 1)
    0 0 1 1 = zero4.
Proof.
  split; [exact gamma_air |].
  exact (proj1 (flux_vanleer_sonic 1.4 1.4 0 1 gamma_air ltac:(lra) ltac:(lra))).
Defined.

(** Supersonic flow to the right with a velocity jump: (1, 2, 0, 1) on the
    left, (1, 3, 0, 1) on the right. *)
Lemma splitting_kernels_supersonic_witness :
  Rmax (sound_speed 1.4 1 1) (sound_speed 1.4 1 1) < 2 /\
  flux_ausmdv 1.4 1 1 2 3 0 0 1 1 = physical_flux 1.4 1 2 0 1.
Proof.
  assert (H1 : 0 < 1) by lra.
  assert (Hc : Rmax (sound_speed 1.4 1 1) (sound_speed 1.4 1 1) < 2)
    by (apply Rmax_lub_lt; exact sound_speed_air_lt_two).
  assert (Hc3 : Rmax (sound_speed 1.4 1 1) (sound_speed 1.4 1 1) < 3)
    by (apply Rlt_trans with 2; [exact Hc | lra]).
  split; [exact Hc |].
  exact (proj2 (proj2 (proj2
           (proj1 (splitting_kernels_supersonic 1.4 1 1 2 3 0 0 1 1 gamma_air
                     H1 H1 H1 H1) Hc Hc3)))).
Defined.

(** The states (1, 0, 0, 1) and (4, 1, 0, 2): the normal momentum
    component of the wave sum. *)
Lemma flux_roe_linearisation_witness :
  1 < 1.4 /\ 0 < 4 /\
  let uM := roe_mean 1 4 0 1 in
  let vM := roe_mean 1 4 0 0 in
  let HM := roe_mean 1 4 (enthalpy 1.4 1 0 0 1) (enthalpy 1.4 4 1 0 2) in
  let cM := roe_sound_speed 1.4 1 4 0 1 0 0 1 2 in
  let UL := conserved 1.4 1 0 0 1 in
  let UR := conserved 1.4 4 1 0 2 in
  let w := roe_strength 1.4 uM vM HM cM (UR.[0] - UL.[0]) (UR.[1] - UL.[1])
             (UR.[2] - UL.[2]) (UR.[3] - UL.[3]) in
  (roe_wave_sum w (roe_speed uM cM) uM vM HM cM).[1]
  = (physical_flux 1.4 4 1 0 2).[1] - (physical_flux 1.4 1 0 0 1).[1].
Proof.
  assert (H1 : 0 < 1) by lra.
  assert (H2 : 0 < 2) by lra.
  assert (H4 : 0 < 4) by lra.
  split; [exact gamma_air |]. split; [exact H4 |].
  exact (proj2 (proj2 (flux_roe_linearisation 1.4 1 4 0 1 0 0 1 2 gamma_air
                         H1 H4 H1 H2 1%nat))).
Defined.

(** Uniform supersonic flow (1, 2, 0, 1): the entropy fix is inactive and
    the slowest eigenvalue 2 - c is positive. *)
Lemma flux_roe_upwind_witness :
  0 <= roe_mean 1 1 2 2 - roe_sound_speed 1.4 1 1 2 2 0 0 1 1 /\
  flux_roe 1.4 1 1 2 2 0 0 1 1 = physical_flux 1.4 1 2 0 1.
Proof.
  assert (H1 : 0 < 1) by lra.
  assert (Hs : 0 <= roe_mean 1 1 2 2 - roe_sound_speed 1.4 1 1 2 2 0 0 1 1).
  { rewrite roe_mean_uniform, roe_sound_speed_uniform.
    pose proof sound_speed_air_lt_two. lra. }
  assert (Hfix : forall k : nat,
            Rmax (Rmax 0 ((roe_speed (roe_mean 1 1 2 2)
                             (roe_sound_speed 1.4 1 1 2 2 0 0 1 1)).[k]
                          - (roe_speed 2 (sound_speed 1.4 1 1)).[k]))
                 ((roe_speed 2 (sound_speed 1.4 1 1)).[k]
                  - (roe_speed (roe_mean 1 1 2 2)
                       (roe_sound_speed 1.4 1 1 2 2 0 0 1 1)).[k])
            <= Rabs (roe_speed (roe_mean 1 1 2 2)
                       (roe_sound_speed 1.4 1 1 2 2 0 0 1 1)).[k]).
  { intros k. rewrite roe_mean_uniform, roe_sound_speed_uniform.
    match goal with
    | |- Rmax (Rmax 0 (?a - ?a)) (?a - ?a) <= _ =>
        replace (a - a) with 0 by ring
    end.
    rewrite (Rmax_left 0 0) by lra. rewrite (Rmax_left 0 0) by lra.
    apply Rabs_pos. }
  split; [exact Hs |].
  exact (proj1 (flux_roe_upwind 1.4 1 1 2 2 0 0 1 1 gamma_air H1 H1 H1 H1 Hfix)
           Hs).
Defined.

(** Roe flux between (1, 0, ., 1) and (2, 1, ., 2) with tangential
    velocity 3 on both sides. *)
Lemma convectiveFlux_tangential_advection_witness :
  In 2%Z (case_labels ids_std) /\
  (convectiveFlux 1.4 solver_left ids_std 2 1 2 0 1 3 3 1 2 zero4).[MY]
  = 3 * (convectiveFlux 1.4 solver_left ids_std 2 1 2 0 1 3 3 1 2 zero4).[RHO].
Proof.
  split; [exact roe_is_a_label |].
  exact (convectiveFlux_tangential_advection 1.4 solver_left ids_std 2
           1 2 0 1 3 1 2 zero4 ltac:(lra) ltac:(lra) roe_is_a_label).
Defined.

(** HLLC flux between (1, 0, 1, 1) and (2, 1, 0, 2), seen by an observer
    moving along the face with speed -3. *)
Lemma convectiveFlux_tangential_galilean_witness :
  0 < 1 /\
  convectiveFlux 1.4 solver_left ids_std 5 1 2 0 1 (1 + 3) (0 + 3) 1 2
    (boost4 3 zero4)
  = boost4 3 (convectiveFlux 1.4 solver_left ids_std 5 1 2 0 1 1 0 1 2 zero4).
Proof.
  assert (H1 : 0 < 1) by lra.
  split; [exact H1 |].
  exact (convectiveFlux_tangential_galilean 1.4 solver_left ids_std 5
           1 2 0 1 1 0 1 2 3 zero4 H1 ltac:(lra)).
Defined.

(** Roe flux on the uniform state (1, 2, 0, 1). *)
Lemma convectiveFlux_consistent_witness :
  In 2%Z (case_labels ids_std) /\
  convectiveFlux 1.4 solver_left ids_std 2 1 1 2 2 0 0 1 1 zero4
  = physical_flux 1.4 1 2 0 1.
Proof.
  assert (H1 : 0 < 1) by lra.
  split; [exact roe_is_a_label |].
  exact (convectiveFlux_consistent 1.4 solver_left ids_std 2 1 2 0 1 zero4
           gamma_air H1 H1 roe_is_a_label
           (fun e => ltac:(discriminate e)) (fun e => ltac:(discriminate e))).
Defined.

Lemma hllc_contact_at_rest (SL SR : R) : hllc_contact SL SR 1 1 0 0 1 1 = 0.
Proof. unfold hllc_contact, Rdiv. ring. Qed.

(** Two equal states at rest: the contact is at rest between the two
    acoustic signals, and the two candidate star fluxes coincide. *)
Lemma flux_hllc_contact_jump_witness :
  let SL := hll_left_speed 1.4 1 1 0 0 0 0 1 1 in
  let SR := hll_right_speed 1.4 1 1 0 0 0 0 1 1 in
  let as_ := hllc_contact SL SR 1 1 0 0 1 1 in
  let UL := conserved 1.4 1 0 0 1 in
  let FL := physical_flux 1.4 1 0 0 1 in
  SL < as_ /\ as_ < SR /\
  FL.[1] + SL * ((hllc_star_state SL as_ 1 0 0 1 UL.[3]).[1] - UL.[1])
  = FL.[1] + SR * ((hllc_star_state SR as_ 1 0 0 1 UL.[3]).[1] - UL.[1]).
Proof.
  intros SL SR as_ UL FL.
  assert (H1 : 0 < 1) by lra.
  destruct (hll_speeds_strict 1.4 1 0 0 1 gamma_air H1 H1) as [HL HR].
  fold SL in HL. fold SR in HR.
  assert (H0 : as_ = 0) by apply hllc_contact_at_rest.
  assert (HaL : SL < as_) by (rewrite H0; exact HL).
  assert (HaR : as_ < SR) by (rewrite H0; exact HR).
  split; [exact HaL |]. split; [exact HaR |].
  exact (proj2 (flux_hllc_contact_jump 1.4 1 1 0 0 0 0 1 1 gamma_air
                  H1 H1 H1 H1 HaL HaR) H0 1%nat).
Defined.
(** * The two builds of the source term *)

(** What [#ifdef navierstokes] changes in [evalSource]: nothing in the
    mass and momentum sources; in the energy source of identifier 1 the
    viscous build adds the term 2 mu gamma pi^2 / Pr sin (phase), scaled by
    the amplitude 0.1; so the two builds agree when the viscosity is
    zero. *)
Theorem evalSource_builds (gam mu Pr : R) (iSource : Z) (x : arr2)
    (time : R) (source : arr4) :
  let Sv := evalSource gam mu Pr true iSource x time source in
  let Se := evalSource gam mu Pr false iSource x time source in
  Sv.[RHO] = Se.[RHO] /\ Sv.[VX] = Se.[VX] /\ Sv.[VY] = Se.[VY] /\
  (mu = 0 -> Sv = Se) /\
  (iSource = 1%Z ->
   Sv.[E] - Se.[E]
   = 2 * mu * gam * PI * PI / Pr
     * sin (PI * (x.<X> + x.<Y>) - 2 * PI * time) * 0.1).
Proof.
  intros Sv Se. unfold Sv, Se, evalSource.
  destruct (Z.eqb_spec iSource 1) as [H1 | H1].
  - cbv zeta. unfold RHO, VX, VY, E. cbn [get4 at0 at1 at2 at3].
    replace (PI * 1 * (x.<X> + x.<Y>) - 2 * PI * time)
      with (PI * (x.<X> + x.<Y>) - 2 * PI * time) by ring.
    split; [reflexivity |]. split; [reflexivity |]. split; [reflexivity |].
    split.
    + intros ->. apply arr4_ext; cbn [get4 at0 at1 at2 at3];
        unfold Rdiv; ring.
    + intros _. unfold Rdiv. ring.
  - split; [reflexivity |]. split; [reflexivity |]. split; [reflexivity |].
    split; [reflexivity | intros e; contradiction].
Qed.


(** * Closed instance of the contact resolution *)

(** A contact with a shear: density 1 and tangential velocity 0 on the
    left, density 4 and tangential velocity 2 on the right, normal velocity
    1 and pressure 1 on both sides. *)
Lemma contact_resolved_exactly_witness :
  0 <= 1 /\
  flux_roe 1.4 1 4 1 1 0 2 1 1 = physical_flux 1.4 1 1 0 1 /\
  flux_hllc 1.4 1 4 1 1 0 2 1 1 = physical_flux 1.4 1 1 0 1.
Proof.
  assert (H0 : 0 <= 1) by lra.
  assert (H1 : 0 < 1) by lra.
  assert (H4 : 0 < 4) by lra.
  split; [exact H0 |].
  exact (proj1 (contact_resolved_exactly 1.4 1 4 1 0 2 1 gamma_air H1 H4 H1) H0).
Defined.
